(** * Constrained spatial interaction models: the notebook's arithmetic

    A shallow embedding of the code cells of [Urbsim_Prac_2.ipynb] and the
    properties stated about them.

    - [Num], [Metrics]: rounding, and the helpers [CalcRSquared] and
      [CalcRMSE] of cell 2.
    - [Frame]: the table [cdatasub] as a list of rows, with the pandas
      operations the cells use (column access and assignment, elementwise
      arithmetic, grouped sums, left merges).
    - [Notebook]: the cells that change the table, from the margins of
      cell 14 to the fitted flows of cell 48, and their composition.  The
      two Poisson fits are library calls; their parameters are inputs, and
      what is assumed of them (the design, maximum likelihood) is stated as
      [prodSim_design], [attrSim_design] and [poisson_mle].
    - [Sample]: a table of seven origins with its fitted parameters.

    Numbers: the notebook computes with binary floating point; here every
    finite number is a real ([R]) and [nan] is a separate value.  Rounding
    to a number of decimals is rounding half to even, as Python and numpy
    do it.  Exceptions are [None] (or [Raised]). *)

From Stdlib Require Import String Ascii.
From Stdlib Require Import Reals Lra Lia ZArith Bool List.
Import ListNotations.

Local Open Scope string_scope.
Local Open Scope list_scope.
Local Open Scope R_scope.

(* ================================================================== *)
(** * Part I: definitions *)
(* ================================================================== *)

(** ** Numeric helpers *)

Module Num.

(** Nearest integer, ties to the even neighbour ([numpy.rint], Python's
    [round]). *)
Definition round_half_even (x : R) : Z :=
  let f := Zfloor x in
  let d := x - IZR f in
  if Rlt_dec d (1 / 2) then f
  else if Rlt_dec (1 / 2) d then (f + 1)%Z
  else if Z.even f then f else (f + 1)%Z.

(** [round(x)] on a float column, and [round(x, 0)]. *)
Definition rint (x : R) : R := IZR (round_half_even x).

(** Python's [round(x, n)] for a float [x] and [n >= 0] digits. *)
Definition round_digits (n : nat) (x : R) : R :=
  rint (x * 10 ^ n) / 10 ^ n.

Fixpoint sum (l : list R) : R :=
  match l with
  | [] => 0
  | a :: t => a + sum t
  end.

Definition mean (l : list R) : R := sum l / INR (length l).

Definition Reqb (x y : R) : bool := if Req_dec_T x y then true else false.

End Num.

(** ** Cell 2: the two goodness-of-fit helpers *)

Module Metrics.
Import Num.

(** What a call yields: an exception, [nan], or a finite number. *)
Inductive result (A : Type) : Type :=
| Raised
| NotANumber
| Value (a : A).
Arguments Raised {A}.
Arguments NotANumber {A}.
Arguments Value {A} a.

(** A numeric Series without missing entries on the default index
    0 .. n-1 is the list of its values. *)
Definition Series := list R.

(** [(x == x[0]).all()] *)
Definition constant_input (x : Series) : bool :=
  match x with
  | [] => true
  | a :: t => forallb (fun b => Reqb b a) t
  end.

Definition center (x : Series) : Series := map (fun a => a - mean x) x.

Fixpoint dot (x y : Series) : R :=
  match x, y with
  | a :: x', b :: y' => a * b + dot x' y'
  | _, _ => 0
  end.

(** [scipy.stats.pearsonr] is library code outside the repository; this
    follows its documentation: it raises [ValueError] when the lengths
    differ or are below 2, returns [nan] for a constant input, and otherwise
    r = sum (x - mx)(y - my) / sqrt (sum (x - mx)^2 * sum (y - my)^2)
    together with a p-value, which is a function of the length and of r
    ([pvalue], left abstract). *)
Definition pearsonr (pvalue : nat -> R -> R) (x y : Series) : result (R * R) :=
  if negb (length x =? length y)%nat then Raised
  else if (length x <? 2)%nat then Raised
  else if constant_input x || constant_input y then NotANumber
  else
    let xm := center x in
    let ym := center y in
    let r := dot xm ym / sqrt (dot xm xm * dot ym ym) in
    Value (r, pvalue (length x) r).

(** [r, p = scipy.stats.pearsonr(observed, estimated); R2 = r ** 2] *)
Definition CalcRSquared (pvalue : nat -> R -> R) (observed estimated : Series)
  : result R :=
  match pearsonr pvalue observed estimated with
  | Raised => Raised
  | NotANumber => NotANumber
  | Value (r, p) => let R2 := r ^ 2 in Value R2
  end.

(** [observed - estimated] aligns the two Series on their index: on the
    default index the difference is defined on the common positions and is
    [nan] on the others; [(...)**2] keeps that, and [.mean()] skips the
    [nan] entries.  So only the common positions reach the mean. *)
Fixpoint squared_residuals (observed estimated : Series) : list R :=
  match observed, estimated with
  | o :: os, e :: es => (o - e) ^ 2 :: squared_residuals os es
  | _, _ => []
  end.

(** [res = (observed - estimated)**2; RMSE = round(sqrt(res.mean()), 3)].
    The mean of no value at all is [nan], and so are its square root and
    the rounding of that. *)
Definition CalcRMSE (observed estimated : Series) : result R :=
  let res := squared_residuals observed estimated in
  match res with
  | [] => NotANumber
  | _ => let RMSE := round_digits 3 (sqrt (mean res)) in Value RMSE
  end.

(** *** The textbook quantities the helpers are compared with *)

Definition nth_diff_sq (observed estimated : Series) (i : nat) : R :=
  (nth i observed 0 - nth i estimated 0) * (nth i observed 0 - nth i estimated 0).

(** Root mean square error: sqrt ((1/n) * sum_i (o_i - e_i)^2). *)
Definition rmse (observed estimated : Series) : R :=
  let n := length observed in
  sqrt (/ INR n * sum (map (nth_diff_sq observed estimated) (seq 0 n))).

Definition covariance (x y : Series) : R :=
  mean (map (fun p => (fst p - mean x) * (snd p - mean y)) (combine x y)).

Definition variance (x : Series) : R := covariance x x.

Definition std_dev (x : Series) : R := sqrt (variance x).

(** Pearson's correlation coefficient: cov(X, Y) / (sigma_X * sigma_Y). *)
Definition pearson_correlation (x y : Series) : R :=
  covariance x y / (std_dev x * std_dev y).

(** The coefficient of determination computed from residuals,
    1 - SS_res / SS_tot. *)
Definition r2_residual (observed estimated : Series) : R :=
  1 - sum (squared_residuals observed estimated)
      / sum (map (fun o => (o - mean observed) ^ 2) observed).

End Metrics.

(** ** The flow table *)

Module Frame.
Import Num.

(** A cell of the table: text, a finite number, or [nan]. Results that
    numpy would report as infinite (division by zero, logarithm of zero)
    are not finite numbers and are represented by [VNaN] as well. *)
Inductive value : Type :=
| VStr (s : string)
| VNum (x : R)
| VNaN.

(** A row is the list of its (column name, cell) pairs in column order; the
    table [cdatasub] is the list of its rows, in index order. *)
Abbreviation row := (list (string * value)).
Abbreviation DataFrame := (list row).

(** A column taken out of the table, or a Series computed from such
    columns: its values in index order. *)
Abbreviation Column := (list value).

(** Python exceptions ([KeyError], [TypeError], [IndexError]) are [None]. *)
Definition bind {A B : Type} (m : option A) (f : A -> option B) : option B :=
  match m with
  | Some a => f a
  | None => None
  end.

Notation "x <- m ;; k" := (bind m (fun x => k))
  (at level 61, m at next level, right associativity).

Fixpoint mapM {A B : Type} (f : A -> option B) (l : list A) : option (list B) :=
  match l with
  | [] => Some []
  | a :: t => b <- f a ;; bs <- mapM f t ;; Some (b :: bs)
  end.

(** [row[c]] *)
Fixpoint get (c : string) (r : row) : option value :=
  match r with
  | [] => None
  | (k, v) :: t => if String.eqb k c then Some v else get c t
  end.

Definition has (c : string) (r : row) : bool :=
  match get c r with
  | Some _ => true
  | None => false
  end.

(** Writing cell [c] of a row: in place when the column exists, as a new
    last column otherwise. *)
Fixpoint set (c : string) (v : value) (r : row) : row :=
  match r with
  | [] => [(c, v)]
  | (k, w) :: t => if String.eqb k c then (k, v) :: t else (k, w) :: set c v t
  end.

Definition rename (c c' : string) (r : row) : row :=
  map (fun kv => if String.eqb (fst kv) c then (c', snd kv) else kv) r.

(** [df[c]] *)
Definition column (c : string) (df : DataFrame) : option Column :=
  mapM (get c) df.

(** [df[c] = s], the Series [s] being on the table's own index: row k gets
    the k-th value, and [nan] when the Series has none. *)
Fixpoint set_column (c : string) (s : Column) (df : DataFrame) : DataFrame :=
  match df with
  | [] => []
  | r :: rest =>
      match s with
      | [] => set c VNaN r :: set_column c [] rest
      | v :: s' => set c v r :: set_column c s' rest
      end
  end.

(** *** Elementwise arithmetic *)

Definition num1 (f : R -> value) (v : value) : option value :=
  match v with
  | VNum x => Some (f x)
  | VNaN => Some VNaN
  | VStr _ => None
  end.

Definition num2 (f : R -> R -> value) (a b : value) : option value :=
  match a, b with
  | VStr _, _ | _, VStr _ => None
  | VNum x, VNum y => Some (f x y)
  | _, _ => Some VNaN
  end.

Definition map1 (f : R -> value) (s : Column) : option Column :=
  mapM (num1 f) s.

(** A binary operation on two Series aligns them on the index; a position
    that only one of them has counts as [nan] in the other. *)
Fixpoint map2 (f : R -> R -> value) (a b : Column) : option Column :=
  match a, b with
  | [], _ => mapM (fun y => num2 f VNaN y) b
  | _, [] => mapM (fun x => num2 f x VNaN) a
  | x :: a', y :: b' => v <- num2 f x y ;; vs <- map2 f a' b' ;; Some (v :: vs)
  end.

Definition fadd (x y : R) : value := VNum (x + y).
Definition fsub (x y : R) : value := VNum (x - y).
Definition fmul (x y : R) : value := VNum (x * y).
Definition fdiv (x y : R) : value :=
  if Req_dec_T y 0 then VNaN else VNum (x / y).
Definition fexp (x : R) : value := VNum (exp x).
Definition flog (x : R) : value :=
  if Rlt_dec 0 x then VNum (ln x) else VNaN.

(** [x ** y] on floats. *)
Definition fpow (x y : R) : value :=
  if Rlt_dec 0 x then VNum (Rpower x y)
  else if Req_dec_T x 0 then
    (if Rlt_dec 0 y then VNum 0 else if Req_dec_T y 0 then VNum 1 else VNaN)
  else if Req_dec_T y (IZR (Zfloor y)) then
    (if Z.even (Zfloor y) then VNum (Rpower (- x) y)
     else VNum (- Rpower (- x) y))
  else VNaN.

Definition fround (x : R) : value := VNum (rint x).

(** *** Grouping and merging *)

Definition value_eqb (a b : value) : bool :=
  match a, b with
  | VStr s, VStr t => String.eqb s t
  | VNum x, VNum y => Reqb x y
  | VNaN, VNaN => true
  | _, _ => false
  end.

Definition is_nan (v : value) : bool :=
  match v with
  | VNaN => true
  | _ => false
  end.

(** The distinct values of a list, each at its first occurrence. *)
Fixpoint distinct (l : list value) : list value :=
  match l with
  | [] => []
  | a :: t => a :: filter (fun b => negb (value_eqb b a)) (distinct t)
  end.

(** The sum of a group; pandas leaves [nan] entries out. *)
Fixpoint nansum (l : list value) : option R :=
  match l with
  | [] => Some 0
  | VNum x :: t => s <- nansum t ;; Some (x + s)
  | VNaN :: t => nansum t
  | VStr _ :: t => None
  end.

Definition group_values (k : value) (keys vals : Column) : Column :=
  map snd (filter (fun kv => value_eqb (fst kv) k) (combine keys vals)).

(** [df.groupby([key])[col].agg(np.sum)]: one entry per distinct key that
    is not [nan], with the sum of [col] over the rows of that key.  pandas
    lists the groups in key order; the result is only used as the right
    side of a keyed merge, where the order plays no role, so the groups come
    here in order of first occurrence. *)
Definition groupby_sum (key col : string) (df : DataFrame)
  : option (list (value * value)) :=
  keys <- column key df ;;
  vals <- column col df ;;
  mapM (fun k => s <- nansum (group_values k keys vals) ;; Some (k, VNum s))
       (distinct (filter (fun k => negb (is_nan k)) keys)).

(** The merged table gets the right table's value column under its own
    name, unless the left table has a column of that name: then the two
    get the suffixes [_x] and [_y]. *)
Definition attach (c : string) (v : value) (r : row) : row :=
  if has c r then rename c (c ++ "_x")%string r ++ [((c ++ "_y")%string, v)]
  else r ++ [(c, v)].

Definition merge_row (left_on : string) (right : list (value * value))
  (c : string) (r : row) : option (list row) :=
  k <- get left_on r ;;
  Some (match filter (fun kv => value_eqb (fst kv) k) right with
        | [] => [attach c VNaN r]
        | ms => map (fun kv => attach c (snd kv) r) ms
        end).

(** [left.merge(right, left_on=..., how="left")] for a right table of one
    key and one value column [c]: the left rows in their order, each once
    per matching right row, and once with [nan] when nothing matches. *)
Definition merge_left (left : DataFrame) (left_on : string)
  (right : list (value * value)) (c : string) : option DataFrame :=
  option_map (@concat row) (mapM (merge_row left_on right c) left).

(** The sum of [h] over the rows of [base] whose key is [k]. *)
Definition group_total (key : row -> value) (h : row -> R) (base : DataFrame)
  (k : value) : R :=
  sum (map h (filter (fun r => value_eqb (key r) k) base)).

End Frame.

(** ** The notebook's cells *)

Module Notebook.
Import Num Frame.

(** The parameters of a fitted model ([prodSim.params], [attrSim.params]):
    name and value of each coefficient, in the order of the columns of the
    design matrix. *)
Abbreviation Params := (list (string * R)).

Fixpoint lookup (name : string) (p : Params) : option R :=
  match p with
  | [] => None
  | (k, v) :: t => if String.eqb k name then Some v else lookup name t
  end.

(** The formula interface names the indicator column of level [l] of a
    categorical predictor [f] of a model without intercept [f[l]]. *)
Definition dummy (f l : string) : string := (f ++ "[" ++ l ++ "]")%string.

(** The linear predictor of a row under the formula
    [Total ~ f + x1 + x2 - 1]: the coefficient of the row's level of [f]
    plus the two slopes times the row's [x1] and [x2]. *)
Definition linear_predictor (f x1 x2 : string) (p : Params) (r : row)
  : option R :=
  k <- get f r ;;
  u <- get x1 r ;;
  w <- get x2 r ;;
  match k, u, w with
  | VStr l, VNum u, VNum w =>
      c0 <- lookup (dummy f l) p ;;
      c1 <- lookup x1 p ;;
      c2 <- lookup x2 p ;;
      Some (c0 + c1 * u + c2 * w)
  | _, _, _ => None
  end.

(** The fitted mean of a row: the exponential of its linear predictor
    (Poisson family, log link). *)
Definition predict_mean (f x1 x2 : string) (p : Params) (r : row)
  : option value :=
  option_map (fun eta => VNum (exp eta)) (linear_predictor f x1 x2 p r).

(** Cell 14: the margins [O_i] and [D_j] as new columns. *)
Definition cell14 (cdatasub : DataFrame) : option DataFrame :=
  O_i <- groupby_sum "OrigCodeNew" "Total" cdatasub ;;
  cdatasub <- merge_left cdatasub "OrigCodeNew" O_i "O_i" ;;
  D_j <- groupby_sum "DestCodeNew" "Total" cdatasub ;;
  merge_left cdatasub "DestCodeNew" D_j "D_j".

(** [s.str.replace(pat, "")] for a pattern that matches one fixed text:
    every occurrence of [pat], found from left to right, is left out.
    [skip] counts the characters of a found occurrence still to drop. *)
Fixpoint remove_from (pat : string) (skip : nat) (s : string) : string :=
  match s with
  | EmptyString => EmptyString
  | String c s' =>
      match skip with
      | S k => remove_from pat k s'
      | O =>
          if String.prefix pat s
          then remove_from pat (String.length pat - 1) s'
          else String c (remove_from pat 0 s')
      end
  end.

Definition str_replace_empty (pat s : string) : string := remove_from pat 0 s.

(** The patterns of cell 16 are regular expressions (the default of
    [str.replace] in the pandas of this notebook): a group around a plain
    text and two escaped brackets.  Each matches one fixed text, obtained by
    leaving out the group parentheses and the escaping backslashes. *)
Fixpoint pattern_text (pat : string) : string :=
  match pat with
  | EmptyString => EmptyString
  | String c rest =>
      if Ascii.eqb c "\" then
        match rest with
        | EmptyString => EmptyString
        | String c' rest' => String c' (pattern_text rest')
        end
      else if Ascii.eqb c "(" || Ascii.eqb c ")" then pattern_text rest
      else String c (pattern_text rest)
  end.

Definition to_repl : list string := ["(OrigCodeNew)"; "\["; "\]"].

(** [for x in to_repl: coefs["coef"] = coefs["coef"].str.replace(x, "")] *)
Definition strip_coef (name : string) : string :=
  fold_left (fun s x => str_replace_empty (pattern_text x) s) to_repl name.

(** Cell 16: the coefficient of each row's origin as column [alpha_i].
    The merge keeps the right key column [coef], which is then dropped;
    with a column [coef] in the table already, the merge renames both and
    the drop raises [KeyError]. *)
Definition cell16 (prodSim : Params) (cdatasub : DataFrame) : option DataFrame :=
  let coefs := map (fun p => (VStr (strip_coef (fst p)), VNum (snd p))) prodSim in
  if existsb (has "coef") cdatasub then None
  else merge_left cdatasub "OrigCodeNew" coefs "alpha_i".

(** Cell 18: [alpha_i = params[0:7]; gamma = params[7];
    beta = -params[8]]. *)
Definition cell18 (prodSim : Params) : option (Params * R * R) :=
  let alpha_i := firstn 7 prodSim in
  gamma <- nth_error (map snd prodSim) 7 ;;
  b <- nth_error (map snd prodSim) 8 ;;
  let beta := - b in
  Some (alpha_i, gamma, beta).

(** [np.exp(alpha + gamma * logD - beta * logd)] on three columns. *)
Definition exp_model (gamma beta : R) (alpha logD logd : Column)
  : option Column :=
  g <- map1 (fun x => VNum (gamma * x)) logD ;;
  b <- map1 (fun x => VNum (beta * x)) logd ;;
  s <- map2 fadd alpha g ;;
  e <- map2 fsub s b ;;
  map1 fexp e.

(** [df[c] = round(df[c], 0)] *)
Definition round_column (c : string) (df : DataFrame) : option DataFrame :=
  s <- column c df ;;
  r <- map1 fround s ;;
  Some (set_column c r df).

(** Cell 22: the estimates of the fitted model. *)
Definition cell22 (gamma beta : R) (cdatasub : DataFrame) : option DataFrame :=
  alpha <- column "alpha_i" cdatasub ;;
  logD <- column "log_Dj2_destsal" cdatasub ;;
  logd <- column "log_Dist" cdatasub ;;
  est <- exp_model gamma beta alpha logD logd ;;
  Some (set_column "prodsimest1" est cdatasub).

(** Cell 24: the estimates rounded (the pivot table is only displayed). *)
Definition cell24 (cdatasub : DataFrame) : option DataFrame :=
  round_column "prodsimest1" cdatasub.

(** Cell 32: the scenario salary of a row. *)
Definition new_sal (row : row) : option value :=
  d <- get "DestCodeNew" row ;;
  if value_eqb d (VStr "E09000002") then
    let val := VNum 25000 in Some val
  else
    val <- get "Dj2_destsal" row ;; Some val.

Definition cell32 (cdatasub : DataFrame) : option DataFrame :=
  s <- mapM new_sal cdatasub ;;
  Some (set_column "Dj3_destsalScenario" s cdatasub).

(** Cell 34: the fitted model on the scenario salaries. *)
Definition cell34 (gamma beta : R) (cdatasub : DataFrame) : option DataFrame :=
  alpha <- column "alpha_i" cdatasub ;;
  sal <- column "Dj3_destsalScenario" cdatasub ;;
  logd <- column "log_Dist" cdatasub ;;
  logsal <- map1 flog sal ;;
  est <- exp_model gamma beta alpha logsal logd ;;
  round_column "prodsimest2" (set_column "prodsimest2" est cdatasub).

(** [A_i["Ai1"] = 1 / A_i["Ai1"]] on the grouped sums. *)
Definition reciprocals (g : list (value * value)) : option (list (value * value)) :=
  mapM (fun kv => v <- num1 (fun x => fdiv 1 x) (snd kv) ;; Some (fst kv, v)) g.

(** The balancing factors of cells 36 and 40: first stage [Ai1], its sum
    per origin, the reciprocal, merged back as column [name]. *)
Definition balancing (name : string) (attraction dist_beta : Column)
  (cdatasub : DataFrame) : option DataFrame :=
  Ai1 <- map2 fmul attraction dist_beta ;;
  let cdatasub := set_column "Ai1" Ai1 cdatasub in
  A_i <- groupby_sum "OrigCodeNew" "Ai1" cdatasub ;;
  A_i <- reciprocals A_i ;;
  merge_left cdatasub "OrigCodeNew" A_i name.

(** Cell 36: [Dj2_gamma = Dj2_destsal ** gamma],
    [dist_beta = Dist ** beta], then the factors [A_i].  The two Series
    stay in use in the later cells. *)
Definition cell36 (gamma beta : R) (cdatasub : DataFrame)
  : option (DataFrame * Column * Column) :=
  sal <- column "Dj2_destsal" cdatasub ;;
  Dj2_gamma <- map1 (fun x => fpow x gamma) sal ;;
  dist <- column "Dist" cdatasub ;;
  dist_beta <- map1 (fun x => fpow x beta) dist ;;
  cdatasub <- balancing "A_i" Dj2_gamma dist_beta cdatasub ;;
  Some (cdatasub, Dj2_gamma, dist_beta).

(** [df[c] = round(df[a] * df["O_i"] * attraction * dist_beta)] *)
Definition constrained_estimate (c a : string) (attraction dist_beta : Column)
  (cdatasub : DataFrame) : option DataFrame :=
  A <- column a cdatasub ;;
  O <- column "O_i" cdatasub ;;
  p <- map2 fmul A O ;;
  p <- map2 fmul p attraction ;;
  p <- map2 fmul p dist_beta ;;
  round_column c (set_column c p cdatasub).

(** Cell 38: the estimates recomputed from the balancing factors. *)
Definition cell38 (Dj2_gamma dist_beta : Column) (cdatasub : DataFrame)
  : option DataFrame :=
  constrained_estimate "prodsimest3" "A_i" Dj2_gamma dist_beta cdatasub.

(** Cell 40: the factors [A_i2] of the scenario. *)
Definition cell40 (gamma : R) (dist_beta : Column) (cdatasub : DataFrame)
  : option (DataFrame * Column) :=
  sal <- column "Dj3_destsalScenario" cdatasub ;;
  Dj3_gamma <- map1 (fun x => fpow x gamma) sal ;;
  cdatasub <- balancing "A_i2" Dj3_gamma dist_beta cdatasub ;;
  Some (cdatasub, Dj3_gamma).

(** Cell 42: the scenario estimates. *)
Definition cell42 (Dj3_gamma dist_beta : Column) (cdatasub : DataFrame)
  : option DataFrame :=
  constrained_estimate "prodsimest4" "A_i2" Dj3_gamma dist_beta cdatasub.

(** Cell 48: the rounded fitted means of the attraction-constrained
    model on the table's own rows. *)
Definition cell48 (attrSim : Params) (cdatasub : DataFrame) : option DataFrame :=
  mean <- mapM (predict_mean "DestCodeNew" "log_Oi1_origpop" "log_Dist" attrSim)
               cdatasub ;;
  fitted <- map1 fround mean ;;
  Some (set_column "attrsimFitted" fitted cdatasub).

(** The cells that change the table, in the notebook's order, for the
    parameters of the two fitted models. *)
Definition notebook (prodSim attrSim : Params) (cdatasub : DataFrame)
  : option DataFrame :=
  cdatasub <- cell14 cdatasub ;;
  cdatasub <- cell16 prodSim cdatasub ;;
  v <- cell18 prodSim ;;
  let '(_, gamma, beta) := v in
  cdatasub <- cell22 gamma beta cdatasub ;;
  cdatasub <- cell24 cdatasub ;;
  cdatasub <- cell32 cdatasub ;;
  cdatasub <- cell34 gamma beta cdatasub ;;
  s <- cell36 gamma beta cdatasub ;;
  let '(cdatasub, Dj2_gamma, dist_beta) := s in
  cdatasub <- cell38 Dj2_gamma dist_beta cdatasub ;;
  s <- cell40 gamma dist_beta cdatasub ;;
  let '(cdatasub, Dj3_gamma) := s in
  cdatasub <- cell42 Dj3_gamma dist_beta cdatasub ;;
  cell48 attrSim cdatasub.

(** *** Quantities the statements are about *)

(** The rows whose column [c] holds [v]. *)
Definition holds (c : string) (v : value) (r : row) : bool :=
  match get c r with
  | Some k => value_eqb k v
  | None => false
  end.

Definition rows_where (c : string) (v : value) (df : DataFrame) : DataFrame :=
  filter (holds c v) df.

(** The number in column [c] of a row (0 when there is none). *)
Definition number (c : string) (r : row) : R :=
  match get c r with
  | Some (VNum x) => x
  | _ => 0
  end.

(** The sum of column [c] over the rows of a table. *)
Definition total (c : string) (df : DataFrame) : R := sum (map (number c) df).

(** The Poisson log-likelihood of the table's [Total] under the
    parameters [q], up to the term that does not depend on [q]:
    sum over the rows of Total * eta - exp eta. *)
Definition loglik (f x1 x2 : string) (df : DataFrame) (q : Params) : option R :=
  terms <- mapM (fun r =>
                   eta <- linear_predictor f x1 x2 q r ;;
                   match get "Total" r with
                   | Some (VNum y) => Some (y * eta - exp eta)
                   | _ => None
                   end) df ;;
  Some (sum terms).

(** What [smf.glm(formula, data, family=Poisson()).fit()] is assumed to
    deliver: parameters that maximise the likelihood among all parameter
    vectors of the same design. *)
Definition poisson_mle (f x1 x2 : string) (df : DataFrame) (p : Params) : Prop :=
  exists l, loglik f x1 x2 df p = Some l /\
            forall q l', map fst q = map fst p ->
                         loglik f x1 x2 df q = Some l' -> l' <= l.

(** The parameters [q] with the coefficient named [n] set to [a]. *)
Definition set_coef (n : string) (a : R) (q : Params) : Params :=
  map (fun kv => if String.eqb (fst kv) n then (fst kv, a) else kv) q.

(** The linear predictor of a row as a number (0 where it has none). *)
Definition eta (f x1 x2 : string) (p : Params) (r : row) : R :=
  match linear_predictor f x1 x2 p r with
  | Some e => e
  | None => 0
  end.

(** The design of [Total ~ f + x1 + x2 - 1]: one indicator per level of
    [f], then the two predictors. *)
Definition design_names (f x1 x2 : string) (levels : list string) : list string :=
  map (dummy f) levels ++ [x1; x2].

(** *** Well-formed input and the table the notebook ends with *)

(** The text in column [c] of a row (empty when there is none). *)
Definition text (c : string) (r : row) : string :=
  match get c r with
  | Some (VStr s) => s
  | _ => ""
  end.

Definition is_text (c : string) (r : row) : bool :=
  match get c r with
  | Some (VStr _) => true
  | _ => false
  end.

Definition is_number (c : string) (r : row) : bool :=
  match get c r with
  | Some (VNum _) => true
  | _ => false
  end.

(** The columns the cells create (with the transient [coef]). *)
Definition derived_columns : list string :=
  ["O_i"; "D_j"; "coef"; "alpha_i"; "prodsimest1"; "Dj3_destsalScenario";
   "prodsimest2"; "Ai1"; "A_i"; "prodsimest3"; "A_i2"; "prodsimest4";
   "attrsimFitted"].

(** A row of the input file as the notebook uses it: the two zone codes
    are text, the flow and the predictors are numbers, and none of the
    derived columns exists yet. *)
Definition flow_row (r : row) : bool :=
  is_text "OrigCodeNew" r && is_text "DestCodeNew" r &&
  is_number "Total" r && is_number "Dj2_destsal" r && is_number "Dist" r &&
  is_number "log_Dj2_destsal" r && is_number "log_Dist" r &&
  is_number "log_Oi1_origpop" r &&
  forallb (fun c => negb (has c r)) derived_columns.

Definition flow_table (df : DataFrame) : Prop :=
  Forall (fun r => flow_row r = true /\
                   0 < number "Dj2_destsal" r /\ 0 < number "Dist" r) df.

(** The parameters of the production-constrained fit belong to the
    design of the table: seven origin levels, whose codes the three
    replacements of cell 16 recover from the coefficient names, and the two
    slopes. *)
Definition prodSim_design (levels : list string) (df : DataFrame) (p : Params)
  : Prop :=
  map fst p = design_names "OrigCodeNew" "log_Dj2_destsal" "log_Dist" levels /\
  length levels = 7%nat /\
  NoDup levels /\
  Forall (fun l => strip_coef (dummy "OrigCodeNew" l) = l /\
                   l <> "log_Dj2_destsal" /\ l <> "log_Dist") levels /\
  Forall (fun r => In (text "OrigCodeNew" r) levels) df.

(** The parameters of the attraction-constrained fit cover the
    destinations of the table and the two slopes. *)
Definition attrSim_design (df : DataFrame) (a : Params) : Prop :=
  lookup "log_Oi1_origpop" a <> None /\
  lookup "log_Dist" a <> None /\
  Forall (fun r => lookup (dummy "DestCodeNew" (text "DestCodeNew" r)) a
                   <> None) df.

Definition coef (name : string) (p : Params) : R :=
  match lookup name p with
  | Some v => v
  | None => 0
  end.

Section Expected.
Variables prodSim attrSim : Params.
Variable df : DataFrame.

Definition gamma_of : R := coef "log_Dj2_destsal" prodSim.
Definition beta_of : R := - coef "log_Dist" prodSim.

Definition same_origin (r : row) : DataFrame :=
  rows_where "OrigCodeNew" (VStr (text "OrigCodeNew" r)) df.

Definition same_destination (r : row) : DataFrame :=
  rows_where "DestCodeNew" (VStr (text "DestCodeNew" r)) df.

Definition O_i_of (r : row) : R := total "Total" (same_origin r).
Definition D_j_of (r : row) : R := total "Total" (same_destination r).

Definition alpha_of (r : row) : R :=
  coef (dummy "OrigCodeNew" (text "OrigCodeNew" r)) prodSim.

(** The unrounded estimate of cell 22. *)
Definition lambda_of (r : row) : R :=
  exp (alpha_of r + gamma_of * number "log_Dj2_destsal" r
       - beta_of * number "log_Dist" r).

Definition scenario_salary (r : row) : R :=
  if String.eqb (text "DestCodeNew" r) "E09000002" then 25000
  else number "Dj2_destsal" r.

(** The first stage of cells 36 and 40 as the code computes it, for the
    salaries [sal]: the distance is raised to [beta] itself. *)
Definition Ai1_of (sal : row -> R) (r : row) : R :=
  Rpower (sal r) gamma_of * Rpower (number "Dist" r) beta_of.

Definition A_of (sal : row -> R) (r : row) : R :=
  1 / sum (map (Ai1_of sal) (same_origin r)).

Definition balanced_of (sal : row -> R) (r : row) : R :=
  A_of sal r * O_i_of r * Rpower (sal r) gamma_of
  * Rpower (number "Dist" r) beta_of.

(** The Series [sal ** gamma] and [Dist ** beta] of cells 36 and 40 on a
    table with positive salaries and distances. *)
Definition attraction_column (sal : row -> R) : Column :=
  map (fun r => VNum (Rpower (sal r) gamma_of)) df.

Definition dist_beta_column : Column :=
  map (fun r => VNum (Rpower (number "Dist" r) beta_of)) df.

(** The unrounded fitted mean of cell 48. *)
Definition mu_of (r : row) : R :=
  exp (coef (dummy "DestCodeNew" (text "DestCodeNew" r)) attrSim
       + coef "log_Oi1_origpop" attrSim * number "log_Oi1_origpop" r
       + coef "log_Dist" attrSim * number "log_Dist" r).

(** The columns a row has gained when the notebook has run. *)
Definition derived (r : row) : row :=
  [("O_i", VNum (O_i_of r));
   ("D_j", VNum (D_j_of r));
   ("alpha_i", VNum (alpha_of r));
   ("prodsimest1", VNum (rint (lambda_of r)));
   ("Dj3_destsalScenario", VNum (scenario_salary r));
   ("prodsimest2",
    VNum (rint (exp (alpha_of r + gamma_of * ln (scenario_salary r)
                     - beta_of * number "log_Dist" r))));
   ("Ai1", VNum (Ai1_of scenario_salary r));
   ("A_i", VNum (A_of (number "Dj2_destsal") r));
   ("prodsimest3", VNum (rint (balanced_of (number "Dj2_destsal") r)));
   ("A_i2", VNum (A_of scenario_salary r));
   ("prodsimest4", VNum (rint (balanced_of scenario_salary r)));
   ("attrsimFitted", VNum (rint (mu_of r)))].

End Expected.

(** The frame property of a table [df'] derived from [df]: the same rows
    in the same order, each with columns added after its own, so that every
    cell of [df] is still there with its value. *)
Definition keeps (df df' : DataFrame) : Prop :=
  Forall2 (fun r r' : row =>
             (exists added : row, r' = r ++ added) /\
             (forall c v, get c r = Some v -> get c r' = Some v)) df df'.

(** Equation (3) of the notebook for the rows of one origin:
    A_i = 1 / sum_j D_j^gamma d_ij^(-beta). *)
Definition A_i_equation (gamma beta : R) (rows : DataFrame) : R :=
  1 / sum (map (fun r => Rpower (number "Dj2_destsal" r) gamma
                         * Rpower (number "Dist" r) (- beta)) rows).

(** Equation (1): T_ij = A_i O_i D_j^gamma d_ij^(-beta). *)
Definition T_ij_equation (gamma beta A O : R) (r : row) : R :=
  A * O * Rpower (number "Dj2_destsal" r) gamma
  * Rpower (number "Dist" r) (- beta).

End Notebook.

(** ** A small flow table *)

Module Sample.
Import Frame Notebook.

Definition flow (orig dest : string) (total sal dist logpop logsal logdist : R)
  : row :=
  [("OrigCodeNew", VStr orig); ("DestCodeNew", VStr dest);
   ("Total", VNum total); ("Dj2_destsal", VNum sal); ("Dist", VNum dist);
   ("log_Oi1_origpop", VNum logpop); ("log_Dj2_destsal", VNum logsal);
   ("log_Dist", VNum logdist)].

(** Seven origins.  The first sends 2, 4 and 1 commuters to three
    destinations with salaries 1, 2, 1 at distances 1, 1, 2; each of the
    others sends one commuter to the first destination.  The logarithm
    columns hold the logarithms of the salary, distance and origin size
    (2 for the first origin, 1 for the others). *)
Definition cdatasub : DataFrame :=
  [flow "E09000001" "E09000002" 2 1 1 (ln 2) 0 0;
   flow "E09000001" "E09000003" 4 2 1 (ln 2) (ln 2) 0;
   flow "E09000001" "E09000004" 1 1 2 (ln 2) 0 (ln 2);
   flow "E09000002" "E09000002" 1 1 1 0 0 0;
   flow "E09000003" "E09000002" 1 1 1 0 0 0;
   flow "E09000004" "E09000002" 1 1 1 0 0 0;
   flow "E09000005" "E09000002" 1 1 1 0 0 0;
   flow "E09000006" "E09000002" 1 1 1 0 0 0;
   flow "E09000007" "E09000002" 1 1 1 0 0 0].

Definition levels : list string :=
  ["E09000001"; "E09000002"; "E09000003"; "E09000004"; "E09000005";
   "E09000006"; "E09000007"].

(** Parameters of the two models on this table that reproduce every flow
    exactly, and so maximise the likelihood. *)
Definition prodSim : Params :=
  [("OrigCodeNew[E09000001]", ln 2); ("OrigCodeNew[E09000002]", 0);
   ("OrigCodeNew[E09000003]", 0); ("OrigCodeNew[E09000004]", 0);
   ("OrigCodeNew[E09000005]", 0); ("OrigCodeNew[E09000006]", 0);
   ("OrigCodeNew[E09000007]", 0);
   ("log_Dj2_destsal", 1); ("log_Dist", -1)].

Definition attrSim : Params :=
  [("DestCodeNew[E09000002]", 0); ("DestCodeNew[E09000003]", ln 2);
   ("DestCodeNew[E09000004]", 0);
   ("log_Oi1_origpop", 1); ("log_Dist", -1)].

(** The three rows of the first origin, and the first of them. *)
Definition first_origin : DataFrame := firstn 3 cdatasub.

Definition first_row : row := flow "E09000001" "E09000002" 2 1 1 (ln 2) 0 0.

Definition second_row : row :=
  flow "E09000001" "E09000003" 4 2 1 (ln 2) (ln 2) 0.

End Sample.

(* ================================================================== *)
(** * Part II: properties *)
(* ================================================================== *)

(** ** Rounding *)

Module NumFacts.
Import Num.

Lemma round_half_even_error (x : R) :
  Rabs (IZR (round_half_even x) - x) <= 1 / 2.
Proof.
  unfold round_half_even.
  pose proof (Zfloor_bound x) as [Hlo Hhi].
  destruct (Rlt_dec (x - IZR (Zfloor x)) (1 / 2)) as [H1 | H1].
  - apply Rabs_le. lra.
  - destruct (Rlt_dec (1 / 2) (x - IZR (Zfloor x))) as [H2 | H2].
    + rewrite plus_IZR. apply Rabs_le. simpl. lra.
    + destruct (Z.even (Zfloor x)).
      * apply Rabs_le. lra.
      * rewrite plus_IZR. apply Rabs_le. simpl. lra.
Qed.

Lemma rint_error (x : R) : Rabs (rint x - x) <= 1 / 2.
Proof. apply round_half_even_error. Qed.

(** A value strictly within a half of an integer rounds to it. *)
Lemma round_half_even_near (x : R) (z : Z) :
  Rabs (x - IZR z) < 1 / 2 -> round_half_even x = z.
Proof.
  intros H. apply Rabs_def2 in H. destruct H as [Hu Hl].
  unfold round_half_even.
  destruct (Rle_lt_dec (IZR z) x) as [Hge | Hlt].
  - assert (Hf : Zfloor x = z) by (apply Zfloor_eq; lra).
    rewrite Hf.
    destruct (Rlt_dec (x - IZR z) (1 / 2)); [reflexivity | lra].
  - assert (Hf : Zfloor x = (z - 1)%Z).
    { apply Zfloor_eq. rewrite minus_IZR. simpl. lra. }
    rewrite Hf. rewrite minus_IZR. simpl (IZR 1).
    destruct (Rlt_dec (x - (IZR z - 1)) (1 / 2)); [lra |].
    destruct (Rlt_dec (1 / 2) (x - (IZR z - 1))); [lia | lra].
Qed.

Lemma rint_near (x : R) (z : Z) : Rabs (x - IZR z) < 1 / 2 -> rint x = IZR z.
Proof. intros H. unfold rint. now rewrite (round_half_even_near x z H). Qed.

Lemma pow10_pos (n : nat) : 0 < 10 ^ n.
Proof. apply pow_lt. lra. Qed.

Lemma round_digits_error (n : nat) (x : R) :
  Rabs (round_digits n x - x) <= / (2 * 10 ^ n).
Proof.
  unfold round_digits.
  pose proof (pow10_pos n) as Hp.
  pose proof (rint_error (x * 10 ^ n)) as He.
  replace (rint (x * 10 ^ n) / 10 ^ n - x)
    with ((rint (x * 10 ^ n) - x * 10 ^ n) * / 10 ^ n) by (field; lra).
  rewrite Rabs_mult, (Rabs_pos_eq (/ 10 ^ n)).
  2:{ left. now apply Rinv_0_lt_compat. }
  rewrite Rinv_mult.
  apply Rmult_le_compat_r with (r := / 10 ^ n) in He.
  - lra.
  - left. now apply Rinv_0_lt_compat.
Qed.

Lemma sum_rint_error (l : list R) :
  Rabs (sum (map rint l) - sum l) <= INR (length l) / 2.
Proof.
  induction l as [| a l IH].
  - simpl. rewrite Rminus_diag, Rabs_R0. lra.
  - change (length (a :: l)) with (S (length l)). rewrite S_INR. simpl.
    replace (rint a + sum (map rint l) - (a + sum l))
      with ((rint a - a) + (sum (map rint l) - sum l)) by ring.
    eapply Rle_trans; [apply Rabs_triang |].
    pose proof (rint_error a). lra.
Qed.

Lemma Reqb_true (x y : R) : Reqb x y = true <-> x = y.
Proof.
  unfold Reqb. destruct (Req_dec_T x y); split; intros; try easy.
Qed.

End NumFacts.

(** ** The metric helpers *)

Module MetricsFacts.
Import Num NumFacts Metrics.

Lemma squared_residuals_length (o e : Series) :
  length o = length e -> length (squared_residuals o e) = length o.
Proof.
  revert e. induction o as [| a o IH]; intros [| b e] H; simpl in *;
    try discriminate; auto.
Qed.

Lemma sum_squared_residuals (o e : Series) :
  length o = length e ->
  sum (squared_residuals o e) = sum (map (nth_diff_sq o e) (seq 0 (length o))).
Proof.
  revert e. induction o as [| a o IH]; intros [| b e] H; simpl in *;
    try discriminate; auto.
  rewrite IH by lia. rewrite <- seq_shift, map_map.
  unfold nth_diff_sq at 2. simpl. f_equal. ring.
Qed.

Lemma mean_squared_residuals (o e : Series) :
  length o = length e ->
  mean (squared_residuals o e)
  = / INR (length o) * sum (map (nth_diff_sq o e) (seq 0 (length o))).
Proof.
  intros H. unfold mean.
  rewrite squared_residuals_length, sum_squared_residuals by assumption.
  unfold Rdiv. ring.
Qed.

Lemma CalcRMSE_value (o e : Series) :
  length o = length e -> o <> [] ->
  CalcRMSE o e = Value (round_digits 3 (rmse o e)).
Proof.
  intros H Hne. unfold CalcRMSE, rmse.
  rewrite <- mean_squared_residuals by assumption.
  destruct o as [| a o]; [contradiction |].
  destruct e as [| b e]; [discriminate |]. reflexivity.
Qed.

(** Bracketing a square root by comparing squares. *)
Lemma sqrt_between (a b x : R) :
  0 <= a -> 0 <= b -> a * a < x < b * b -> a < sqrt x < b.
Proof.
  intros Ha Hb [H1 H2].
  assert (Hx : 0 <= x) by nra.
  pose proof (sqrt_pos x) as Hs. pose proof (sqrt_def x Hx) as Hd.
  split; nra.
Qed.

Lemma rmse_unit_miss : rmse [1; 0] [0; 0] = sqrt (1 / 2).
Proof. unfold rmse, nth_diff_sq. simpl. f_equal. lra. Qed.

Lemma CalcRMSE_unit_miss : CalcRMSE [1; 0] [0; 0] = Value (707 / 1000).
Proof.
  rewrite CalcRMSE_value by (simpl; congruence). rewrite rmse_unit_miss.
  unfold round_digits. f_equal.
  rewrite (rint_near _ 707); [simpl; lra |].
  destruct (sqrt_between (7065 / 10000) (7075 / 10000) (1 / 2)) as [H1 H2];
    try lra.
  apply Rabs_def1; simpl; lra.
Qed.

Lemma sqrt_half_not_707 : sqrt (1 / 2) <> 707 / 1000.
Proof.
  intros H. pose proof (sqrt_def (1 / 2)) as Hd. rewrite H in Hd. lra.
Qed.

Lemma rmse_single (a : R) : 0 <= a -> rmse [a] [0] = a.
Proof.
  intros Ha. unfold rmse, nth_diff_sq. simpl.
  replace (/ 1 * ((a - 0) * (a - 0) + 0)) with (a * a) by field.
  now apply sqrt_square.
Qed.

Lemma CalcRMSE_single_707 : CalcRMSE [707 / 1000] [0] = Value (707 / 1000).
Proof.
  rewrite CalcRMSE_value by (simpl; congruence).
  rewrite rmse_single by lra.
  unfold round_digits. f_equal.
  rewrite (rint_near _ 707); [simpl; lra |].
  apply Rabs_def1; simpl; lra.
Qed.

Lemma sum_all_equal (a : R) (l : list R) :
  Forall (fun b => b = a) l -> sum l = INR (length l) * a.
Proof.
  induction 1 as [| b l Hb _ IH].
  - simpl. ring.
  - change (length (b :: l)) with (S (length l)). rewrite S_INR. simpl. lra.
Qed.

Lemma constant_input_all_equal (a : R) (t : Series) :
  constant_input (a :: t) = true -> Forall (fun b => b = a) (a :: t).
Proof.
  simpl. intros H. constructor; [reflexivity |].
  rewrite forallb_forall in H. apply Forall_forall. intros b Hb.
  apply Reqb_true. now apply H.
Qed.

Lemma INR_length_pos {A : Type} (l : list A) : l <> [] -> 0 < INR (length l).
Proof.
  destruct l; [contradiction |]. intros _. apply lt_0_INR. simpl. lia.
Qed.

Lemma mean_all_equal (a : R) (l : list R) :
  l <> [] -> Forall (fun b => b = a) l -> mean l = a.
Proof.
  intros Hne H. unfold mean. rewrite (sum_all_equal a l H).
  pose proof (INR_length_pos l Hne). field. lra.
Qed.

Lemma sum_centered_products (mx my : R) (x y : Series) :
  sum (map (fun p => (fst p - mx) * (snd p - my)) (combine x y))
  = dot (map (fun a => a - mx) x) (map (fun b => b - my) y).
Proof.
  revert y. induction x as [| a x IH]; intros [| b y]; simpl; auto.
  now rewrite IH.
Qed.

Lemma covariance_dot (x y : Series) :
  length x = length y ->
  covariance x y = dot (center x) (center y) / INR (length x).
Proof.
  intros H. unfold covariance, center. unfold mean at 1.
  rewrite sum_centered_products, length_map, length_combine.
  now rewrite Nat.min_l by lia.
Qed.

Lemma dot_comm (x y : Series) : dot x y = dot y x.
Proof.
  revert y. induction x as [| a x IH]; intros [| b y]; simpl; auto.
  rewrite IH. ring.
Qed.

Lemma dot_self_nonneg (x : Series) : 0 <= dot x x.
Proof. induction x as [| a x IH]; simpl; nra. Qed.

Lemma dot_self_all_zero (x : Series) : Forall (fun a => a = 0) x -> dot x x = 0.
Proof. induction 1 as [| a l Ha _ IH]; simpl; nra. Qed.

(** A constant series has no variance, so a series with variance passes
    the library's constant-input test. *)
Lemma variance_constant (x : Series) : constant_input x = true -> variance x = 0.
Proof.
  intros H. unfold variance. rewrite covariance_dot by reflexivity.
  destruct x as [| a t]; [simpl; unfold Rdiv; ring |].
  pose proof (constant_input_all_equal a t H) as Hall.
  assert (Hm : mean (a :: t) = a) by (apply mean_all_equal; congruence).
  rewrite dot_self_all_zero; [unfold Rdiv; ring |].
  unfold center. rewrite Hm. apply Forall_map.
  eapply Forall_impl; [| exact Hall]. simpl. intros b ->. ring.
Qed.

Lemma variance_pos_dot (x : Series) :
  variance x <> 0 -> 0 < dot (center x) (center x).
Proof.
  intros H. unfold variance in H. rewrite covariance_dot in H by reflexivity.
  pose proof (dot_self_nonneg (center x)) as Hn.
  destruct (Req_dec (dot (center x) (center x)) 0) as [E | E]; [| lra].
  exfalso. apply H. rewrite E. unfold Rdiv. ring.
Qed.

Lemma pearsonr_value (pv : nat -> R -> R) (x y : Series) :
  length x = length y -> (2 <= length x)%nat ->
  variance x <> 0 -> variance y <> 0 ->
  pearsonr pv x y
  = Value (pearson_correlation x y, pv (length x) (pearson_correlation x y)).
Proof.
  intros Hlen Hn Hx Hy. unfold pearsonr.
  rewrite <- Hlen, Nat.eqb_refl. simpl negb. cbv iota.
  destruct (Nat.ltb_spec (length x) 2) as [Hlt | _]; [lia |].
  destruct (constant_input x) eqn:Ex.
  { exfalso. now apply Hx, variance_constant. }
  destruct (constant_input y) eqn:Ey.
  { exfalso. now apply Hy, variance_constant. }
  simpl orb. cbv iota zeta.
  assert (Hr : dot (center x) (center y)
               / sqrt (dot (center x) (center x) * dot (center y) (center y))
               = pearson_correlation x y).
  { unfold pearson_correlation, std_dev, variance.
    rewrite !covariance_dot by (auto; congruence). rewrite <- Hlen.
    pose proof (variance_pos_dot x Hx) as Ha.
    pose proof (variance_pos_dot y Hy) as Hb.
    assert (Hpos : 0 < INR (length x)) by (apply lt_0_INR; lia).
    set (a := dot (center x) (center x)) in *.
    set (b := dot (center y) (center y)) in *.
    set (n := INR (length x)) in *.
    assert (Hsa : 0 < sqrt a) by now apply sqrt_lt_R0.
    assert (Hsb : 0 < sqrt b) by now apply sqrt_lt_R0.
    assert (Hsn : 0 < sqrt n) by now apply sqrt_lt_R0.
    rewrite sqrt_mult by lra.
    rewrite !sqrt_div by lra.
    pose proof (sqrt_def n (Rlt_le _ _ Hpos)) as Hd.
    field_simplify_eq; [| repeat split; lra].
    replace (sqrt n ^ 2) with n by nra. reflexivity. }
  now rewrite Hr.
Qed.

Lemma CalcRSquared_value (pv : nat -> R -> R) (x y : Series) :
  length x = length y -> (2 <= length x)%nat ->
  variance x <> 0 -> variance y <> 0 ->
  CalcRSquared pv x y = Value (pearson_correlation x y ^ 2).
Proof.
  intros. unfold CalcRSquared. now rewrite pearsonr_value.
Qed.

Lemma CalcRSquared_swap (pv : nat -> R -> R) (x y : Series) :
  CalcRSquared pv x y = CalcRSquared pv y x.
Proof.
  unfold CalcRSquared, pearsonr.
  rewrite (Nat.eqb_sym (length y) (length x)).
  destruct (Nat.eqb_spec (length x) (length y)) as [E | E]; simpl negb;
    cbv iota; [| reflexivity].
  rewrite <- E.
  destruct (length x <? 2)%nat; [reflexivity |].
  rewrite (orb_comm (constant_input y)).
  destruct (constant_input x || constant_input y); [reflexivity |].
  cbv zeta. rewrite (dot_comm (center y) (center x)).
  rewrite (Rmult_comm (dot (center y) (center y))). reflexivity.
Qed.

Lemma variance_01 : variance [0; 1] = 1 / 4.
Proof. unfold variance, covariance, mean. simpl. field. Qed.

Lemma variance_02 : variance [0; 2] = 1.
Proof. unfold variance, covariance, mean. simpl. field. Qed.

Lemma correlation_01_02 : pearson_correlation [0; 1] [0; 2] = 1.
Proof.
  unfold pearson_correlation, std_dev. rewrite variance_01, variance_02.
  rewrite sqrt_1.
  replace (1 / 4) with ((1 / 2) * (1 / 2)) by field.
  rewrite sqrt_square by lra.
  unfold covariance, mean. simpl. field.
Qed.

(** C5: for two series of the same length, at least 2, both with nonzero
    variance, [CalcRSquared] returns the square of Pearson's correlation
    coefficient cov(X,Y)/(sigma_X sigma_Y) of the two series. *)
Theorem CalcRSquared_is_squared_correlation
  (pv : nat -> R -> R) (observed estimated : Series) :
  length observed = length estimated ->
  (2 <= length observed)%nat ->
  variance observed <> 0 ->
  variance estimated <> 0 ->
  CalcRSquared pv observed estimated
  = Value (pearson_correlation observed estimated ^ 2).
Proof. intros. now apply CalcRSquared_value. Qed.

Lemma CalcRSquared_is_squared_correlation_witness :
  length [0; 1] = length [0; 2] /\ (2 <= length [0; 1])%nat /\
  variance [0; 1] <> 0 /\ variance [0; 2] <> 0 /\
  CalcRSquared (fun _ _ => 0) [0; 1] [0; 2]
  = Value (pearson_correlation [0; 1] [0; 2] ^ 2).
Proof.
  assert (H1 : variance [0; 1] <> 0) by (rewrite variance_01; lra).
  assert (H2 : variance [0; 2] <> 0) by (rewrite variance_02; lra).
  repeat split; try assumption; try (simpl; lia).
  apply (CalcRSquared_is_squared_correlation (fun _ _ => 0) [0; 1] [0; 2]);
    try assumption; simpl; lia.
Defined.

(** The value is the squared correlation and not 1 - SS_res/SS_tot: on
    observed (0, 1) and estimated (0, 2) the helper gives 1 while the
    residual form gives -1. *)
Lemma CalcRSquared_differs_from_residual_form (pv : nat -> R -> R) :
  CalcRSquared pv [0; 1] [0; 2] = Value 1 /\ r2_residual [0; 1] [0; 2] = -1.
Proof.
  split.
  - rewrite CalcRSquared_value; try (simpl; lia).
    + rewrite correlation_01_02. f_equal. ring.
    + rewrite variance_01; lra.
    + rewrite variance_02; lra.
  - unfold r2_residual, mean. simpl. field.
Qed.

(** C10: for two series of the same length, at least 2, both with nonzero
    variance, [CalcRSquared] gives the same number whichever series is
    passed first. *)
Theorem CalcRSquared_symmetric
  (pv : nat -> R -> R) (observed estimated : Series) :
  length observed = length estimated ->
  (2 <= length observed)%nat ->
  variance observed <> 0 ->
  variance estimated <> 0 ->
  CalcRSquared pv observed estimated = CalcRSquared pv estimated observed
  /\ exists v, CalcRSquared pv observed estimated = Value v.
Proof.
  intros. split.
  - apply CalcRSquared_swap.
  - eexists. now apply CalcRSquared_value.
Qed.

Lemma CalcRSquared_symmetric_witness :
  length [0; 1] = length [0; 2] /\ (2 <= length [0; 1])%nat /\
  variance [0; 1] <> 0 /\ variance [0; 2] <> 0 /\
  CalcRSquared (fun _ _ => 0) [0; 1] [0; 2]
  = CalcRSquared (fun _ _ => 0) [0; 2] [0; 1].
Proof.
  assert (H1 : variance [0; 1] <> 0) by (rewrite variance_01; lra).
  assert (H2 : variance [0; 2] <> 0) by (rewrite variance_02; lra).
  repeat split; try assumption; try (simpl; lia).
  apply (CalcRSquared_symmetric (fun _ _ => 0) [0; 1] [0; 2]);
    try assumption; simpl; lia.
Defined.

(** C6 as stated fails: on observed (1, 0) and estimated (0, 0) the root
    mean square error is sqrt(1/2), which is not 0.707, the value
    [CalcRMSE] returns. *)
Lemma CalcRMSE_not_exact_rmse :
  length [1; 0] = length [0; 0] /\ [1; 0] <> [] /\
  CalcRMSE [1; 0] [0; 0] = Value (707 / 1000) /\
  rmse [1; 0] [0; 0] = sqrt (1 / 2) /\
  CalcRMSE [1; 0] [0; 0] <> Value (rmse [1; 0] [0; 0]).
Proof.
  split; [reflexivity |]. split; [congruence |].
  split; [exact CalcRMSE_unit_miss |]. split; [exact rmse_unit_miss |].
  rewrite CalcRMSE_unit_miss, rmse_unit_miss. intros H.
  injection H as H. symmetry in H. exact (sqrt_half_not_707 H).
Qed.

(** C6, amended: for two non-empty series of the same length [CalcRMSE]
    returns the root mean square error sqrt(mean((observed-estimated)^2))
    rounded to three decimals. *)
Theorem CalcRMSE_is_rounded_rmse (observed estimated : Series) :
  length observed = length estimated -> observed <> [] ->
  CalcRMSE observed estimated = Value (round_digits 3 (rmse observed estimated)).
Proof. intros. now apply CalcRMSE_value. Qed.

Lemma CalcRMSE_is_rounded_rmse_witness :
  length [1; 0] = length [0; 0] /\ [1; 0] <> [] /\
  CalcRMSE [1; 0] [0; 0] = Value (round_digits 3 (rmse [1; 0] [0; 0])).
Proof.
  split; [reflexivity |]. split; [congruence |].
  apply (CalcRMSE_is_rounded_rmse [1; 0] [0; 0]); [reflexivity | congruence].
Defined.

(** C8: [CalcRMSE] returns a multiple of 0.001 within 0.0005 of the root
    mean square error; it can differ from the exact value; two inputs
    whose exact errors differ (by less than 0.001) can get the same result;
    and they do whenever both errors are nearest to the same multiple of
    0.001. *)
Theorem CalcRMSE_three_decimals :
  (forall observed estimated : Series,
      length observed = length estimated -> observed <> [] ->
      exists k : Z,
        CalcRMSE observed estimated = Value (IZR k / 1000) /\
        Rabs (IZR k / 1000 - rmse observed estimated) <= 1 / 2000)
  /\ (exists observed estimated : Series,
         length observed = length estimated /\ observed <> [] /\
         CalcRMSE observed estimated <> Value (rmse observed estimated))
  /\ (exists o1 e1 o2 e2 : Series,
         rmse o1 e1 <> rmse o2 e2 /\
         Rabs (rmse o1 e1 - rmse o2 e2) < 1 / 1000 /\
         CalcRMSE o1 e1 = CalcRMSE o2 e2)
  /\ (forall (o1 e1 o2 e2 : Series) (k : Z),
         length o1 = length e1 -> o1 <> [] ->
         length o2 = length e2 -> o2 <> [] ->
         Rabs (rmse o1 e1 * 1000 - IZR k) < 1 / 2 ->
         Rabs (rmse o2 e2 * 1000 - IZR k) < 1 / 2 ->
         CalcRMSE o1 e1 = CalcRMSE o2 e2).
Proof.
  split; [| split; [| split]].
  - intros o e Hlen Hne.
    exists (round_half_even (rmse o e * 10 ^ 3)).
    rewrite CalcRMSE_value by assumption.
    pose proof (round_digits_error 3 (rmse o e)) as He.
    unfold round_digits, rint in *.
    replace (10 ^ 3) with 1000 in * by (simpl; lra).
    split; [reflexivity |].
    replace (1 / 2000) with (/ (2 * 1000)) by field. exact He.
  - exists [1; 0], [0; 0]. split; [reflexivity |]. split; [congruence |].
    rewrite CalcRMSE_unit_miss, rmse_unit_miss. intros H.
    injection H as H. symmetry in H. exact (sqrt_half_not_707 H).
  - exists [1; 0], [0; 0], [707 / 1000], [0].
    rewrite rmse_unit_miss, (rmse_single (707 / 1000)) by lra.
    rewrite CalcRMSE_unit_miss, CalcRMSE_single_707.
    split; [exact sqrt_half_not_707 |]. split; [| reflexivity].
    destruct (sqrt_between (7065 / 10000) (7075 / 10000) (1 / 2)) as [H1 H2];
      try lra.
    apply Rabs_def1; lra.
  - intros o1 e1 o2 e2 k Hl1 Hn1 Hl2 Hn2 H1 H2.
    rewrite !CalcRMSE_value by assumption. unfold round_digits.
    replace (10 ^ 3) with 1000 by (simpl; lra).
    now rewrite (rint_near _ k H1), (rint_near _ k H2).
Qed.

Lemma CalcRMSE_three_decimals_witness :
  length [1; 0] = length [0; 0] /\ [1; 0] <> [] /\
  exists k : Z,
    CalcRMSE [1; 0] [0; 0] = Value (IZR k / 1000) /\
    Rabs (IZR k / 1000 - rmse [1; 0] [0; 0]) <= 1 / 2000.
Proof.
  split; [reflexivity |]. split; [congruence |].
  apply (proj1 CalcRMSE_three_decimals [1; 0] [0; 0]);
    [reflexivity | congruence].
Defined.

End MetricsFacts.

(** ** Rows, columns, grouping and merging *)

Module FrameFacts.
Import Num NumFacts Frame.

Lemma value_eqb_eq (a b : value) : value_eqb a b = true <-> a = b.
Proof.
  destruct a as [s | x |], b as [t | y |]; simpl; split; intros H;
    try discriminate; try reflexivity.
  - apply String.eqb_eq in H. now subst.
  - injection H as ->. apply String.eqb_refl.
  - apply Reqb_true in H. now subst.
  - injection H as ->. now apply Reqb_true.
Qed.

Lemma value_eqb_refl (a : value) : value_eqb a a = true.
Proof. now apply value_eqb_eq. Qed.

Lemma value_eqb_neq (a b : value) : value_eqb a b = false <-> a <> b.
Proof.
  split; intros H.
  - intros E. apply value_eqb_eq in E. congruence.
  - destruct (value_eqb a b) eqn:E; [| reflexivity].
    apply value_eqb_eq in E. contradiction.
Qed.

Lemma value_eqb_sym (a b : value) : value_eqb a b = value_eqb b a.
Proof.
  destruct (value_eqb b a) eqn:E.
  - apply value_eqb_eq in E. subst. apply value_eqb_refl.
  - apply value_eqb_neq in E. apply value_eqb_neq. congruence.
Qed.

(** *** [mapM] *)

Lemma mapM_map {A B : Type} (f : A -> option B) (g : A -> B) (l : list A) :
  (forall a, In a l -> f a = Some (g a)) -> mapM f l = Some (map g l).
Proof.
  induction l as [| a l IH]; intros H; simpl; [reflexivity |].
  rewrite (H a) by now left. simpl.
  rewrite IH by (intros; apply H; now right). reflexivity.
Qed.

(** *** Cells of a row *)

Lemma get_app_l (c : string) (r e : row) (v : value) :
  get c r = Some v -> get c (r ++ e) = Some v.
Proof.
  induction r as [| [k w] r IH]; simpl; [discriminate |].
  destruct (String.eqb k c); auto.
Qed.

Lemma get_app_r (c : string) (r e : row) :
  get c r = None -> get c (r ++ e) = get c e.
Proof.
  induction r as [| [k w] r IH]; simpl; [reflexivity |].
  destruct (String.eqb k c); [discriminate | auto].
Qed.

Lemma set_app_r (c : string) (v : value) (r e : row) :
  get c r = None -> set c v (r ++ e) = r ++ set c v e.
Proof.
  induction r as [| [k w] r IH]; simpl; [reflexivity |].
  destruct (String.eqb k c); [discriminate |].
  intros H. now rewrite IH.
Qed.

Lemma attach_app (c : string) (v : value) (r e : row) :
  get c r = None -> get c e = None ->
  attach c v (r ++ e) = r ++ e ++ [(c, v)].
Proof.
  intros Hr He. unfold attach, has.
  rewrite get_app_r, He by assumption. now rewrite <- app_assoc.
Qed.

Lemma attach_fresh (c : string) (v : value) (r : row) :
  get c r = None -> attach c v r = r ++ [(c, v)].
Proof. intros H. unfold attach, has. now rewrite H. Qed.

(** *** Columns of a table given row by row *)

Section Rowwise.
Variable base : DataFrame.

Lemma column_rows (c : string) (F : row -> row) (g : row -> value) :
  (forall r, In r base -> get c (F r) = Some (g r)) ->
  column c (map F base) = Some (map g base).
Proof.
  intros H. unfold column.
  induction base as [| r rest IH]; simpl; [reflexivity |].
  rewrite (H r) by now left. simpl.
  rewrite IH by (intros; apply H; now right). reflexivity.
Qed.

Lemma map1_rows (f : R -> value) (h : row -> R) :
  map1 f (map (fun r => VNum (h r)) base) = Some (map (fun r => f (h r)) base).
Proof.
  unfold map1. induction base as [| r rest IH]; simpl; [reflexivity |].
  now rewrite IH.
Qed.

Lemma map2_rows (f : R -> R -> value) (h1 h2 : row -> R) :
  map2 f (map (fun r => VNum (h1 r)) base) (map (fun r => VNum (h2 r)) base)
  = Some (map (fun r => f (h1 r) (h2 r)) base).
Proof.
  induction base as [| r rest IH]; simpl; [reflexivity |].
  now rewrite IH.
Qed.

Lemma set_column_rows (c : string) (g : row -> value) (F : row -> row) :
  set_column c (map g base) (map F base)
  = map (fun r => set c (g r) (F r)) base.
Proof.
  induction base as [| r rest IH]; simpl; [reflexivity |].
  now rewrite IH.
Qed.

Lemma mapM_rows {B : Type} (f : row -> option B) (F : row -> row) (g : row -> B) :
  (forall r, In r base -> f (F r) = Some (g r)) ->
  mapM f (map F base) = Some (map g base).
Proof.
  intros H. induction base as [| r rest IH]; simpl; [reflexivity |].
  rewrite (H r) by now left. simpl.
  rewrite IH by (intros; apply H; now right). reflexivity.
Qed.

End Rowwise.

(** *** Distinct keys *)

Lemma filter_comm {A : Type} (P Q : A -> bool) (l : list A) :
  filter P (filter Q l) = filter Q (filter P l).
Proof.
  induction l as [| a l IH]; simpl; [reflexivity |].
  destruct (P a) eqn:EP, (Q a) eqn:EQ; simpl; rewrite ?EP, ?EQ, IH; reflexivity.
Qed.

Lemma filter_excluded {A : Type} (P : A -> bool) (l : list A) :
  filter P (filter (fun a => negb (P a)) l) = [].
Proof.
  induction l as [| a l IH]; simpl; [reflexivity |].
  destruct (P a) eqn:EP; simpl; rewrite ?EP; exact IH.
Qed.

Lemma filter_distinct (k : value) (l : list value) :
  In k l -> filter (fun b => value_eqb b k) (distinct l) = [k].
Proof.
  induction l as [| a l IH]; intros Hin; [contradiction |].
  simpl. destruct (value_eqb a k) eqn:E.
  - apply value_eqb_eq in E. subst a. f_equal. apply filter_excluded.
  - destruct Hin as [-> | Hin]; [now rewrite value_eqb_refl in E |].
    rewrite filter_comm, (IH Hin). simpl.
    rewrite value_eqb_sym, E. reflexivity.
Qed.

Lemma filter_keyed {B : Type} (w : value -> B) (k0 : value) (ks : list value) :
  filter (fun kv => value_eqb (fst kv) k0) (map (fun k => (k, w k)) ks)
  = map (fun k => (k, w k)) (filter (fun k => value_eqb k k0) ks).
Proof.
  induction ks as [| k ks IH]; simpl; [reflexivity |].
  destruct (value_eqb k k0); simpl; now rewrite IH.
Qed.

Lemma concat_singletons {A B : Type} (G : A -> B) (l : list A) :
  concat (map (fun a => [G a]) l) = map G l.
Proof. induction l as [| a l IH]; simpl; [reflexivity | now rewrite IH]. Qed.

Lemma filter_all {A : Type} (P : A -> bool) (l : list A) :
  (forall a, In a l -> P a = true) -> filter P l = l.
Proof.
  induction l as [| a l IH]; intros H; simpl; [reflexivity |].
  rewrite (H a) by now left. f_equal. apply IH. intros; apply H; now right.
Qed.

Lemma nansum_numbers (l : list R) : nansum (map VNum l) = Some (sum l).
Proof. induction l as [| a l IH]; simpl; [reflexivity | now rewrite IH]. Qed.

Lemma In_distinct (k : value) (l : list value) : In k (distinct l) -> In k l.
Proof.
  induction l as [| a l IH]; simpl; [tauto |].
  intros [-> | H]; [now left |]. right. apply IH.
  apply filter_In in H. tauto.
Qed.

(** *** Grouped sums and keyed merges of a table given row by row *)

Section Grouping.
Variable base : DataFrame.
Variable F : row -> row.
Variable kc : string.
Variable key : row -> value.
Hypothesis key_col : forall r, In r base -> get kc (F r) = Some (key r).

Lemma group_values_rows (h : row -> R) (k : value) (l : DataFrame) :
  group_values k (map key l) (map (fun r => VNum (h r)) l)
  = map VNum (map h (filter (fun r => value_eqb (key r) k) l)).
Proof.
  unfold group_values. induction l as [| r l IH]; simpl; [reflexivity |].
  destruct (value_eqb (key r) k); simpl; now rewrite IH.
Qed.

Lemma groupby_sum_rows (c : string) (h : row -> R) :
  (forall r, In r base -> is_nan (key r) = false) ->
  (forall r, In r base -> get c (F r) = Some (VNum (h r))) ->
  groupby_sum kc c (map F base)
  = Some (map (fun k => (k, VNum (group_total key h base k)))
               (distinct (map key base))).
Proof.
  intros Hnn Hv. unfold groupby_sum.
  rewrite (column_rows base kc F key key_col). simpl.
  rewrite (column_rows base c F (fun r => VNum (h r)) Hv). simpl.
  rewrite (filter_all (fun k => negb (is_nan k))).
  2:{ intros k Hk. apply in_map_iff in Hk. destruct Hk as [r [<- Hr]].
      now rewrite Hnn. }
  apply mapM_map. intros k _.
  rewrite group_values_rows, nansum_numbers. reflexivity.
Qed.

Lemma merge_left_rows (c : string) (right : list (value * value))
  (v : row -> value) :
  (forall r, In r base ->
     map snd (filter (fun kv => value_eqb (fst kv) (key r)) right) = [v r]) ->
  merge_left (map F base) kc right c
  = Some (map (fun r => attach c (v r) (F r)) base).
Proof.
  intros H. unfold merge_left.
  rewrite (mapM_rows base _ F (fun r => [attach c (v r) (F r)])).
  - simpl. now rewrite concat_singletons.
  - intros r Hr. unfold merge_row. rewrite (key_col r Hr). simpl.
    specialize (H r Hr).
    destruct (filter (fun kv => value_eqb (fst kv) (key r)) right)
      as [| [k1 v1] [| kv2 ms]]; simpl in H; try discriminate.
    injection H as ->. reflexivity.
Qed.

(** Merging a table of one value per distinct key of the table itself. *)
Lemma merge_left_grouped (c : string) (w : value -> value) :
  merge_left (map F base) kc
             (map (fun k => (k, w k)) (distinct (map key base))) c
  = Some (map (fun r => attach c (w (key r)) (F r)) base).
Proof.
  apply merge_left_rows. intros r Hr.
  rewrite filter_keyed, filter_distinct by now apply in_map.
  reflexivity.
Qed.

End Grouping.

End FrameFacts.

(** ** The cells on a well-formed table *)

Module NotebookFacts.
Import Num NumFacts Frame FrameFacts Notebook.

Lemma is_text_get (c : string) (r : row) :
  is_text c r = true -> get c r = Some (VStr (text c r)).
Proof.
  unfold is_text, text. destruct (get c r) as [[s | x |] |]; try discriminate.
  reflexivity.
Qed.

Lemma is_number_get (c : string) (r : row) :
  is_number c r = true -> get c r = Some (VNum (number c r)).
Proof.
  unfold is_number, number. destruct (get c r) as [[s | x |] |]; try discriminate.
  reflexivity.
Qed.

Lemma flow_row_fresh (c : string) (r : row) :
  flow_row r = true -> existsb (String.eqb c) derived_columns = true ->
  get c r = None.
Proof.
  unfold flow_row. rewrite !andb_true_iff. intros [_ Hf] Hc.
  rewrite forallb_forall in Hf. apply existsb_exists in Hc.
  destruct Hc as [c' [Hin E]]. apply String.eqb_eq in E. subst c'.
  specialize (Hf c Hin). unfold has in Hf.
  destruct (get c r); [discriminate | reflexivity].
Qed.

(** The facts a well-formed row provides, ready for rewriting. *)
Record row_facts (r : row) : Prop := {
  rf_orig : get "OrigCodeNew" r = Some (VStr (text "OrigCodeNew" r));
  rf_dest : get "DestCodeNew" r = Some (VStr (text "DestCodeNew" r));
  rf_total : get "Total" r = Some (VNum (number "Total" r));
  rf_sal : get "Dj2_destsal" r = Some (VNum (number "Dj2_destsal" r));
  rf_dist : get "Dist" r = Some (VNum (number "Dist" r));
  rf_logsal : get "log_Dj2_destsal" r = Some (VNum (number "log_Dj2_destsal" r));
  rf_logdist : get "log_Dist" r = Some (VNum (number "log_Dist" r));
  rf_logpop : get "log_Oi1_origpop" r = Some (VNum (number "log_Oi1_origpop" r));
  rf_fresh : forall c, existsb (String.eqb c) derived_columns = true ->
                       get c r = None;
  rf_sal_pos : 0 < number "Dj2_destsal" r;
  rf_dist_pos : 0 < number "Dist" r
}.

Lemma flow_table_facts (df : DataFrame) :
  flow_table df -> forall r, In r df -> row_facts r.
Proof.
  intros H r Hr. unfold flow_table in H. rewrite Forall_forall in H.
  destruct (H r Hr) as [Hrow [Hs Hd]].
  pose proof Hrow as Hb. unfold flow_row in Hb.
  rewrite !andb_true_iff in Hb.
  destruct Hb as [[[[[[[[H1 H2] H3] H4] H5] H6] H7] H8] _].
  constructor; auto using is_text_get, is_number_get.
  intros c Hc. now apply flow_row_fresh.
Qed.

(** *** Group totals are sums over [rows_where] *)

Lemma rows_where_text (c : string) (s : string) (df : DataFrame) :
  (forall r, In r df -> get c r = Some (VStr (text c r))) ->
  rows_where c (VStr s) df
  = filter (fun r => value_eqb (VStr (text c r)) (VStr s)) df.
Proof.
  intros H. unfold rows_where. apply filter_ext_in. intros r Hr.
  unfold holds. now rewrite (H r Hr).
Qed.

Lemma group_total_where (c : string) (h : row -> R) (s : string) (df : DataFrame) :
  (forall r, In r df -> get c r = Some (VStr (text c r))) ->
  group_total (fun r => VStr (text c r)) h df (VStr s)
  = sum (map h (rows_where c (VStr s) df)).
Proof.
  intros H. unfold group_total. now rewrite rows_where_text.
Qed.

Lemma in_rows_where (c : string) (r : row) (df : DataFrame) :
  In r df -> get c r = Some (VStr (text c r)) ->
  In r (rows_where c (VStr (text c r)) df).
Proof.
  intros Hr Hg. unfold rows_where. apply filter_In. split; [assumption |].
  unfold holds. rewrite Hg. apply value_eqb_refl.
Qed.

Lemma rows_where_incl (c : string) (v : value) (df : DataFrame) (r : row) :
  In r (rows_where c v df) -> In r df.
Proof. unfold rows_where. intros H. now apply filter_In in H. Qed.

Lemma sum_pos (l : list R) :
  l <> [] -> Forall (fun x => 0 < x) l -> 0 < sum l.
Proof.
  intros Hne H. induction H as [| x l Hx Hl IH]; [contradiction |].
  simpl. destruct l as [| y l]; [simpl; lra |].
  assert (0 < sum (y :: l)) by (apply IH; discriminate). lra.
Qed.

(** *** Fitted parameters *)

Lemma lookup_position (p : Params) (pre : list string) (n : string)
  (rest : list string) :
  map fst p = pre ++ n :: rest -> ~ In n pre ->
  lookup n p = nth_error (map snd p) (length pre).
Proof.
  revert p. induction pre as [| a pre IH]; intros [| [k v] p] H Hn;
    simpl in *; try discriminate.
  - injection H as -> _. now rewrite String.eqb_refl.
  - injection H as -> H.
    destruct (String.eqb_spec a n) as [-> | _]; [exfalso; now apply Hn; left |].
    apply IH; [assumption | tauto].
Qed.

Lemma lookup_in (p : Params) (n : string) :
  In n (map fst p) -> lookup n p = Some (coef n p).
Proof.
  unfold coef. induction p as [| [k v] p IH]; simpl; [contradiction |].
  intros [-> | H].
  - now rewrite String.eqb_refl.
  - destruct (String.eqb k n); [reflexivity | now apply IH].
Qed.

Lemma lookup_some_in (p : Params) (n : string) :
  lookup n p <> None -> In n (map fst p).
Proof.
  induction p as [| [k v] p IH]; simpl; [congruence |].
  destruct (String.eqb_spec k n) as [-> | _]; [now left | right; now apply IH].
Qed.

(** In a coefficient table whose names stay distinct under [g], the rows
    with the key of the name [n] are the one row of [n]. *)
Lemma coefs_unique_match (g : string -> string) (p : Params) (n : string) :
  NoDup (map (fun kv => g (fst kv)) p) -> In n (map fst p) ->
  map snd (filter (fun kv => value_eqb (fst kv) (VStr (g n)))
                  (map (fun q => (VStr (g (fst q)), VNum (snd q))) p))
  = [VNum (coef n p)].
Proof.
  unfold coef. induction p as [| [k v] p IH]; simpl; [contradiction |].
  intros Hnd Hin. inversion Hnd as [| x l Hx Hnd' E]; subst.
  destruct (String.eqb_spec (g k) (g n)) as [E | E].
  - assert (Hk : k = n).
    { destruct Hin as [Hk | Hin]; [assumption |]. exfalso. apply Hx.
      rewrite E. apply in_map_iff in Hin. destruct Hin as [[k' v'] [<- Hin]].
      apply in_map_iff. now exists (k', v'). }
    subst k. rewrite String.eqb_refl. simpl. f_equal.
    clear IH Hin Hnd Hnd' E.
    induction p as [| [k' v'] p IHp]; simpl in *; [reflexivity |].
    destruct (String.eqb_spec (g k') (g n)) as [E' | _];
      [exfalso; apply Hx; now left |].
    apply IHp. tauto.
  - destruct Hin as [-> | Hin]; [congruence |].
    destruct (String.eqb_spec k n) as [-> | _]; [congruence |].
    now apply IH.
Qed.

Lemma dummy_not_logsal (l : string) :
  dummy "OrigCodeNew" l <> "log_Dj2_destsal".
Proof. unfold dummy. simpl. discriminate. Qed.

Lemma dummy_not_logdist (l : string) : dummy "OrigCodeNew" l <> "log_Dist".
Proof. unfold dummy. simpl. discriminate. Qed.

Lemma existsb_none {A : Type} (f : A -> bool) (l : list A) :
  (forall a, In a l -> f a = false) -> existsb f l = false.
Proof.
  induction l as [| a l IH]; intros H; simpl; [reflexivity |].
  rewrite (H a) by now left. apply IH. intros; apply H; now right.
Qed.

Section ProdSimDesign.
Variable levels : list string.
Variable df : DataFrame.
Variable p : Params.
Hypothesis Hdesign : prodSim_design levels df p.

Lemma design_not_in_levels (x : string) :
  (forall l, dummy "OrigCodeNew" l <> x) ->
  ~ In x (map (dummy "OrigCodeNew") levels).
Proof.
  intros H Hin. apply in_map_iff in Hin. destruct Hin as [l [E _]].
  exact (H l E).
Qed.

Lemma design_gamma :
  nth_error (map snd p) 7 = Some (gamma_of p).
Proof.
  destruct Hdesign as [Hn [Hlen _]]. unfold design_names in Hn.
  replace 7%nat with (length (map (dummy "OrigCodeNew") levels))
    by now rewrite length_map.
  rewrite <- (lookup_position p (map (dummy "OrigCodeNew") levels)
                "log_Dj2_destsal" ["log_Dist"] Hn).
  - unfold gamma_of. apply lookup_in. rewrite Hn, in_app_iff. right. now left.
  - apply design_not_in_levels, dummy_not_logsal.
Qed.

Lemma design_beta :
  nth_error (map snd p) 8 = Some (coef "log_Dist" p).
Proof.
  destruct Hdesign as [Hn [Hlen _]]. unfold design_names in Hn.
  replace 8%nat
    with (length (map (dummy "OrigCodeNew") levels ++ ["log_Dj2_destsal"]))
    by (rewrite length_app, length_map, Hlen; reflexivity).
  rewrite <- (lookup_position p _ "log_Dist" []).
  - apply lookup_in. rewrite Hn, in_app_iff. right. right. now left.
  - now rewrite <- app_assoc.
  - rewrite in_app_iff. intros [H | [H | []]]; [| discriminate].
    revert H. apply design_not_in_levels, dummy_not_logdist.
Qed.

Lemma cell18_design :
  cell18 p = Some (firstn 7 p, gamma_of p, beta_of p).
Proof.
  unfold cell18. rewrite design_gamma, design_beta. reflexivity.
Qed.

Lemma design_level_name (r : row) :
  In r df -> In (dummy "OrigCodeNew" (text "OrigCodeNew" r)) (map fst p).
Proof.
  intros Hr. destruct Hdesign as [Hn [_ [_ [_ Hin]]]].
  rewrite Forall_forall in Hin. rewrite Hn. unfold design_names.
  apply in_app_iff. left. apply in_map. now apply Hin.
Qed.

Lemma design_stripped_names :
  map (fun kv => strip_coef (fst kv)) p
  = levels ++ ["log_Dj2_destsal"; "log_Dist"].
Proof.
  destruct Hdesign as [Hn [_ [_ [Hc _]]]].
  rewrite <- (map_map fst strip_coef), Hn. unfold design_names.
  rewrite map_app, map_map. f_equal.
  rewrite <- (map_id levels) at 2. apply map_ext_in. intros l Hl.
  rewrite Forall_forall in Hc. now apply Hc.
Qed.

Lemma design_stripped_distinct :
  NoDup (map (fun kv => strip_coef (fst kv)) p).
Proof.
  rewrite design_stripped_names.
  destruct Hdesign as [_ [_ [Hnd [Hc _]]]]. rewrite Forall_forall in Hc.
  apply NoDup_app; [assumption | |].
  - constructor; [| constructor; [intros [] | constructor]].
    intros [H | []]. discriminate.
  - intros l Hl [H | [H | []]]; destruct (Hc l Hl) as [_ [H1 H2]]; congruence.
Qed.

Lemma design_alpha_match (r : row) :
  In r df ->
  map snd (filter (fun kv => value_eqb (fst kv) (VStr (text "OrigCodeNew" r)))
             (map (fun q => (VStr (strip_coef (fst q)), VNum (snd q))) p))
  = [VNum (alpha_of p r)].
Proof.
  intros Hr.
  assert (Hs : strip_coef (dummy "OrigCodeNew" (text "OrigCodeNew" r))
               = text "OrigCodeNew" r).
  { destruct Hdesign as [_ [_ [_ [Hc Hin]]]].
    rewrite Forall_forall in Hc, Hin. now apply Hc, Hin. }
  pose proof (coefs_unique_match strip_coef p
                (dummy "OrigCodeNew" (text "OrigCodeNew" r))
                design_stripped_distinct (design_level_name r Hr)) as H.
  rewrite Hs in H. exact H.
Qed.

End ProdSimDesign.

Lemma fpow_pos (x y : R) : 0 < x -> fpow x y = VNum (Rpower x y).
Proof. intros H. unfold fpow. destruct (Rlt_dec 0 x); [reflexivity | lra]. Qed.

Lemma flog_pos (x : R) : 0 < x -> flog x = VNum (ln x).
Proof. intros H. unfold flog. destruct (Rlt_dec 0 x); [reflexivity | lra]. Qed.

Lemma fdiv_nonzero (x y : R) : y <> 0 -> fdiv x y = VNum (x / y).
Proof.
  intros H. unfold fdiv. destruct (Req_dec_T y 0); [contradiction | reflexivity].
Qed.

Lemma Rpower_pos (x y : R) : 0 < Rpower x y.
Proof. unfold Rpower. apply exp_pos. Qed.

Lemma reciprocals_rows (gt : value -> R) (ks : list value) :
  (forall k, In k ks -> gt k <> 0) ->
  reciprocals (map (fun k => (k, VNum (gt k))) ks)
  = Some (map (fun k => (k, VNum (1 / gt k))) ks).
Proof.
  intros H. unfold reciprocals.
  rewrite (mapM_map _ (fun kv => (fst kv, VNum (1 / gt (fst kv))))).
  - now rewrite map_map.
  - intros kv Hkv. apply in_map_iff in Hkv. destruct Hkv as [k [<- Hk]].
    simpl. now rewrite fdiv_nonzero by now apply H.
Qed.

Ltac fresh_column :=
  match goal with
  | F : row_facts ?r |- get ?c ?r = None =>
      apply (rf_fresh r F); reflexivity
  end.

(** A cell of a row of the shape [r ++ e], [e] listing the derived
    columns: from [r] for an input column, from [e] otherwise. *)
Ltac row_get :=
  match goal with
  | F : row_facts ?r |- get ?c (?r ++ ?e) = Some _ =>
      first [ apply get_app_l;
              first [ exact (rf_orig r F) | exact (rf_dest r F)
                    | exact (rf_total r F) | exact (rf_sal r F)
                    | exact (rf_dist r F) | exact (rf_logsal r F)
                    | exact (rf_logdist r F) | exact (rf_logpop r F) ]
            | rewrite get_app_r by fresh_column; reflexivity ]
  end.

Ltac row_set :=
  match goal with
  | F : row_facts ?r |- set ?c ?v (?r ++ ?e) = _ =>
      rewrite set_app_r by fresh_column; reflexivity
  | F : row_facts ?r |- attach ?c ?v (?r ++ ?e) = _ =>
      rewrite attach_app by (try fresh_column; reflexivity); reflexivity
  end.

Section Cells.
Variables prodSim attrSim : Params.
Variable df : DataFrame.
Hypothesis Hflow : flow_table df.

Let facts : forall r, In r df -> row_facts r := flow_table_facts df Hflow.

Lemma cell14_rows :
  cell14 (map (fun r => r) df)
  = Some (map (fun r => r ++ [("O_i", VNum (O_i_of df r));
                              ("D_j", VNum (D_j_of df r))]) df).
Proof.
  unfold cell14.
  rewrite (groupby_sum_rows df (fun r => r) "OrigCodeNew"
             (fun r => VStr (text "OrigCodeNew" r))
             (fun r Hr => rf_orig r (facts r Hr))
             "Total" (number "Total")
             (fun r Hr => eq_refl) (fun r Hr => rf_total r (facts r Hr))).
  cbn [bind].
  rewrite (merge_left_grouped df (fun r => r) "OrigCodeNew"
             (fun r => VStr (text "OrigCodeNew" r))
             (fun r Hr => rf_orig r (facts r Hr)) "O_i"
             (fun k => VNum (group_total (fun r => VStr (text "OrigCodeNew" r))
                                         (number "Total") df k))).
  cbn [bind].
  rewrite (map_ext_in _ (fun r : row => r ++ [("O_i", VNum (O_i_of df r))])).
  2:{ intros r Hr. pose proof (facts r Hr) as Fr.
      rewrite attach_fresh by fresh_column.
      rewrite group_total_where by (intros; now apply rf_orig, facts).
      reflexivity. }
  assert (Hd : forall r, In r df ->
             get "DestCodeNew" (r ++ [("O_i", VNum (O_i_of df r))])
             = Some (VStr (text "DestCodeNew" r))).
  { intros r Hr. apply get_app_l. now apply rf_dest, facts. }
  rewrite (groupby_sum_rows df _ "DestCodeNew"
             (fun r => VStr (text "DestCodeNew" r)) Hd
             "Total" (number "Total") (fun r Hr => eq_refl)).
  2:{ intros r Hr. apply get_app_l. now apply rf_total, facts. }
  cbn [bind].
  rewrite (merge_left_grouped df _ "DestCodeNew"
             (fun r => VStr (text "DestCodeNew" r)) Hd "D_j"
             (fun k => VNum (group_total (fun r => VStr (text "DestCodeNew" r))
                                         (number "Total") df k))).
  f_equal. apply map_ext_in. intros r Hr. pose proof (facts r Hr) as Fr.
  rewrite attach_app by (try fresh_column; reflexivity).
  rewrite group_total_where by (intros; now apply rf_dest, facts).
  reflexivity.
Qed.

Variable levels : list string.
Hypothesis Hdesign : prodSim_design levels df prodSim.

Lemma cell16_rows :
  cell16 prodSim
    (map (fun r => r ++ [("O_i", VNum (O_i_of df r));
                         ("D_j", VNum (D_j_of df r))]) df)
  = Some (map (fun r => r ++ [("O_i", VNum (O_i_of df r));
                              ("D_j", VNum (D_j_of df r));
                              ("alpha_i", VNum (alpha_of prodSim r))]) df).
Proof.
  unfold cell16. rewrite existsb_none.
  2:{ intros x Hx. apply in_map_iff in Hx. destruct Hx as [r [<- Hr]].
      pose proof (facts r Hr) as Fr. unfold has.
      rewrite get_app_r by fresh_column. reflexivity. }
  rewrite (merge_left_rows df _ "OrigCodeNew"
             (fun r => VStr (text "OrigCodeNew" r)))
    with (v := fun r => VNum (alpha_of prodSim r)).
  - f_equal. apply map_ext_in. intros r Hr. pose proof (facts r Hr) as Fr.
    row_set.
  - intros r Hr. pose proof (facts r Hr) as Fr. row_get.
  - intros r Hr. now apply (design_alpha_match levels df prodSim Hdesign).
Qed.

Lemma cell22_rows :
  cell22 (gamma_of prodSim) (beta_of prodSim)
    (map (fun r => r ++ [("O_i", VNum (O_i_of df r));
                         ("D_j", VNum (D_j_of df r));
                         ("alpha_i", VNum (alpha_of prodSim r))]) df)
  = Some (map (fun r => r ++ [("O_i", VNum (O_i_of df r));
                              ("D_j", VNum (D_j_of df r));
                              ("alpha_i", VNum (alpha_of prodSim r));
                              ("prodsimest1", VNum (lambda_of prodSim r))]) df).
Proof.
  unfold cell22, exp_model.
  rewrite (column_rows df "alpha_i" _ (fun r => VNum (alpha_of prodSim r)))
    by (intros r Hr; pose proof (facts r Hr) as Fr; row_get).
  rewrite (column_rows df "log_Dj2_destsal" _
             (fun r => VNum (number "log_Dj2_destsal" r)))
    by (intros r Hr; pose proof (facts r Hr) as Fr; row_get).
  rewrite (column_rows df "log_Dist" _ (fun r => VNum (number "log_Dist" r)))
    by (intros r Hr; pose proof (facts r Hr) as Fr; row_get).
  cbn [bind]. rewrite !map1_rows. cbn [bind].
  rewrite map2_rows. unfold fadd. cbn [bind].
  rewrite map2_rows. unfold fsub. cbn [bind].
  rewrite map1_rows. unfold fexp. cbn [bind].
  rewrite set_column_rows. f_equal. apply map_ext_in.
  intros r Hr. pose proof (facts r Hr) as Fr. row_set.
Qed.

Lemma round_column_rows (c : string) (x : row -> R) (e : row -> row) :
  existsb (String.eqb c) derived_columns = true ->
  (forall r, In r df -> get c (e r) = Some (VNum (x r))) ->
  round_column c (map (fun r => r ++ e r) df)
  = Some (map (fun r => r ++ set c (VNum (rint (x r))) (e r)) df).
Proof.
  intros Hc He. unfold round_column.
  rewrite (column_rows df c _ (fun r => VNum (x r))).
  2:{ intros r Hr. rewrite get_app_r; [now apply He |].
      now apply (rf_fresh r (facts r Hr)). }
  cbn [bind]. rewrite map1_rows. unfold fround. cbn [bind].
  rewrite set_column_rows. f_equal. apply map_ext_in. intros r Hr.
  apply set_app_r. now apply (rf_fresh r (facts r Hr)).
Qed.

Lemma cell24_rows :
  cell24
    (map (fun r => r ++ [("O_i", VNum (O_i_of df r));
                         ("D_j", VNum (D_j_of df r));
                         ("alpha_i", VNum (alpha_of prodSim r));
                         ("prodsimest1", VNum (lambda_of prodSim r))]) df)
  = Some (map (fun r => r ++ [("O_i", VNum (O_i_of df r));
                              ("D_j", VNum (D_j_of df r));
                              ("alpha_i", VNum (alpha_of prodSim r));
                              ("prodsimest1", VNum (rint (lambda_of prodSim r)))])
              df).
Proof.
  unfold cell24.
  rewrite (round_column_rows "prodsimest1" (lambda_of prodSim)
             (fun r => [("O_i", VNum (O_i_of df r));
                        ("D_j", VNum (D_j_of df r));
                        ("alpha_i", VNum (alpha_of prodSim r));
                        ("prodsimest1", VNum (lambda_of prodSim r))]));
    reflexivity.
Qed.

Lemma scenario_salary_pos (r : row) : In r df -> 0 < scenario_salary r.
Proof.
  intros Hr. unfold scenario_salary.
  destruct (String.eqb _ _); [lra | exact (rf_sal_pos r (facts r Hr))].
Qed.

Lemma new_sal_rows (r e : row) :
  In r df -> new_sal (r ++ e) = Some (VNum (scenario_salary r)).
Proof.
  intros Hr. pose proof (facts r Hr) as Fr. unfold new_sal, scenario_salary.
  rewrite (get_app_l _ _ _ _ (rf_dest r Fr)). cbn [bind value_eqb].
  destruct (String.eqb _ _); [reflexivity |].
  rewrite (get_app_l _ _ _ _ (rf_sal r Fr)). reflexivity.
Qed.

Lemma cell32_rows :
  cell32 (map (fun r => r ++ [("O_i", VNum (O_i_of df r));
                        ("D_j", VNum (D_j_of df r));
                        ("alpha_i", VNum (alpha_of prodSim r));
                        ("prodsimest1", VNum (rint (lambda_of prodSim r)))]) df)
  = Some (map (fun r => r ++ [("O_i", VNum (O_i_of df r));
                        ("D_j", VNum (D_j_of df r));
                        ("alpha_i", VNum (alpha_of prodSim r));
                        ("prodsimest1", VNum (rint (lambda_of prodSim r)));
                        ("Dj3_destsalScenario", VNum (scenario_salary r))]) df).
Proof.
  unfold cell32.
  rewrite (mapM_rows df new_sal _ (fun r => VNum (scenario_salary r)))
    by (intros r Hr; now apply new_sal_rows).
  cbn [bind]. rewrite set_column_rows. f_equal. apply map_ext_in.
  intros r Hr. pose proof (facts r Hr) as Fr. row_set.
Qed.

Lemma cell34_rows :
  cell34 (gamma_of prodSim) (beta_of prodSim) (map (fun r => r ++ [("O_i", VNum (O_i_of df r));
                        ("D_j", VNum (D_j_of df r));
                        ("alpha_i", VNum (alpha_of prodSim r));
                        ("prodsimest1", VNum (rint (lambda_of prodSim r)));
                        ("Dj3_destsalScenario", VNum (scenario_salary r))]) df)
  = Some (map (fun r => r ++ [("O_i", VNum (O_i_of df r));
                        ("D_j", VNum (D_j_of df r));
                        ("alpha_i", VNum (alpha_of prodSim r));
                        ("prodsimest1", VNum (rint (lambda_of prodSim r)));
                        ("Dj3_destsalScenario", VNum (scenario_salary r));
                        ("prodsimest2",
    VNum (rint (exp (alpha_of prodSim r + gamma_of prodSim * ln (scenario_salary r)
                     - beta_of prodSim * number "log_Dist" r))))]) df).
Proof.
  unfold cell34, exp_model.
  rewrite (column_rows df "alpha_i" _ (fun r => VNum (alpha_of prodSim r)))
    by (intros r Hr; pose proof (facts r Hr) as Fr; row_get).
  rewrite (column_rows df "Dj3_destsalScenario" _
             (fun r => VNum (scenario_salary r)))
    by (intros r Hr; pose proof (facts r Hr) as Fr; row_get).
  rewrite (column_rows df "log_Dist" _ (fun r => VNum (number "log_Dist" r)))
    by (intros r Hr; pose proof (facts r Hr) as Fr; row_get).
  cbn [bind]. rewrite map1_rows.
  rewrite (map_ext_in _ (fun r => VNum (ln (scenario_salary r))))
    by (intros r Hr; now apply flog_pos, scenario_salary_pos).
  cbn [bind]. rewrite !map1_rows. cbn [bind].
  rewrite map2_rows. unfold fadd. cbn [bind].
  rewrite map2_rows. unfold fsub. cbn [bind].
  rewrite map1_rows. unfold fexp. cbn [bind].
  rewrite set_column_rows.
  rewrite (map_ext_in _ (fun r : row => r ++ [("O_i", VNum (O_i_of df r));
                        ("D_j", VNum (D_j_of df r));
                        ("alpha_i", VNum (alpha_of prodSim r));
                        ("prodsimest1", VNum (rint (lambda_of prodSim r)));
                        ("Dj3_destsalScenario", VNum (scenario_salary r));
                        ("prodsimest2",
    VNum (exp (alpha_of prodSim r + gamma_of prodSim * ln (scenario_salary r)
                     - beta_of prodSim * number "log_Dist" r)))]))
    by (intros r Hr; pose proof (facts r Hr) as Fr; row_set).
  rewrite (round_column_rows "prodsimest2"
             (fun r => exp (alpha_of prodSim r + gamma_of prodSim * ln (scenario_salary r)
                     - beta_of prodSim * number "log_Dist" r))
             (fun r => [("O_i", VNum (O_i_of df r));
            ("D_j", VNum (D_j_of df r));
            ("alpha_i", VNum (alpha_of prodSim r));
            ("prodsimest1", VNum (rint (lambda_of prodSim r)));
            ("Dj3_destsalScenario", VNum (scenario_salary r));
            ("prodsimest2",
    VNum (exp (alpha_of prodSim r + gamma_of prodSim * ln (scenario_salary r)
                     - beta_of prodSim * number "log_Dist" r)))]));
    reflexivity.
Qed.

Lemma Ai1_of_pos (sal : row -> R) (r : row) : 0 < Ai1_of prodSim sal r.
Proof.
  unfold Ai1_of. apply Rmult_lt_0_compat; apply Rpower_pos.
Qed.

Lemma origin_total_where (h : row -> R) (r : row) :
  In r df ->
  group_total (fun r => VStr (text "OrigCodeNew" r)) h df
              (VStr (text "OrigCodeNew" r))
  = sum (map h (same_origin df r)).
Proof.
  intros Hr. unfold same_origin.
  apply group_total_where. intros r' Hr'. exact (rf_orig r' (facts r' Hr')).
Qed.

Lemma origin_total_pos (h : row -> R) (k : value) :
  (forall r, 0 < h r) ->
  In k (distinct (map (fun r => VStr (text "OrigCodeNew" r)) df)) ->
  group_total (fun r => VStr (text "OrigCodeNew" r)) h df k <> 0.
Proof.
  intros Hh Hk. apply In_distinct, in_map_iff in Hk.
  destruct Hk as [r [<- Hr]]. rewrite origin_total_where by assumption.
  assert (0 < sum (map h (same_origin df r))); [| lra].
  apply sum_pos.
  - pose proof (in_rows_where "OrigCodeNew" r df Hr
                  (rf_orig r (facts r Hr))) as Hin.
    unfold same_origin. intros E. apply map_eq_nil in E.
    rewrite E in Hin. exact Hin.
  - apply Forall_map, Forall_forall. intros; apply Hh.
Qed.

Lemma balancing_rows (name : string) (sal : row -> R) (e : row -> row) :
  existsb (String.eqb name) derived_columns = true ->
  (forall r v, In r df -> get name (set "Ai1" v (e r)) = None) ->
  balancing name (attraction_column prodSim df sal) (dist_beta_column prodSim df)
            (map (fun r => r ++ e r) df)
  = Some (map (fun r => r ++ set "Ai1" (VNum (Ai1_of prodSim sal r)) (e r)
                          ++ [(name, VNum (A_of prodSim df sal r))]) df).
Proof.
  intros Hname He. unfold balancing, attraction_column, dist_beta_column.
  rewrite map2_rows. unfold fmul. cbn [bind].
  rewrite set_column_rows.
  rewrite (map_ext_in _ (fun r : row =>
             r ++ set "Ai1" (VNum (Ai1_of prodSim sal r)) (e r))).
  2:{ intros r Hr. apply set_app_r. now apply (rf_fresh r (facts r Hr)). }
  assert (Hk : forall r, In r df ->
             get "OrigCodeNew"
                 (r ++ set "Ai1" (VNum (Ai1_of prodSim sal r)) (e r))
             = Some (VStr (text "OrigCodeNew" r))).
  { intros r Hr. apply get_app_l. exact (rf_orig r (facts r Hr)). }
  rewrite (groupby_sum_rows df _ "OrigCodeNew"
             (fun r => VStr (text "OrigCodeNew" r)) Hk
             "Ai1" (Ai1_of prodSim sal) (fun r Hr => eq_refl)).
  2:{ intros r Hr. rewrite get_app_r by now apply (rf_fresh r (facts r Hr)).
      clear. induction (e r) as [| [k w] t IH]; simpl.
      - reflexivity.
      - destruct (String.eqb_spec k "Ai1") as [-> | Hn]; simpl.
        + reflexivity.
        + destruct (String.eqb_spec k "Ai1"); [contradiction | exact IH]. }
  cbn [bind].
  rewrite reciprocals_rows
    by (intros k Hk'; apply origin_total_pos; [apply Ai1_of_pos | exact Hk']).
  cbn [bind].
  rewrite (merge_left_grouped df _ "OrigCodeNew"
             (fun r => VStr (text "OrigCodeNew" r)) Hk name
             (fun k => VNum (1 / group_total
                                    (fun r => VStr (text "OrigCodeNew" r))
                                    (Ai1_of prodSim sal) df k))).
  f_equal. apply map_ext_in. intros r Hr.
  rewrite attach_app.
  - rewrite origin_total_where by assumption. reflexivity.
  - now apply (rf_fresh r (facts r Hr)).
  - now apply He.
Qed.

Lemma constrained_estimate_rows (c a : string) (sal : row -> R)
  (e : row -> row) (x : row -> R) :
  existsb (String.eqb c) derived_columns = true ->
  (forall r, In r df -> get a (e r) = Some (VNum (x r))) ->
  (forall r, In r df -> get "O_i" (e r) = Some (VNum (O_i_of df r))) ->
  existsb (String.eqb a) derived_columns = true ->
  (forall r v, In r df ->
     get c (set c v (e r)) = Some v) ->
  constrained_estimate c a (attraction_column prodSim df sal) (dist_beta_column prodSim df)
                       (map (fun r => r ++ e r) df)
  = Some (map (fun r =>
                 r ++ set c (VNum (rint (x r * O_i_of df r
                                        * Rpower (sal r) (gamma_of prodSim)
                                        * Rpower (number "Dist" r)
                                                 (beta_of prodSim))))
                        (set c (VNum (x r * O_i_of df r
                                      * Rpower (sal r) (gamma_of prodSim)
                                      * Rpower (number "Dist" r)
                                               (beta_of prodSim)))
                             (e r))) df).
Proof.
  intros Hc Ha HO Had Hset.
  unfold constrained_estimate, attraction_column, dist_beta_column.
  rewrite (column_rows df a _ (fun r => VNum (x r))).
  2:{ intros r Hr. rewrite get_app_r; [now apply Ha |].
      now apply (rf_fresh r (facts r Hr)). }
  rewrite (column_rows df "O_i" _ (fun r => VNum (O_i_of df r))).
  2:{ intros r Hr. rewrite get_app_r; [now apply HO |].
      now apply (rf_fresh r (facts r Hr)). }
  cbn [bind]. rewrite map2_rows. unfold fmul. cbn [bind].
  rewrite map2_rows. cbn [bind]. rewrite map2_rows. cbn [bind].
  rewrite set_column_rows.
  rewrite (map_ext_in _ (fun r : row =>
             r ++ set c (VNum (x r * O_i_of df r
                               * Rpower (sal r) (gamma_of prodSim)
                               * Rpower (number "Dist" r) (beta_of prodSim)))
                        (e r))).
  2:{ intros r Hr. apply set_app_r. now apply (rf_fresh r (facts r Hr)). }
  rewrite (round_column_rows c
             (fun r => x r * O_i_of df r * Rpower (sal r) (gamma_of prodSim)
                       * Rpower (number "Dist" r) (beta_of prodSim))
             (fun r => set c (VNum (x r * O_i_of df r
                                    * Rpower (sal r) (gamma_of prodSim)
                                    * Rpower (number "Dist" r)
                                             (beta_of prodSim))) (e r)));
    [reflexivity | assumption |].
  intros r Hr. now apply Hset.
Qed.

Lemma cell36_rows :
  cell36 (gamma_of prodSim) (beta_of prodSim) (map (fun r => r ++ [("O_i", VNum (O_i_of df r));
                        ("D_j", VNum (D_j_of df r));
                        ("alpha_i", VNum (alpha_of prodSim r));
                        ("prodsimest1", VNum (rint (lambda_of prodSim r)));
                        ("Dj3_destsalScenario", VNum (scenario_salary r));
                        ("prodsimest2",
    VNum (rint (exp (alpha_of prodSim r + gamma_of prodSim * ln (scenario_salary r)
                     - beta_of prodSim * number "log_Dist" r))))]) df)
  = Some ((map (fun r => r ++ [("O_i", VNum (O_i_of df r));
                        ("D_j", VNum (D_j_of df r));
                        ("alpha_i", VNum (alpha_of prodSim r));
                        ("prodsimest1", VNum (rint (lambda_of prodSim r)));
                        ("Dj3_destsalScenario", VNum (scenario_salary r));
                        ("prodsimest2",
    VNum (rint (exp (alpha_of prodSim r + gamma_of prodSim * ln (scenario_salary r)
                     - beta_of prodSim * number "log_Dist" r))));
                        ("Ai1", VNum (Ai1_of prodSim (number "Dj2_destsal") r));
                        ("A_i", VNum (A_of prodSim df (number "Dj2_destsal") r))]) df),
          attraction_column prodSim df (number "Dj2_destsal"),
          dist_beta_column prodSim df).
Proof.
  unfold cell36.
  rewrite (column_rows df "Dj2_destsal" _
             (fun r => VNum (number "Dj2_destsal" r)))
    by (intros r Hr; pose proof (facts r Hr) as Fr; row_get).
  cbn [bind]. rewrite map1_rows.
  rewrite (map_ext_in _ (fun r => VNum (Rpower (number "Dj2_destsal" r)
                                               (gamma_of prodSim))))
    by (intros r Hr; apply fpow_pos, (rf_sal_pos r (facts r Hr))).
  cbn [bind].
  rewrite (column_rows df "Dist" _ (fun r => VNum (number "Dist" r)))
    by (intros r Hr; pose proof (facts r Hr) as Fr; row_get).
  cbn [bind]. rewrite map1_rows.
  rewrite (map_ext_in _ (fun r => VNum (Rpower (number "Dist" r)
                                               (beta_of prodSim))))
    by (intros r Hr; apply fpow_pos, (rf_dist_pos r (facts r Hr))).
  cbn [bind].
  change (map (fun r => VNum (Rpower (number "Dj2_destsal" r)
                                     (gamma_of prodSim))) df)
    with (attraction_column prodSim df (number "Dj2_destsal")).
  change (map (fun r => VNum (Rpower (number "Dist" r) (beta_of prodSim))) df)
    with (dist_beta_column prodSim df).
  rewrite (balancing_rows "A_i" (number "Dj2_destsal")
             (fun r => [("O_i", VNum (O_i_of df r));
            ("D_j", VNum (D_j_of df r));
            ("alpha_i", VNum (alpha_of prodSim r));
            ("prodsimest1", VNum (rint (lambda_of prodSim r)));
            ("Dj3_destsalScenario", VNum (scenario_salary r));
            ("prodsimest2",
    VNum (rint (exp (alpha_of prodSim r + gamma_of prodSim * ln (scenario_salary r)
                     - beta_of prodSim * number "log_Dist" r))))]));
    [| reflexivity | intros; reflexivity].
  reflexivity.
Qed.

Lemma cell38_rows :
  cell38 (attraction_column prodSim df (number "Dj2_destsal"))
         (dist_beta_column prodSim df) (map (fun r => r ++ [("O_i", VNum (O_i_of df r));
                        ("D_j", VNum (D_j_of df r));
                        ("alpha_i", VNum (alpha_of prodSim r));
                        ("prodsimest1", VNum (rint (lambda_of prodSim r)));
                        ("Dj3_destsalScenario", VNum (scenario_salary r));
                        ("prodsimest2",
    VNum (rint (exp (alpha_of prodSim r + gamma_of prodSim * ln (scenario_salary r)
                     - beta_of prodSim * number "log_Dist" r))));
                        ("Ai1", VNum (Ai1_of prodSim (number "Dj2_destsal") r));
                        ("A_i", VNum (A_of prodSim df (number "Dj2_destsal") r))]) df)
  = Some (map (fun r => r ++ [("O_i", VNum (O_i_of df r));
                        ("D_j", VNum (D_j_of df r));
                        ("alpha_i", VNum (alpha_of prodSim r));
                        ("prodsimest1", VNum (rint (lambda_of prodSim r)));
                        ("Dj3_destsalScenario", VNum (scenario_salary r));
                        ("prodsimest2",
    VNum (rint (exp (alpha_of prodSim r + gamma_of prodSim * ln (scenario_salary r)
                     - beta_of prodSim * number "log_Dist" r))));
                        ("Ai1", VNum (Ai1_of prodSim (number "Dj2_destsal") r));
                        ("A_i", VNum (A_of prodSim df (number "Dj2_destsal") r));
                        ("prodsimest3", VNum (rint (balanced_of prodSim df (number "Dj2_destsal") r)))]) df).
Proof.
  unfold cell38.
  rewrite (constrained_estimate_rows "prodsimest3" "A_i" (number "Dj2_destsal")
             (fun r => [("O_i", VNum (O_i_of df r));
            ("D_j", VNum (D_j_of df r));
            ("alpha_i", VNum (alpha_of prodSim r));
            ("prodsimest1", VNum (rint (lambda_of prodSim r)));
            ("Dj3_destsalScenario", VNum (scenario_salary r));
            ("prodsimest2",
    VNum (rint (exp (alpha_of prodSim r + gamma_of prodSim * ln (scenario_salary r)
                     - beta_of prodSim * number "log_Dist" r))));
            ("Ai1", VNum (Ai1_of prodSim (number "Dj2_destsal") r));
            ("A_i", VNum (A_of prodSim df (number "Dj2_destsal") r))])
             (A_of prodSim df (number "Dj2_destsal")));
    try reflexivity; intros; reflexivity.
Qed.

Lemma cell40_rows :
  cell40 (gamma_of prodSim) (dist_beta_column prodSim df) (map (fun r => r ++ [("O_i", VNum (O_i_of df r));
                        ("D_j", VNum (D_j_of df r));
                        ("alpha_i", VNum (alpha_of prodSim r));
                        ("prodsimest1", VNum (rint (lambda_of prodSim r)));
                        ("Dj3_destsalScenario", VNum (scenario_salary r));
                        ("prodsimest2",
    VNum (rint (exp (alpha_of prodSim r + gamma_of prodSim * ln (scenario_salary r)
                     - beta_of prodSim * number "log_Dist" r))));
                        ("Ai1", VNum (Ai1_of prodSim (number "Dj2_destsal") r));
                        ("A_i", VNum (A_of prodSim df (number "Dj2_destsal") r));
                        ("prodsimest3", VNum (rint (balanced_of prodSim df (number "Dj2_destsal") r)))]) df)
  = Some ((map (fun r => r ++ [("O_i", VNum (O_i_of df r));
                        ("D_j", VNum (D_j_of df r));
                        ("alpha_i", VNum (alpha_of prodSim r));
                        ("prodsimest1", VNum (rint (lambda_of prodSim r)));
                        ("Dj3_destsalScenario", VNum (scenario_salary r));
                        ("prodsimest2",
    VNum (rint (exp (alpha_of prodSim r + gamma_of prodSim * ln (scenario_salary r)
                     - beta_of prodSim * number "log_Dist" r))));
                        ("Ai1", VNum (Ai1_of prodSim scenario_salary r));
                        ("A_i", VNum (A_of prodSim df (number "Dj2_destsal") r));
                        ("prodsimest3", VNum (rint (balanced_of prodSim df (number "Dj2_destsal") r)));
                        ("A_i2", VNum (A_of prodSim df scenario_salary r))]) df),
          attraction_column prodSim df scenario_salary).
Proof.
  unfold cell40.
  rewrite (column_rows df "Dj3_destsalScenario" _
             (fun r => VNum (scenario_salary r)))
    by (intros r Hr; pose proof (facts r Hr) as Fr; row_get).
  cbn [bind]. rewrite map1_rows.
  rewrite (map_ext_in _ (fun r => VNum (Rpower (scenario_salary r)
                                               (gamma_of prodSim))))
    by (intros r Hr; now apply fpow_pos, scenario_salary_pos).
  cbn [bind].
  change (map (fun r => VNum (Rpower (scenario_salary r) (gamma_of prodSim))) df)
    with (attraction_column prodSim df scenario_salary).
  rewrite (balancing_rows "A_i2" scenario_salary
             (fun r => [("O_i", VNum (O_i_of df r));
            ("D_j", VNum (D_j_of df r));
            ("alpha_i", VNum (alpha_of prodSim r));
            ("prodsimest1", VNum (rint (lambda_of prodSim r)));
            ("Dj3_destsalScenario", VNum (scenario_salary r));
            ("prodsimest2",
    VNum (rint (exp (alpha_of prodSim r + gamma_of prodSim * ln (scenario_salary r)
                     - beta_of prodSim * number "log_Dist" r))));
            ("Ai1", VNum (Ai1_of prodSim (number "Dj2_destsal") r));
            ("A_i", VNum (A_of prodSim df (number "Dj2_destsal") r));
            ("prodsimest3", VNum (rint (balanced_of prodSim df (number "Dj2_destsal") r)))]));
    [| reflexivity | intros; reflexivity].
  reflexivity.
Qed.

Lemma cell42_rows :
  cell42 (attraction_column prodSim df scenario_salary)
         (dist_beta_column prodSim df) (map (fun r => r ++ [("O_i", VNum (O_i_of df r));
                        ("D_j", VNum (D_j_of df r));
                        ("alpha_i", VNum (alpha_of prodSim r));
                        ("prodsimest1", VNum (rint (lambda_of prodSim r)));
                        ("Dj3_destsalScenario", VNum (scenario_salary r));
                        ("prodsimest2",
    VNum (rint (exp (alpha_of prodSim r + gamma_of prodSim * ln (scenario_salary r)
                     - beta_of prodSim * number "log_Dist" r))));
                        ("Ai1", VNum (Ai1_of prodSim scenario_salary r));
                        ("A_i", VNum (A_of prodSim df (number "Dj2_destsal") r));
                        ("prodsimest3", VNum (rint (balanced_of prodSim df (number "Dj2_destsal") r)));
                        ("A_i2", VNum (A_of prodSim df scenario_salary r))]) df)
  = Some (map (fun r => r ++ [("O_i", VNum (O_i_of df r));
                        ("D_j", VNum (D_j_of df r));
                        ("alpha_i", VNum (alpha_of prodSim r));
                        ("prodsimest1", VNum (rint (lambda_of prodSim r)));
                        ("Dj3_destsalScenario", VNum (scenario_salary r));
                        ("prodsimest2",
    VNum (rint (exp (alpha_of prodSim r + gamma_of prodSim * ln (scenario_salary r)
                     - beta_of prodSim * number "log_Dist" r))));
                        ("Ai1", VNum (Ai1_of prodSim scenario_salary r));
                        ("A_i", VNum (A_of prodSim df (number "Dj2_destsal") r));
                        ("prodsimest3", VNum (rint (balanced_of prodSim df (number "Dj2_destsal") r)));
                        ("A_i2", VNum (A_of prodSim df scenario_salary r));
                        ("prodsimest4", VNum (rint (balanced_of prodSim df scenario_salary r)))]) df).
Proof.
  unfold cell42.
  rewrite (constrained_estimate_rows "prodsimest4" "A_i2" scenario_salary
             (fun r => [("O_i", VNum (O_i_of df r));
            ("D_j", VNum (D_j_of df r));
            ("alpha_i", VNum (alpha_of prodSim r));
            ("prodsimest1", VNum (rint (lambda_of prodSim r)));
            ("Dj3_destsalScenario", VNum (scenario_salary r));
            ("prodsimest2",
    VNum (rint (exp (alpha_of prodSim r + gamma_of prodSim * ln (scenario_salary r)
                     - beta_of prodSim * number "log_Dist" r))));
            ("Ai1", VNum (Ai1_of prodSim scenario_salary r));
            ("A_i", VNum (A_of prodSim df (number "Dj2_destsal") r));
            ("prodsimest3", VNum (rint (balanced_of prodSim df (number "Dj2_destsal") r)));
            ("A_i2", VNum (A_of prodSim df scenario_salary r))])
             (A_of prodSim df scenario_salary));
    try reflexivity; intros; reflexivity.
Qed.

Hypothesis Hattr : attrSim_design df attrSim.

Lemma lookup_coef (p : Params) (n : string) :
  lookup n p <> None -> lookup n p = Some (coef n p).
Proof. intros H. now apply lookup_in, lookup_some_in. Qed.

Lemma predict_mean_rows (r e : row) :
  In r df ->
  predict_mean "DestCodeNew" "log_Oi1_origpop" "log_Dist" attrSim (r ++ e)
  = Some (VNum (mu_of attrSim r)).
Proof.
  intros Hr. pose proof (facts r Hr) as Fr.
  destruct Hattr as [H1 [H2 H3]]. rewrite Forall_forall in H3.
  unfold predict_mean, linear_predictor, mu_of.
  rewrite (get_app_l _ _ _ _ (rf_dest r Fr)).
  rewrite (get_app_l _ _ _ _ (rf_logpop r Fr)).
  rewrite (get_app_l _ _ _ _ (rf_logdist r Fr)).
  cbn [bind].
  rewrite (lookup_coef _ _ (H3 r Hr)), (lookup_coef _ _ H1),
    (lookup_coef _ _ H2).
  reflexivity.
Qed.

Lemma cell48_rows :
  cell48 attrSim (map (fun r => r ++ [("O_i", VNum (O_i_of df r));
                        ("D_j", VNum (D_j_of df r));
                        ("alpha_i", VNum (alpha_of prodSim r));
                        ("prodsimest1", VNum (rint (lambda_of prodSim r)));
                        ("Dj3_destsalScenario", VNum (scenario_salary r));
                        ("prodsimest2",
    VNum (rint (exp (alpha_of prodSim r + gamma_of prodSim * ln (scenario_salary r)
                     - beta_of prodSim * number "log_Dist" r))));
                        ("Ai1", VNum (Ai1_of prodSim scenario_salary r));
                        ("A_i", VNum (A_of prodSim df (number "Dj2_destsal") r));
                        ("prodsimest3", VNum (rint (balanced_of prodSim df (number "Dj2_destsal") r)));
                        ("A_i2", VNum (A_of prodSim df scenario_salary r));
                        ("prodsimest4", VNum (rint (balanced_of prodSim df scenario_salary r)))]) df)
  = Some (map (fun r => r ++ [("O_i", VNum (O_i_of df r));
                        ("D_j", VNum (D_j_of df r));
                        ("alpha_i", VNum (alpha_of prodSim r));
                        ("prodsimest1", VNum (rint (lambda_of prodSim r)));
                        ("Dj3_destsalScenario", VNum (scenario_salary r));
                        ("prodsimest2",
    VNum (rint (exp (alpha_of prodSim r + gamma_of prodSim * ln (scenario_salary r)
                     - beta_of prodSim * number "log_Dist" r))));
                        ("Ai1", VNum (Ai1_of prodSim scenario_salary r));
                        ("A_i", VNum (A_of prodSim df (number "Dj2_destsal") r));
                        ("prodsimest3", VNum (rint (balanced_of prodSim df (number "Dj2_destsal") r)));
                        ("A_i2", VNum (A_of prodSim df scenario_salary r));
                        ("prodsimest4", VNum (rint (balanced_of prodSim df scenario_salary r)));
                        ("attrsimFitted", VNum (rint (mu_of attrSim r)))]) df).
Proof.
  unfold cell48.
  rewrite (mapM_rows df _ _ (fun r => VNum (mu_of attrSim r)))
    by (intros r Hr; now apply predict_mean_rows).
  cbn [bind]. rewrite map1_rows. unfold fround. cbn [bind].
  rewrite set_column_rows. f_equal. apply map_ext_in.
  intros r Hr. pose proof (facts r Hr) as Fr. row_set.
Qed.

(** The whole run on a well-formed table: it raises nothing, and every
    row comes out as itself followed by the derived columns. *)
Lemma notebook_rows :
  notebook prodSim attrSim df
  = Some (map (fun r => r ++ derived prodSim attrSim df r) df).
Proof.
  replace (notebook prodSim attrSim df)
    with (notebook prodSim attrSim (map (fun r => r) df))
    by now rewrite map_id.
  unfold notebook.
  rewrite cell14_rows. cbn [bind].
  rewrite cell16_rows. cbn [bind].
  rewrite (cell18_design levels df prodSim Hdesign). cbn [bind].
  rewrite cell22_rows. cbn [bind].
  rewrite cell24_rows. cbn [bind].
  rewrite cell32_rows. cbn [bind].
  rewrite cell34_rows. cbn [bind].
  rewrite cell36_rows. cbn [bind].
  rewrite cell38_rows. cbn [bind].
  rewrite cell40_rows. cbn [bind].
  rewrite cell42_rows. cbn [bind].
  rewrite cell48_rows. reflexivity.
Qed.

End Cells.

End NotebookFacts.

(** ** Maximum likelihood fixes the margins *)

Module Likelihood.
Import Num NumFacts Frame FrameFacts Notebook NotebookFacts.

Lemma exp_one_minus (t : R) : exp t * (1 - t) <= 1.
Proof.
  pose proof (exp_ineq1_le (- t)) as H. pose proof (exp_pos t) as Hp.
  assert (E : exp t * exp (- t) = 1) by (rewrite <- exp_plus, Rplus_opp_r; apply exp_0).
  nra.
Qed.

(** A number below every small positive multiple of [b] is not positive. *)
Lemma below_small_multiples (a b : R) :
  (forall t, 0 < t < 1 -> a <= b * t) -> a <= 0.
Proof.
  intros H. destruct (Rle_lt_dec a 0) as [Hle | Hpos]; [assumption | exfalso].
  destruct (Rle_lt_dec b 0) as [Hb | Hb].
  - specialize (H (1 / 2)). nra.
  - destruct (Rle_lt_dec (2 * b) a) as [Hbig | Hsmall].
    + specialize (H (1 / 2)). nra.
    + assert (Ht : 0 < a / (2 * b) < 1).
      { split.
        - apply Rdiv_lt_0_compat; lra.
        - apply (Rmult_lt_reg_r (2 * b)); [lra |].
          unfold Rdiv. rewrite Rmult_assoc, Rinv_l by lra. lra. }
      specialize (H _ Ht).
      replace (b * (a / (2 * b))) with (a / 2) in H by (field; lra). lra.
Qed.

(** The first-order condition of one indicator coefficient: if moving the
    coefficient by any [t] never raises O t - M (exp t - 1), then O = M. *)
Lemma stationary_margin (O M : R) :
  0 <= M -> (forall t, O * t - M * (exp t - 1) <= 0) -> O = M.
Proof.
  intros HM H. apply Rle_antisym.
  - assert (O - M <= 0); [| lra].
    apply (below_small_multiples _ O). intros t [Ht0 Ht1].
    pose proof (H t) as Hpos. pose proof (exp_one_minus t) as He.
    assert (H1 : O * t * (1 - t) <= M * (exp t - 1) * (1 - t)).
    { apply Rmult_le_compat_r; lra. }
    assert (H2 : M * ((exp t - 1) * (1 - t)) <= M * t).
    { apply Rmult_le_compat_l; lra. }
    assert (H3 : (O * (1 - t)) * t <= M * t) by lra.
    apply Rmult_le_reg_r in H3; lra.
  - assert (M - O <= 0); [| lra].
    apply (below_small_multiples _ O). intros t [Ht0 Ht1].
    pose proof (H (- t)) as Hneg. pose proof (exp_one_minus (- t)) as He.
    assert (H1 : (O * - t - M * (exp (- t) - 1)) * (1 + t) <= 0 * (1 + t)).
    { apply Rmult_le_compat_r; lra. }
    assert (H2 : M * ((exp (- t) - 1) * (1 + t)) <= M * - t).
    { apply Rmult_le_compat_l; lra. }
    assert (H3 : M * t <= (O * (1 + t)) * t) by lra.
    apply Rmult_le_reg_r in H3; lra.
Qed.

Lemma append_inj_l (p a b : string) : (p ++ a)%string = (p ++ b)%string -> a = b.
Proof.
  induction p as [| c p IH]; simpl; intros H; [assumption |].
  injection H as H. now apply IH.
Qed.

Lemma append_bracket_inj (a b : string) :
  (a ++ "]")%string = (b ++ "]")%string -> a = b.
Proof.
  revert b. induction a as [| c a IH]; intros [| d b] H; simpl in H.
  - reflexivity.
  - injection H as _ H. destruct b; discriminate.
  - injection H as _ H. destruct a; discriminate.
  - injection H as -> H. f_equal. now apply IH.
Qed.

Lemma dummy_inj (f l l' : string) : dummy f l = dummy f l' -> l = l'.
Proof.
  unfold dummy. intros H. apply append_inj_l in H.
  apply (append_inj_l "[") in H. now apply append_bracket_inj.
Qed.

Lemma set_coef_names (n : string) (a : R) (q : Params) :
  map fst (set_coef n a q) = map fst q.
Proof.
  unfold set_coef. rewrite map_map. apply map_ext. intros [k v]. simpl.
  now destruct (String.eqb k n).
Qed.

Lemma lookup_set_coef (n m : string) (a : R) (q : Params) :
  lookup m (set_coef n a q)
  = if String.eqb m n then option_map (fun _ => a) (lookup m q)
    else lookup m q.
Proof.
  induction q as [| [k v] q IH]; simpl.
  - now destruct (String.eqb m n).
  - destruct (String.eqb_spec k n) as [-> | Hkn]; simpl.
    + destruct (String.eqb_spec n m) as [<- | Hnm].
      * now rewrite String.eqb_refl.
      * rewrite IH. destruct (String.eqb_spec m n); [congruence | reflexivity].
    + destruct (String.eqb_spec k m) as [<- | Hkm].
      * destruct (String.eqb_spec k n); [contradiction | reflexivity].
      * exact IH.
Qed.

Section Score.
Variables f x1 x2 : string.
Hypothesis Hx1 : forall l, dummy f l <> x1.
Hypothesis Hx2 : forall l, dummy f l <> x2.
Variable p : Params.
Variable s : string.

Lemma loglik_cons (r : row) (df : DataFrame) (q : Params) :
  loglik f x1 x2 (r :: df) q
  = match linear_predictor f x1 x2 q r, get "Total" r, loglik f x1 x2 df q with
    | Some e, Some (VNum y), Some L => Some (y * e - exp e + L)
    | _, _, _ => None
    end.
Proof.
  unfold loglik. simpl.
  destruct (linear_predictor f x1 x2 q r) as [e |]; simpl; [| reflexivity].
  destruct (get "Total" r) as [[t | y |] |]; simpl; try reflexivity.
  destruct (mapM _ df); reflexivity.
Qed.

Lemma linear_predictor_set_coef (a : R) (r : row) (e : R) :
  linear_predictor f x1 x2 p r = Some e ->
  linear_predictor f x1 x2 (set_coef (dummy f s) a p) r
  = Some (if holds f (VStr s) r then e + (a - coef (dummy f s) p) else e).
Proof.
  unfold linear_predictor, holds.
  destruct (get f r) as [[l | |] |]; simpl; try discriminate;
    destruct (get x1 r) as [[| u |] |]; simpl; try discriminate;
    destruct (get x2 r) as [[| w |] |]; simpl; try discriminate.
  rewrite !lookup_set_coef.
  destruct (String.eqb_spec x1 (dummy f s)) as [E | _];
    [exfalso; exact (Hx1 s (eq_sym E)) |].
  destruct (String.eqb_spec x2 (dummy f s)) as [E | _];
    [exfalso; exact (Hx2 s (eq_sym E)) |].
  destruct (String.eqb_spec l s) as [-> | Hls].
  - rewrite String.eqb_refl. unfold coef.
    destruct (lookup (dummy f s) p) as [c0 |]; simpl; [| discriminate].
    destruct (lookup x1 p) as [c1 |]; simpl; [| discriminate].
    destruct (lookup x2 p) as [c2 |]; simpl; [| discriminate].
    intros H. injection H as <-. f_equal. ring.
  - destruct (String.eqb_spec (dummy f l) (dummy f s)) as [E | _];
      [exfalso; apply Hls; now apply dummy_inj in E |].
    tauto.
Qed.

Lemma loglik_set_coef (a : R) (df : DataFrame) (L : R) :
  loglik f x1 x2 df p = Some L ->
  loglik f x1 x2 df (set_coef (dummy f s) a p)
  = Some (L + total "Total" (rows_where f (VStr s) df)
              * (a - coef (dummy f s) p)
            - sum (map (fun r => exp (eta f x1 x2 p r))
                       (rows_where f (VStr s) df))
              * (exp (a - coef (dummy f s) p) - 1)).
Proof.
  revert L. induction df as [| r df IH]; intros L.
  - unfold loglik, total. simpl. intros H. injection H as <-. f_equal. ring.
  - rewrite !loglik_cons.
    destruct (linear_predictor f x1 x2 p r) as [e |] eqn:He; [| discriminate].
    rewrite (linear_predictor_set_coef a r e He).
    destruct (get "Total" r) as [[t | y |] |] eqn:Hy; try discriminate.
    destruct (loglik f x1 x2 df p) as [L' |]; [| discriminate].
    rewrite (IH L' eq_refl). intros H. injection H as <-. f_equal.
    unfold rows_where, total. simpl.
    destruct (holds f (VStr s) r); simpl.
    + assert (En : number "Total" r = y) by (unfold number; now rewrite Hy).
      assert (Ee : eta f x1 x2 p r = e) by (unfold eta; now rewrite He).
      rewrite En, Ee, exp_plus. ring.
    + ring.
Qed.

Lemma sum_exp_nonneg (g : row -> R) (l : DataFrame) :
  0 <= sum (map (fun r => exp (g r)) l).
Proof.
  induction l as [| r l IH]; simpl; [lra |].
  pose proof (exp_pos (g r)). lra.
Qed.

(** The likelihood equations of the indicator coefficients: under a
    maximum-likelihood fit the fitted means of each level add up to the
    observed total of that level. *)
Lemma mle_margin (df : DataFrame) :
  poisson_mle f x1 x2 df p ->
  total "Total" (rows_where f (VStr s) df)
  = sum (map (fun r => exp (eta f x1 x2 p r)) (rows_where f (VStr s) df)).
Proof.
  intros [L [HL Hmax]]. apply stationary_margin; [apply sum_exp_nonneg |].
  intros t.
  pose proof (loglik_set_coef (coef (dummy f s) p + t) df L HL) as Hq.
  replace (coef (dummy f s) p + t - coef (dummy f s) p) with t in Hq by ring.
  specialize (Hmax _ _ (set_coef_names _ _ _) Hq). lra.
Qed.

End Score.

End Likelihood.

(** ** The small flow table *)

Module SampleFacts.
Import Num NumFacts Frame FrameFacts Notebook NotebookFacts Likelihood Sample.

(** Parameters that reproduce every flow maximise the likelihood. *)
Lemma perfect_fit_mle (f x1 x2 : string) (df : DataFrame) (p : Params) :
  Forall (fun r => exists e, linear_predictor f x1 x2 p r = Some e /\
                             get "Total" r = Some (VNum (exp e))) df ->
  poisson_mle f x1 x2 df p.
Proof.
  intros H. unfold poisson_mle.
  induction H as [| r df [e [He Hy]] Hdf [L [HL Hmax]]].
  - exists 0. split; [reflexivity |]. intros q l' _ E.
    unfold loglik in E. simpl in E. injection E as <-. lra.
  - exists (exp e * e - exp e + L). split.
    + rewrite loglik_cons, He, Hy, HL. reflexivity.
    + intros q l' Hn. rewrite loglik_cons, Hy.
      destruct (linear_predictor f x1 x2 q r) as [e' |]; [| discriminate].
      destruct (loglik f x1 x2 df q) as [L' |] eqn:HL'; [| discriminate].
      intros E. injection E as <-.
      specialize (Hmax q L' Hn HL').
      pose proof (exp_ineq1_le (e' - e)) as Hi.
      pose proof (exp_pos e) as Hp.
      assert (Ee : exp e' = exp e * exp (e' - e)).
      { rewrite <- exp_plus. f_equal. ring. }
      rewrite Ee.
      assert (exp e * (1 + (e' - e)) <= exp e * exp (e' - e))
        by (apply Rmult_le_compat_l; lra).
      lra.
Qed.

Lemma sample_flow_table : flow_table cdatasub.
Proof.
  unfold flow_table, cdatasub.
  repeat constructor; try reflexivity; unfold number; simpl; lra.
Qed.

Lemma sample_prodSim_design : prodSim_design levels cdatasub prodSim.
Proof.
  unfold prodSim_design. split; [reflexivity |]. split; [reflexivity |].
  split; [| split].
  - unfold levels.
    repeat (constructor; [simpl; intuition discriminate |]). constructor.
  - unfold levels.
    repeat (constructor;
            [split; [reflexivity | split; discriminate] |]).
    constructor.
  - unfold cdatasub, levels.
    repeat (constructor; [simpl; tauto |]). constructor.
Qed.

Lemma sample_attrSim_design : attrSim_design cdatasub attrSim.
Proof.
  unfold attrSim_design. split; [simpl; discriminate |].
  split; [simpl; discriminate |].
  unfold cdatasub. repeat (constructor; [simpl; discriminate |]). constructor.
Qed.

Lemma exp_ln2_twice : exp (ln 2 + ln 2) = 4.
Proof. rewrite exp_plus, exp_ln by lra. lra. Qed.

(** Closes a goal [get "Total" r = Some (VNum (exp e))] on a row of the
    sample whose flow is 1, 2 or 4. *)
Ltac sample_flow :=
  simpl; do 2 f_equal; symmetry;
  match goal with
  | |- exp ?e = 1 => replace e with 0 by ring; apply exp_0
  | |- exp ?e = 2 => replace e with (ln 2) by ring; apply exp_ln; lra
  | |- exp ?e = 4 => replace e with (ln 2 + ln 2) by ring; apply exp_ln2_twice
  end.

Lemma sample_prodSim_mle :
  poisson_mle "OrigCodeNew" "log_Dj2_destsal" "log_Dist" cdatasub prodSim.
Proof.
  apply perfect_fit_mle. unfold cdatasub.
  repeat (constructor; [eexists; split; [reflexivity | sample_flow] |]).
  constructor.
Qed.

Lemma sample_attrSim_mle :
  poisson_mle "DestCodeNew" "log_Oi1_origpop" "log_Dist" cdatasub attrSim.
Proof.
  apply perfect_fit_mle. unfold cdatasub.
  repeat (constructor; [eexists; split; [reflexivity | sample_flow] |]).
  constructor.
Qed.

End SampleFacts.

(** ** The margins of the constrained models *)

Module Constraints.
Import Num NumFacts Frame FrameFacts Notebook NotebookFacts Likelihood.

Lemma rows_where_map (c : string) (v : value) (F : row -> row) (df : DataFrame) :
  (forall r, In r df -> get c (F r) = get c r) ->
  rows_where c v (map F df) = map F (rows_where c v df).
Proof.
  unfold rows_where. induction df as [| r df IH]; intros H; simpl;
    [reflexivity |].
  assert (E : holds c v (F r) = holds c v r)
    by (unfold holds; now rewrite (H r) by now left).
  rewrite E, IH by (intros; apply H; now right).
  now destruct (holds c v r).
Qed.

Lemma holds_text (c : string) (s : string) (r : row) :
  holds c (VStr s) r = true -> get c r = Some (VStr (text c r)) ->
  text c r = s.
Proof.
  unfold holds. intros H E. rewrite E in H. simpl in H.
  now apply String.eqb_eq.
Qed.

Lemma in_rows_where_inv (c : string) (v : value) (df : DataFrame) (r : row) :
  In r (rows_where c v df) -> In r df /\ holds c v r = true.
Proof. unfold rows_where. apply filter_In. Qed.

Lemma dummy_dest_not_logpop (l : string) :
  dummy "DestCodeNew" l <> "log_Oi1_origpop".
Proof. unfold dummy. simpl. discriminate. Qed.

Lemma dummy_dest_not_logdist (l : string) : dummy "DestCodeNew" l <> "log_Dist".
Proof. unfold dummy. simpl. discriminate. Qed.

Section Margins.
Variables prodSim attrSim : Params.
Variable levels : list string.
Variable df : DataFrame.
Hypothesis Hflow : flow_table df.
Hypothesis Hprod : prodSim_design levels df prodSim.
Hypothesis Hattr : attrSim_design df attrSim.

Let facts : forall r, In r df -> row_facts r := flow_table_facts df Hflow.

Lemma derived_cell (c : string) (r : row) :
  In r df -> existsb (String.eqb c) derived_columns = true ->
  get c (r ++ derived prodSim attrSim df r)
  = get c (derived prodSim attrSim df r).
Proof.
  intros Hr Hc. apply get_app_r. now apply (rf_fresh r (facts r Hr)).
Qed.

(** The linear predictor of the production-constrained fit on a row. *)
Lemma eta_prodSim (r : row) :
  In r df ->
  exp (eta "OrigCodeNew" "log_Dj2_destsal" "log_Dist" prodSim r)
  = lambda_of prodSim r.
Proof.
  intros Hr. pose proof (facts r Hr) as Fr.
  unfold eta, linear_predictor, lambda_of, alpha_of, gamma_of, beta_of.
  rewrite (rf_orig r Fr), (rf_logsal r Fr), (rf_logdist r Fr). cbn [bind].
  rewrite (lookup_in _ _ (design_level_name levels df prodSim Hprod r Hr)).
  destruct Hprod as [Hn _]. unfold design_names in Hn.
  rewrite (lookup_in prodSim "log_Dj2_destsal")
    by (rewrite Hn, in_app_iff; right; now left).
  rewrite (lookup_in prodSim "log_Dist")
    by (rewrite Hn, in_app_iff; right; right; now left).
  cbn [bind]. f_equal. ring.
Qed.

Lemma eta_attrSim (r : row) :
  In r df ->
  exp (eta "DestCodeNew" "log_Oi1_origpop" "log_Dist" attrSim r)
  = mu_of attrSim r.
Proof.
  intros Hr. pose proof (facts r Hr) as Fr.
  destruct Hattr as [H1 [H2 H3]]. rewrite Forall_forall in H3.
  unfold eta, linear_predictor, mu_of.
  rewrite (rf_dest r Fr), (rf_logpop r Fr), (rf_logdist r Fr). cbn [bind].
  rewrite (lookup_coef _ _ (H3 r Hr)), (lookup_coef _ _ H1),
    (lookup_coef _ _ H2).
  reflexivity.
Qed.

(** The rounded column [c] of the final table, summed over the rows of
    one level of [f], against the sum of the unrounded values. *)
Lemma rounded_margin (f c : string) (s : string) (x : row -> R) :
  (forall r, In r df -> get f r = Some (VStr (text f r))) ->
  (forall r, In r df ->
     get c (r ++ derived prodSim attrSim df r) = Some (VNum (rint (x r)))) ->
  let out := rows_where f (VStr s)
               (map (fun r => r ++ derived prodSim attrSim df r) df) in
  Rabs (total c out - sum (map x (rows_where f (VStr s) df)))
  <= INR (length out) / 2.
Proof.
  intros Hf Hc out. unfold out.
  rewrite rows_where_map
    by (intros r Hr; rewrite (Hf r Hr); apply get_app_l, (Hf r Hr)).
  unfold total. rewrite map_map, length_map.
  rewrite (map_ext_in _ (fun r => rint (x r))).
  2:{ intros r Hr. apply rows_where_incl in Hr. unfold number.
      now rewrite (Hc r Hr). }
  rewrite <- (length_map x), <- (map_map x rint).
  apply sum_rint_error.
Qed.

End Margins.

Lemma sum_map_scale {A : Type} (c : R) (w : A -> R) (l : list A) :
  sum (map (fun a => c * w a) l) = c * sum (map w l).
Proof. induction l as [| a l IH]; simpl; [ring | rewrite IH; ring]. Qed.

(** Equations (1) and (3) as the notebook writes them, with the distance
    to the power -beta, do reproduce the fitted estimates: on a table whose
    logarithm columns are the logarithms of the salary and distance columns,
    a maximum-likelihood fit satisfies
    A_i O_i D_j^gamma d_ij^(-beta) = exp(alpha_i + gamma log D_j - beta log d_ij). *)
Lemma equations_reproduce_fit
  (prodSim : Params) (levels : list string) (df : DataFrame) (r : row) :
  flow_table df ->
  prodSim_design levels df prodSim ->
  poisson_mle "OrigCodeNew" "log_Dj2_destsal" "log_Dist" df prodSim ->
  (forall r', In r' df ->
     number "log_Dj2_destsal" r' = ln (number "Dj2_destsal" r') /\
     number "log_Dist" r' = ln (number "Dist" r')) ->
  In r df ->
  T_ij_equation (gamma_of prodSim) (beta_of prodSim)
    (A_i_equation (gamma_of prodSim) (beta_of prodSim) (same_origin df r))
    (O_i_of df r) r
  = lambda_of prodSim r.
Proof.
  intros Hflow Hprod Hmle Hlog Hr.
  pose proof (flow_table_facts df Hflow) as facts.
  set (w := fun r' : row =>
              Rpower (number "Dj2_destsal" r') (gamma_of prodSim)
              * Rpower (number "Dist" r') (- beta_of prodSim)).
  assert (Hlam : forall r', In r' df ->
            lambda_of prodSim r' = exp (alpha_of prodSim r') * w r').
  { intros r' Hr'. destruct (Hlog r' Hr') as [E1 E2].
    unfold lambda_of, w, Rpower. rewrite E1, E2, <- !exp_plus. f_equal. ring. }
  assert (Hw : forall r', 0 < w r')
    by (intros; unfold w; apply Rmult_lt_0_compat; apply Rpower_pos).
  assert (HO : O_i_of df r
               = exp (alpha_of prodSim r) * sum (map w (same_origin df r))).
  { unfold O_i_of, same_origin.
    rewrite (mle_margin "OrigCodeNew" "log_Dj2_destsal" "log_Dist"
               dummy_not_logsal dummy_not_logdist prodSim _ df Hmle).
    rewrite <- sum_map_scale. f_equal. apply map_ext_in. intros r' Hr'.
    apply in_rows_where_inv in Hr'. destruct Hr' as [Hr' Hh].
    apply holds_text in Hh; [| exact (rf_orig r' (facts r' Hr'))].
    rewrite (eta_prodSim prodSim levels df Hflow Hprod r' Hr'), (Hlam r' Hr').
    unfold alpha_of. now rewrite Hh. }
  assert (HS : 0 < sum (map w (same_origin df r))).
  { apply sum_pos.
    - pose proof (in_rows_where "OrigCodeNew" r df Hr (rf_orig r (facts r Hr)))
        as Hin.
      unfold same_origin. intros E. apply map_eq_nil in E.
      rewrite E in Hin. exact Hin.
    - apply Forall_map, Forall_forall. intros; apply Hw. }
  rewrite (Hlam r Hr). unfold T_ij_equation, A_i_equation.
  rewrite HO. subst w. cbv beta in *.
  set (S := sum _) in *. field. lra.
Qed.

(** C1: on a well-formed table with the maximum-likelihood parameters of
    the production-constrained model, the rows of every origin i carry
    O_i, the sum of [Total] over the origin's rows, and the estimate
    round(exp(alpha_i + gamma log D_j - beta log d_ij)); the estimates of
    the origin add up to O_i up to half a unit per row. *)
Theorem production_constrained_margins
  (prodSim attrSim : Params) (levels : list string) (df df' : DataFrame)
  (alpha : Params) (gamma beta : R) (i : string) :
  flow_table df ->
  prodSim_design levels df prodSim ->
  attrSim_design df attrSim ->
  poisson_mle "OrigCodeNew" "log_Dj2_destsal" "log_Dist" df prodSim ->
  cell18 prodSim = Some (alpha, gamma, beta) ->
  notebook prodSim attrSim df = Some df' ->
  let O_i := total "Total" (rows_where "OrigCodeNew" (VStr i) df) in
  let out := rows_where "OrigCodeNew" (VStr i) df' in
  Forall (fun r' =>
            get "O_i" r' = Some (VNum O_i) /\
            get "prodsimest1" r'
            = Some (VNum (rint (exp (number "alpha_i" r'
                                     + gamma * number "log_Dj2_destsal" r'
                                     - beta * number "log_Dist" r'))))) out
  /\ Rabs (total "prodsimest1" out - O_i) <= INR (length out) / 2.
Proof.
  intros Hflow Hprod Hattr Hmle H18 Hrun O_i out.
  pose proof (flow_table_facts df Hflow) as facts.
  rewrite (cell18_design levels df prodSim Hprod) in H18.
  injection H18 as _ <- <-.
  rewrite (notebook_rows prodSim attrSim df Hflow levels Hprod Hattr) in Hrun.
  injection Hrun as <-. subst O_i out. split.
  - rewrite rows_where_map.
    2:{ intros r Hr. rewrite (rf_orig r (facts r Hr)).
        apply get_app_l, (rf_orig r (facts r Hr)). }
    apply Forall_map, Forall_forall. intros r Hr.
    apply in_rows_where_inv in Hr. destruct Hr as [Hr Hh].
    pose proof (facts r Hr) as Fr.
    apply holds_text in Hh; [| exact (rf_orig r Fr)].
    split.
    + rewrite (derived_cell prodSim attrSim df Hflow "O_i" r Hr eq_refl).
      simpl. unfold O_i_of, same_origin. now rewrite Hh.
    + rewrite (derived_cell prodSim attrSim df Hflow "prodsimest1" r Hr eq_refl).
      simpl. do 3 f_equal. unfold lambda_of, number.
      rewrite (derived_cell prodSim attrSim df Hflow "alpha_i" r Hr eq_refl).
      rewrite (get_app_l _ _ _ _ (rf_logsal r Fr)).
      rewrite (get_app_l _ _ _ _ (rf_logdist r Fr)).
      simpl. rewrite (rf_logsal r Fr), (rf_logdist r Fr). reflexivity.
  - rewrite (mle_margin "OrigCodeNew" "log_Dj2_destsal" "log_Dist"
               dummy_not_logsal dummy_not_logdist prodSim i df Hmle).
    rewrite (map_ext_in _ (lambda_of prodSim)).
    2:{ intros r Hr. apply rows_where_incl in Hr.
        now apply (eta_prodSim prodSim levels df Hflow Hprod). }
    apply (rounded_margin prodSim attrSim df "OrigCodeNew" "prodsimest1").
    + intros r Hr. exact (rf_orig r (facts r Hr)).
    + intros r Hr.
      now rewrite (derived_cell prodSim attrSim df Hflow "prodsimest1" r Hr
                     eq_refl).
Qed.

(** C2: on a well-formed table with the maximum-likelihood parameters of
    the attraction-constrained model, the rows of every destination j carry
    D_j, the sum of [Total] over the destination's rows, and the rounded
    fitted mean of the model; the fitted flows into the destination add up
    to D_j up to half a unit per row. *)
Theorem attraction_constrained_margins
  (prodSim attrSim : Params) (levels : list string) (df df' : DataFrame)
  (j : string) :
  flow_table df ->
  prodSim_design levels df prodSim ->
  attrSim_design df attrSim ->
  poisson_mle "DestCodeNew" "log_Oi1_origpop" "log_Dist" df attrSim ->
  notebook prodSim attrSim df = Some df' ->
  let D_j := total "Total" (rows_where "DestCodeNew" (VStr j) df) in
  let into := rows_where "DestCodeNew" (VStr j) df' in
  Forall (fun r' =>
            get "D_j" r' = Some (VNum D_j) /\
            exists m,
              predict_mean "DestCodeNew" "log_Oi1_origpop" "log_Dist"
                           attrSim r' = Some (VNum m) /\
              get "attrsimFitted" r' = Some (VNum (rint m))) into
  /\ Rabs (total "attrsimFitted" into - D_j) <= INR (length into) / 2.
Proof.
  intros Hflow Hprod Hattr Hmle Hrun D_j into.
  pose proof (flow_table_facts df Hflow) as facts.
  rewrite (notebook_rows prodSim attrSim df Hflow levels Hprod Hattr) in Hrun.
  injection Hrun as <-. subst D_j into. split.
  - rewrite rows_where_map.
    2:{ intros r Hr. rewrite (rf_dest r (facts r Hr)).
        apply get_app_l, (rf_dest r (facts r Hr)). }
    apply Forall_map, Forall_forall. intros r Hr.
    apply in_rows_where_inv in Hr. destruct Hr as [Hr Hh].
    pose proof (facts r Hr) as Fr.
    apply holds_text in Hh; [| exact (rf_dest r Fr)].
    split.
    + rewrite (derived_cell prodSim attrSim df Hflow "D_j" r Hr eq_refl).
      simpl. unfold D_j_of, same_destination. now rewrite Hh.
    + exists (mu_of attrSim r). split.
      * now apply (predict_mean_rows attrSim df Hflow Hattr).
      * now rewrite (derived_cell prodSim attrSim df Hflow "attrsimFitted" r
                       Hr eq_refl).
  - rewrite (mle_margin "DestCodeNew" "log_Oi1_origpop" "log_Dist"
               dummy_dest_not_logpop dummy_dest_not_logdist attrSim j df Hmle).
    rewrite (map_ext_in _ (mu_of attrSim)).
    2:{ intros r Hr. apply rows_where_incl in Hr.
        now apply (eta_attrSim attrSim df Hflow Hattr). }
    apply (rounded_margin prodSim attrSim df "DestCodeNew" "attrsimFitted").
    + intros r Hr. exact (rf_dest r (facts r Hr)).
    + intros r Hr.
      now rewrite (derived_cell prodSim attrSim df Hflow "attrsimFitted" r Hr
                     eq_refl).
Qed.

End Constraints.

(** ** The run on the small table, the frame property, the scenario *)

Module Run.
Import Num NumFacts Frame FrameFacts Notebook NotebookFacts Likelihood.
Import Constraints Sample SampleFacts.

Lemma sample_run :
  notebook prodSim attrSim cdatasub
  = Some (map (fun r => r ++ derived prodSim attrSim cdatasub r) cdatasub).
Proof.
  exact (notebook_rows prodSim attrSim cdatasub sample_flow_table levels
           sample_prodSim_design sample_attrSim_design).
Qed.

Lemma sample_cell18 :
  cell18 prodSim = Some (firstn 7 prodSim, gamma_of prodSim, beta_of prodSim).
Proof. exact (cell18_design levels cdatasub prodSim sample_prodSim_design). Qed.

Lemma sample_gamma : gamma_of prodSim = 1.
Proof. reflexivity. Qed.

Lemma sample_beta : beta_of prodSim = 1.
Proof. unfold beta_of, coef. simpl. lra. Qed.

Lemma production_constrained_margins_witness :
  flow_table cdatasub /\
  prodSim_design levels cdatasub prodSim /\
  attrSim_design cdatasub attrSim /\
  poisson_mle "OrigCodeNew" "log_Dj2_destsal" "log_Dist" cdatasub prodSim /\
  exists alpha gamma beta df',
    cell18 prodSim = Some (alpha, gamma, beta) /\
    notebook prodSim attrSim cdatasub = Some df' /\
    Rabs (total "prodsimest1" (rows_where "OrigCodeNew" (VStr "E09000001") df')
          - total "Total" (rows_where "OrigCodeNew" (VStr "E09000001") cdatasub))
    <= INR (length (rows_where "OrigCodeNew" (VStr "E09000001") df')) / 2.
Proof.
  split; [exact sample_flow_table |].
  split; [exact sample_prodSim_design |].
  split; [exact sample_attrSim_design |].
  split; [exact sample_prodSim_mle |].
  exists (firstn 7 prodSim), (gamma_of prodSim), (beta_of prodSim).
  eexists. split; [exact sample_cell18 |]. split; [exact sample_run |].
  exact (proj2 (production_constrained_margins prodSim attrSim levels cdatasub _
                  _ _ _ "E09000001" sample_flow_table sample_prodSim_design
                  sample_attrSim_design sample_prodSim_mle sample_cell18
                  sample_run)).
Defined.

Lemma attraction_constrained_margins_witness :
  flow_table cdatasub /\
  prodSim_design levels cdatasub prodSim /\
  attrSim_design cdatasub attrSim /\
  poisson_mle "DestCodeNew" "log_Oi1_origpop" "log_Dist" cdatasub attrSim /\
  exists df',
    notebook prodSim attrSim cdatasub = Some df' /\
    Rabs (total "attrsimFitted" (rows_where "DestCodeNew" (VStr "E09000002") df')
          - total "Total" (rows_where "DestCodeNew" (VStr "E09000002") cdatasub))
    <= INR (length (rows_where "DestCodeNew" (VStr "E09000002") df')) / 2.
Proof.
  split; [exact sample_flow_table |].
  split; [exact sample_prodSim_design |].
  split; [exact sample_attrSim_design |].
  split; [exact sample_attrSim_mle |].
  eexists. split; [exact sample_run |].
  exact (proj2 (attraction_constrained_margins prodSim attrSim levels cdatasub _
                  "E09000002" sample_flow_table sample_prodSim_design
                  sample_attrSim_design sample_attrSim_mle sample_run)).
Defined.

Lemma Forall2_map_r {A B : Type} (P : A -> B -> Prop) (F : A -> B) (l : list A) :
  (forall a, In a l -> P a (F a)) -> Forall2 P l (map F l).
Proof.
  induction l as [| a l IH]; intros H; simpl; constructor.
  - apply H. now left.
  - apply IH. intros; apply H; now right.
Qed.

Lemma keeps_rows (e : row -> row) (df : DataFrame) :
  keeps df (map (fun r => r ++ e r) df).
Proof.
  apply Forall2_map_r. intros r _. split.
  - now exists (e r).
  - intros c v. apply get_app_l.
Qed.

(** C7: on a well-formed table every cell runs, and the table after each
    cell (margins, [alpha_i], the estimates, the scenario column, the
    balancing factors, the fitted flows) has the rows of the input, in
    order, each followed by added columns only: every cell of an input
    column keeps its value. *)
Theorem derivations_only_append
  (prodSim attrSim : Params) (levels : list string) (df : DataFrame) :
  flow_table df ->
  prodSim_design levels df prodSim ->
  attrSim_design df attrSim ->
  exists t14 t16 alpha gamma beta t22 t24 t32 t34 t36 Dj2_gamma dist_beta
         t38 t40 Dj3_gamma t42 t48,
    cell14 df = Some t14 /\
    cell16 prodSim t14 = Some t16 /\
    cell18 prodSim = Some (alpha, gamma, beta) /\
    cell22 gamma beta t16 = Some t22 /\
    cell24 t22 = Some t24 /\
    cell32 t24 = Some t32 /\
    cell34 gamma beta t32 = Some t34 /\
    cell36 gamma beta t34 = Some (t36, Dj2_gamma, dist_beta) /\
    cell38 Dj2_gamma dist_beta t36 = Some t38 /\
    cell40 gamma dist_beta t38 = Some (t40, Dj3_gamma) /\
    cell42 Dj3_gamma dist_beta t40 = Some t42 /\
    cell48 attrSim t42 = Some t48 /\
    notebook prodSim attrSim df = Some t48 /\
    Forall (keeps df) [t14; t16; t22; t24; t32; t34; t36; t38; t40; t42; t48].
Proof.
  intros Hflow Hprod Hattr. do 17 eexists.
  split. { rewrite <- (map_id df) at 1. exact (cell14_rows df Hflow). }
  split. { exact (cell16_rows prodSim df Hflow levels Hprod). }
  split. { exact (cell18_design levels df prodSim Hprod). }
  split. { exact (cell22_rows prodSim df Hflow). }
  split. { exact (cell24_rows prodSim df Hflow). }
  split. { exact (cell32_rows prodSim df Hflow). }
  split. { exact (cell34_rows prodSim df Hflow). }
  split. { exact (cell36_rows prodSim df Hflow). }
  split. { exact (cell38_rows prodSim df Hflow). }
  split. { exact (cell40_rows prodSim df Hflow). }
  split. { exact (cell42_rows prodSim df Hflow). }
  split. { exact (cell48_rows prodSim attrSim df Hflow Hattr). }
  split. { exact (notebook_rows prodSim attrSim df Hflow levels Hprod Hattr). }
  repeat (constructor; [apply keeps_rows |]). constructor.
Qed.

Lemma derivations_only_append_witness :
  flow_table cdatasub /\
  prodSim_design levels cdatasub prodSim /\
  attrSim_design cdatasub attrSim /\
  exists df',
    notebook prodSim attrSim cdatasub = Some df' /\ keeps cdatasub df'.
Proof.
  split; [exact sample_flow_table |].
  split; [exact sample_prodSim_design |].
  split; [exact sample_attrSim_design |].
  destruct (derivations_only_append prodSim attrSim levels cdatasub
              sample_flow_table sample_prodSim_design sample_attrSim_design)
    as (t14 & t16 & a & g & b & t22 & t24 & t32 & t34 & t36 & Dg & db & t38
        & t40 & D3 & t42 & t48 & _ & _ & _ & _ & _ & _ & _ & _ & _ & _ & _ & _
        & Hrun & Hkeep).
  exists t48. split; [exact Hrun |].
  rewrite Forall_forall in Hkeep. apply Hkeep. simpl. tauto.
Defined.

(** C9: for a row with a [DestCodeNew], [new_sal] returns 25000 when that
    code is "E09000002", and otherwise what the row holds as [Dj2_destsal],
    unchanged. *)
Theorem new_sal_outside_zone (r : row) (d : value) :
  get "DestCodeNew" r = Some d ->
  (d = VStr "E09000002" -> new_sal r = Some (VNum 25000)) /\
  (d <> VStr "E09000002" -> new_sal r = get "Dj2_destsal" r).
Proof.
  intros Hd. unfold new_sal. rewrite Hd. cbn [bind]. split.
  - intros ->. now rewrite value_eqb_refl.
  - intros Hne. apply value_eqb_neq in Hne. rewrite Hne.
    now destruct (get "Dj2_destsal" r).
Qed.

Lemma new_sal_outside_zone_witness :
  get "DestCodeNew" second_row = Some (VStr "E09000003") /\
  new_sal second_row = Some (VNum 2).
Proof.
  split; [reflexivity |].
  apply (proj2 (new_sal_outside_zone second_row (VStr "E09000003") eq_refl)).
  discriminate.
Defined.

(** What cells 36 and 38 leave in the table, for every well-formed
    table: the factor of a row's origin is the reciprocal of the sum of
    D^gamma d^(+beta) over the origin's rows, with beta the negated
    coefficient of [log_Dist], and [prodsimest3] is the rounded product
    A_i O_i D^gamma d^(+beta). *)
Lemma balancing_as_computed
  (prodSim attrSim : Params) (levels : list string) (df df' : DataFrame)
  (k : nat) (r r' : row) :
  flow_table df ->
  prodSim_design levels df prodSim ->
  attrSim_design df attrSim ->
  notebook prodSim attrSim df = Some df' ->
  nth_error df k = Some r ->
  nth_error df' k = Some r' ->
  let gamma := gamma_of prodSim in
  let beta := - coef "log_Dist" prodSim in
  let A := 1 / sum (map (fun r0 => Rpower (number "Dj2_destsal" r0) gamma
                                   * Rpower (number "Dist" r0) beta)
                        (same_origin df r)) in
  get "A_i" r' = Some (VNum A) /\
  get "prodsimest3" r'
  = Some (VNum (rint (A * O_i_of df r * Rpower (number "Dj2_destsal" r) gamma
                      * Rpower (number "Dist" r) beta))).
Proof.
  intros Hflow Hprod Hattr Hrun Hr Hr' gamma beta A.
  rewrite (notebook_rows prodSim attrSim df Hflow levels Hprod Hattr) in Hrun.
  injection Hrun as <-.
  rewrite (map_nth_error _ _ _ Hr) in Hr'. injection Hr' as <-.
  assert (Hin : In r df) by (eapply nth_error_In; eassumption).
  rewrite (derived_cell prodSim attrSim df Hflow "A_i" r Hin eq_refl).
  rewrite (derived_cell prodSim attrSim df Hflow "prodsimest3" r Hin eq_refl).
  split; reflexivity.
Qed.

Lemma rint_IZR (z : Z) : rint (IZR z) = IZR z.
Proof. apply rint_near. rewrite Rminus_diag, Rabs_R0. lra. Qed.

Lemma sample_O_i : O_i_of cdatasub first_row = 7.
Proof. unfold O_i_of, total, number. simpl. lra. Qed.

Lemma sample_lambda : lambda_of prodSim first_row = 2.
Proof.
  unfold lambda_of, alpha_of, gamma_of, beta_of, coef, number. simpl.
  replace (ln 2 + 1 * 0 - - -1 * 0) with (ln 2) by ring.
  apply exp_ln. lra.
Qed.

(** The factor of the first origin as cell 36 computes it: the distances
    enter with the power +1. *)
Lemma sample_A_i : A_of prodSim cdatasub (number "Dj2_destsal") first_row = 1 / 5.
Proof.
  unfold A_of, Ai1_of. rewrite sample_gamma, sample_beta.
  unfold number. simpl. rewrite !Rpower_1 by lra. field.
Qed.

Lemma sample_balanced :
  balanced_of prodSim cdatasub (number "Dj2_destsal") first_row = 7 / 5.
Proof.
  unfold balanced_of. rewrite sample_A_i, sample_O_i, sample_gamma, sample_beta.
  unfold number. simpl. rewrite !Rpower_1 by lra. field.
Qed.

(** The factor of the first origin by equation (3): the distances enter
    with the power -1. *)
Lemma sample_A_i_equation : A_i_equation 1 1 first_origin = 2 / 7.
Proof.
  unfold A_i_equation, number. simpl.
  rewrite !Rpower_Ropp, !Rpower_1 by lra. field.
Qed.

Lemma sample_T_ij_equation : T_ij_equation 1 1 (2 / 7) 7 first_row = 2.
Proof.
  unfold T_ij_equation, number. simpl.
  rewrite !Rpower_Ropp, !Rpower_1 by lra. field.
Qed.

Lemma sample_first_origin :
  rows_where "OrigCodeNew" (VStr "E09000001") cdatasub = first_origin.
Proof. reflexivity. Qed.

(** C4, the divergence on the small table: the fit gives gamma = 1 and
    beta = 1; the table then holds A_i = 1/5 = 1/(1 + 2 + 2) for the first
    origin, while equation (3) with d^(-beta) gives 2/7 = 1/(1 + 2 + 1/2). *)
Theorem balancing_factor_uses_positive_power :
  exists alpha gamma beta df' r',
    cell18 prodSim = Some (alpha, gamma, beta) /\
    gamma = 1 /\ beta = 1 /\
    notebook prodSim attrSim cdatasub = Some df' /\
    nth_error df' 0 = Some r' /\
    get "A_i" r' = Some (VNum (1 / 5)) /\
    A_i_equation gamma beta
      (rows_where "OrigCodeNew" (VStr "E09000001") cdatasub) = 2 / 7.
Proof.
  exists (firstn 7 prodSim), (gamma_of prodSim), (beta_of prodSim).
  eexists. eexists.
  split; [exact sample_cell18 |].
  split; [exact sample_gamma |]. split; [exact sample_beta |].
  split; [exact sample_run |]. split; [reflexivity |]. split.
  - change (Some (VNum (A_of prodSim cdatasub (number "Dj2_destsal") first_row))
            = Some (VNum (1 / 5))).
    now rewrite sample_A_i.
  - rewrite sample_gamma, sample_beta, sample_first_origin.
    exact sample_A_i_equation.
Qed.

(** C3, the divergence on the small table: for the first row the fitted
    estimate is 2, which equation (1) with the factor of equation (3)
    reproduces, while the recomputed [prodsimest3] is round(7/5) = 1. *)
Theorem round_trip_fails_on_sample :
  exists df' r',
    notebook prodSim attrSim cdatasub = Some df' /\
    nth_error df' 0 = Some r' /\
    get "prodsimest1" r' = Some (VNum 2) /\
    get "prodsimest3" r' = Some (VNum 1) /\
    rint (T_ij_equation 1 1 (A_i_equation 1 1 first_origin)
                        (number "O_i" r') first_row) = 2.
Proof.
  eexists. eexists. split; [exact sample_run |]. split; [reflexivity |].
  split; [| split].
  - change (Some (VNum (rint (lambda_of prodSim first_row))) = Some (VNum 2)).
    rewrite sample_lambda. now rewrite (rint_IZR 2).
  - change (Some (VNum (rint (balanced_of prodSim cdatasub
                                          (number "Dj2_destsal") first_row)))
            = Some (VNum 1)).
    rewrite sample_balanced. do 2 f_equal.
    apply (rint_near _ 1). apply Rabs_def1; lra.
  - change (number "O_i" _) with (O_i_of cdatasub first_row).
    rewrite sample_O_i, sample_A_i_equation, sample_T_ij_equation.
    exact (rint_IZR 2).
Qed.

End Run.

(** ** More on the metric helpers *)

Module MetricsMore.
Import Num NumFacts Metrics MetricsFacts.

Lemma squared_residuals_swap (o e : Series) :
  squared_residuals o e = squared_residuals e o.
Proof.
  revert e. induction o as [| a o IH]; intros [| b e]; simpl; try reflexivity.
  rewrite IH. f_equal. ring.
Qed.

Lemma CalcRMSE_swap (o e : Series) : CalcRMSE o e = CalcRMSE e o.
Proof. unfold CalcRMSE. now rewrite squared_residuals_swap. Qed.

(** [CalcRMSE] does not depend on which series is passed first. *)
Theorem CalcRMSE_symmetric (observed estimated : Series) :
  CalcRMSE observed estimated = CalcRMSE estimated observed.
Proof. apply CalcRMSE_swap. Qed.

Lemma round_half_even_nonneg (x : R) : 0 <= x -> (0 <= round_half_even x)%Z.
Proof.
  intros H. assert (Hf : (0 <= Zfloor x)%Z) by now apply Zfloor_lub.
  unfold round_half_even.
  destruct (Rlt_dec _ _); [assumption |].
  destruct (Rlt_dec _ _); [lia |].
  destruct (Z.even _); lia.
Qed.





Lemma squared_residuals_app_l (o e x : Series) :
  length o = length e -> squared_residuals (o ++ x) e = squared_residuals o e.
Proof.
  revert e. induction o as [| a o IH]; intros [| b e] H; simpl in *;
    try discriminate.
  - now destruct x.
  - f_equal. apply IH. lia.
Qed.

(** A difference in length is not reported: entries of one series beyond
    the end of the other do not enter the result. *)
Theorem CalcRMSE_ignores_unmatched_tail (observed estimated extra : Series) :
  length observed = length estimated ->
  CalcRMSE (observed ++ extra) estimated = CalcRMSE observed estimated /\
  CalcRMSE observed (estimated ++ extra) = CalcRMSE observed estimated.
Proof.
  intros H. split.
  - unfold CalcRMSE. now rewrite squared_residuals_app_l.
  - rewrite (CalcRMSE_swap observed (estimated ++ extra)).
    unfold CalcRMSE. rewrite squared_residuals_app_l by congruence.
    now rewrite squared_residuals_swap.
Qed.

Lemma squared_residuals_shift (b : R) (x : Series) :
  squared_residuals x (map (fun v => v + b) x) = map (fun _ => b ^ 2) x.
Proof. induction x as [| a x IH]; simpl; [reflexivity |]. rewrite IH. f_equal. ring. Qed.

Lemma mean_const (c : R) (x : Series) :
  x <> [] -> mean (map (fun _ => c) x) = c.
Proof.
  intros H. apply mean_all_equal.
  - destruct x; [contradiction | discriminate].
  - apply Forall_map, Forall_forall. reflexivity.
Qed.

(** When every estimate misses its observation by the same amount [b],
    [CalcRMSE] returns the size of [b] rounded to three decimals; for a
    perfect fit it returns 0. *)
Theorem CalcRMSE_constant_miss (b : R) (observed : Series) :
  observed <> [] ->
  CalcRMSE observed (map (fun v => v + b) observed)
  = Value (round_digits 3 (Rabs b)) /\
  CalcRMSE observed observed = Value 0.
Proof.
  intros H.
  assert (Hb : forall c, CalcRMSE observed (map (fun v => v + c) observed)
                         = Value (round_digits 3 (Rabs c))).
  { intros c. unfold CalcRMSE. rewrite squared_residuals_shift.
    destruct observed as [| a t]; [contradiction |].
    change (map (fun _ => c ^ 2) (a :: t))
      with (c ^ 2 :: map (fun _ => c ^ 2) t) at 1.
    cbv iota zeta. rewrite mean_const by discriminate.
    replace (c ^ 2) with (Rsqr c) by (unfold Rsqr; ring).
    now rewrite sqrt_Rsqr_abs. }
  split; [apply Hb |].
  pose proof (Hb 0) as H0.
  rewrite (map_ext _ (fun v => v)) in H0 by (intros; ring).
  rewrite map_id in H0. rewrite H0. f_equal.
  rewrite Rabs_R0. unfold round_digits. rewrite Rmult_0_l.
  rewrite (rint_near 0 0); [unfold Rdiv; ring |].
  rewrite Rminus_diag, Rabs_R0. lra.
Qed.

(** *** The squared correlation *)

Lemma dot_self_zero (x : Series) : dot x x = 0 -> Forall (fun a => a = 0) x.
Proof.
  induction x as [| a x IH]; simpl; intros H; constructor.
  - pose proof (dot_self_nonneg x). nra.
  - apply IH. pose proof (dot_self_nonneg x). nra.
Qed.

Lemma Reqb_refl (a : R) : Reqb a a = true.
Proof. unfold Reqb. destruct (Req_dec_T a a); congruence. Qed.

(** What the library's constant-input test lets through has spread. *)
Lemma varying_pos_dot (x : Series) :
  constant_input x = false -> 0 < dot (center x) (center x).
Proof.
  intros H. pose proof (dot_self_nonneg (center x)) as Hn.
  destruct (Req_dec (dot (center x) (center x)) 0) as [E | E]; [| lra].
  exfalso. apply dot_self_zero in E. unfold center in E.
  rewrite Forall_map in E.
  destruct x as [| a t]; [discriminate |].
  assert (Hc : constant_input (a :: t) = true); [| congruence].
  simpl. apply forallb_forall. intros b Hb.
  rewrite Forall_forall in E.
  pose proof (E a (or_introl eq_refl)) as Ea.
  pose proof (E b (or_intror Hb)) as Eb. simpl in Ea, Eb.
  replace b with a by lra. apply Reqb_refl.
Qed.

(** Cauchy-Schwarz for [dot], through the sign of a quadratic. *)
Lemma dot_quadratic (t : R) (x y : Series) :
  0 <= dot x x + 2 * t * dot x y + t ^ 2 * dot y y.
Proof.
  revert y. induction x as [| a x IH]; intros [| b y]; simpl.
  - lra.
  - pose proof (dot_self_nonneg y). pose proof (pow2_ge_0 t).
    pose proof (pow2_ge_0 b). nra.
  - pose proof (dot_self_nonneg x). nra.
  - specialize (IH y).
    replace (a * a + dot x x + 2 * t * (a * b + dot x y)
             + t ^ 2 * (b * b + dot y y))
      with ((a + t * b) ^ 2 + (dot x x + 2 * t * dot x y + t ^ 2 * dot y y))
      by ring.
    pose proof (pow2_ge_0 (a + t * b)). lra.
Qed.

Lemma dot_cauchy_schwarz (x y : Series) :
  dot x y ^ 2 <= dot x x * dot y y.
Proof.
  pose proof (dot_self_nonneg x) as Hx.
  pose proof (dot_self_nonneg y) as Hy.
  set (X := dot x x) in *. set (Y := dot y y) in *.
  destruct (Req_dec Y 0) as [E | E].
  - destruct (Req_dec (dot x y) 0) as [D | D].
    + rewrite D. nra.
    + exfalso.
      pose proof (dot_quadratic (- (X + 1) / (2 * dot x y)) x y) as Hq.
      fold X Y in Hq. rewrite E in Hq.
      replace (X + 2 * (- (X + 1) / (2 * dot x y)) * dot x y
               + (- (X + 1) / (2 * dot x y)) ^ 2 * 0)
        with (-1) in Hq by (field; exact D).
      lra.
  - pose proof (dot_quadratic (- dot x y / Y) x y) as Hq.
    fold X Y in Hq.
    replace (X + 2 * (- dot x y / Y) * dot x y + (- dot x y / Y) ^ 2 * Y)
      with ((X * Y - dot x y ^ 2) / Y) in Hq by (field; exact E).
    assert (HY : 0 < Y) by lra.
    apply (Rmult_le_compat_r Y) in Hq; [| lra].
    unfold Rdiv in Hq. rewrite Rmult_assoc, Rinv_l in Hq by exact E.
    lra.
Qed.

Lemma pearsonr_inv (pv : nat -> R -> R) (x y : Series) (r p : R) :
  pearsonr pv x y = Value (r, p) ->
  length x = length y /\ (2 <= length x)%nat /\
  constant_input x = false /\ constant_input y = false /\
  r = dot (center x) (center y)
      / sqrt (dot (center x) (center x) * dot (center y) (center y)).
Proof.
  unfold pearsonr.
  destruct (Nat.eqb_spec (length x) (length y)) as [E | E]; simpl negb;
    cbv iota; [| discriminate].
  destruct (Nat.ltb_spec (length x) 2) as [L | L]; [discriminate |].
  destruct (constant_input x); [discriminate |].
  destruct (constant_input y); [discriminate |].
  simpl orb. cbv iota zeta. intros H. injection H as <- _. auto.
Qed.

Lemma CalcRSquared_inv (pv : nat -> R -> R) (x y : Series) (v : R) :
  CalcRSquared pv x y = Value v ->
  exists r p, pearsonr pv x y = Value (r, p) /\ v = r ^ 2.
Proof.
  unfold CalcRSquared.
  destruct (pearsonr pv x y) as [| | [r p]]; try discriminate.
  intros H. injection H as <-. now exists r, p.
Qed.

(** Whenever [CalcRSquared] returns a number, the number lies between 0 and
    1. *)
Theorem CalcRSquared_between_0_and_1 (pvalue : nat -> R -> R)
    (observed estimated : Series) (v : R) :
  CalcRSquared pvalue observed estimated = Value v -> 0 <= v <= 1.
Proof.
  intros H. apply CalcRSquared_inv in H. destruct H as (r & p & H & ->).
  apply pearsonr_inv in H. destruct H as (_ & _ & Hx & Hy & ->).
  apply varying_pos_dot in Hx, Hy.
  pose proof (dot_cauchy_schwarz (center observed) (center estimated)) as Hcs.
  set (X := dot (center observed) (center observed)) in *.
  set (Y := dot (center estimated) (center estimated)) in *.
  set (D := dot (center observed) (center estimated)) in *.
  assert (HXY : 0 < X * Y) by now apply Rmult_lt_0_compat.
  assert (Hs : 0 < sqrt (X * Y)) by now apply sqrt_lt_R0.
  replace ((D / sqrt (X * Y)) ^ 2) with (D ^ 2 / (sqrt (X * Y) * sqrt (X * Y)))
    by (field; lra).
  rewrite sqrt_def by lra.
  split.
  - apply Rmult_le_pos; [nra |]. left. now apply Rinv_0_lt_compat.
  - apply (Rmult_le_reg_r (X * Y)); [exact HXY |].
    unfold Rdiv. rewrite Rmult_assoc, Rinv_l by lra. lra.
Qed.

Section Affine.
Variables a b : R.
Hypothesis a_nonzero : a <> 0.

Let f (v : R) : R := a * v + b.

Lemma sum_affine (x : Series) :
  sum (map f x) = a * sum x + INR (length x) * b.
Proof.
  induction x as [| h t IH].
  - simpl. ring.
  - change (length (h :: t)) with (S (length t)). rewrite S_INR. simpl.
    rewrite IH. unfold f. ring.
Qed.

Lemma mean_affine (x : Series) : x <> [] -> mean (map f x) = a * mean x + b.
Proof.
  intros H. unfold mean. rewrite sum_affine, length_map.
  pose proof (INR_length_pos x H). field. lra.
Qed.

Lemma center_affine (x : Series) :
  x <> [] -> center (map f x) = map (fun v => a * v) (center x).
Proof.
  intros H. unfold center. rewrite mean_affine by assumption.
  rewrite !map_map. apply map_ext. intros v. unfold f. ring.
Qed.

Lemma dot_scale_l (c : R) (x y : Series) :
  dot (map (fun v => c * v) x) y = c * dot x y.
Proof.
  revert y. induction x as [| h t IH]; intros [| k y]; simpl; try ring.
  rewrite IH. ring.
Qed.

Lemma Reqb_affine (u v : R) : Reqb (f u) (f v) = Reqb u v.
Proof.
  unfold Reqb, f.
  destruct (Req_dec_T (a * u + b) (a * v + b)) as [E | E],
           (Req_dec_T u v) as [E' | E']; try reflexivity.
  - exfalso. apply E'. apply (Rmult_eq_reg_l a); lra.
  - exfalso. apply E. now rewrite E'.
Qed.

Lemma constant_input_affine (x : Series) :
  constant_input (map f x) = constant_input x.
Proof.
  destruct x as [| h t]; [reflexivity |]. simpl.
  induction t as [| k t IH]; [reflexivity |]. simpl.
  now rewrite Reqb_affine, IH.
Qed.

Lemma CalcRSquared_affine_l (pv : nat -> R -> R) (x y : Series) :
  CalcRSquared pv (map f x) y = CalcRSquared pv x y.
Proof.
  unfold CalcRSquared, pearsonr. rewrite length_map, constant_input_affine.
  destruct (negb (length x =? length y)%nat); [reflexivity |].
  destruct (Nat.ltb_spec (length x) 2) as [L | L]; [reflexivity |].
  destruct (constant_input x) eqn:Ex; [reflexivity |].
  destruct (constant_input y) eqn:Ey; [reflexivity |].
  simpl orb. cbv iota zeta. f_equal.
  assert (Hx : x <> []) by (destruct x; simpl in L; [lia | discriminate]).
  rewrite center_affine by assumption.
  rewrite !dot_scale_l.
  rewrite (dot_comm (center x) (map _ (center x))), dot_scale_l.
  apply varying_pos_dot in Ex, Ey.
  set (X := dot (center x) (center x)) in *.
  set (Y := dot (center y) (center y)) in *.
  set (D := dot (center x) (center y)).
  assert (HXY : 0 < X * Y) by now apply Rmult_lt_0_compat.
  assert (Hs : 0 < sqrt (X * Y)) by now apply sqrt_lt_R0.
  replace (a * (a * X) * Y) with (Rsqr a * (X * Y)) by (unfold Rsqr; ring).
  rewrite sqrt_mult by (try apply Rle_0_sqr; lra).
  rewrite sqrt_Rsqr_abs.
  assert (Ha : Rabs a <> 0) by now apply Rabs_no_R0.
  assert (Ha2 : Rabs a * Rabs a = a * a).
  { rewrite <- Rabs_mult. apply Rabs_pos_eq. nra. }
  replace ((a * D / (Rabs a * sqrt (X * Y))) ^ 2)
    with ((a * a) * D ^ 2 / ((Rabs a * Rabs a) * sqrt (X * Y) ^ 2))
    by (field; lra).
  rewrite Ha2. field. split; lra.
Qed.

End Affine.

Lemma CalcRSquared_self (pv : nat -> R -> R) (x : Series) :
  (2 <= length x)%nat -> constant_input x = false ->
  CalcRSquared pv x x = Value 1.
Proof.
  intros L Hx. unfold CalcRSquared, pearsonr.
  rewrite Nat.eqb_refl. simpl negb. cbv iota.
  destruct (Nat.ltb_spec (length x) 2) as [L' | _]; [lia |].
  rewrite Hx. simpl orb. cbv iota zeta. f_equal.
  apply varying_pos_dot in Hx.
  set (X := dot (center x) (center x)) in *.
  rewrite sqrt_square by lra. field. lra.
Qed.

Lemma CalcRSquared_01_02 (pv : nat -> R -> R) :
  CalcRSquared pv [0; 1] [0; 2] = Value 1.
Proof.
  rewrite CalcRSquared_value; try (simpl; lia).
  - rewrite correlation_01_02. f_equal. ring.
  - rewrite variance_01; lra.
  - rewrite variance_02; lra.
Qed.

Lemma CalcRSquared_between_0_and_1_witness : 0 <= 1 <= 1.
Proof.
  apply (CalcRSquared_between_0_and_1 (fun _ _ => 0) [0; 1] [0; 2] 1).
  apply CalcRSquared_01_02.
Defined.

Lemma CalcRMSE_ignores_unmatched_tail_witness :
  length [1; 2] = length [1; 4] /\
  CalcRMSE ([1; 2] ++ [9]) [1; 4] = CalcRMSE [1; 2] [1; 4] /\
  CalcRMSE [1; 2] ([1; 4] ++ [9]) = CalcRMSE [1; 2] [1; 4].
Proof.
  split; [reflexivity |].
  apply (CalcRMSE_ignores_unmatched_tail [1; 2] [1; 4] [9]). reflexivity.
Defined.

Lemma CalcRMSE_constant_miss_witness :
  [1; 2] <> [] /\
  CalcRMSE [1; 2] (map (fun v => v + 3) [1; 2])
  = Value (round_digits 3 (Rabs 3)) /\
  CalcRMSE [1; 2] [1; 2] = Value 0.
Proof.
  split; [discriminate |].
  apply (CalcRMSE_constant_miss 3 [1; 2]). discriminate.
Defined.

(** Rescaling either series by a nonzero factor and shifting it by a
    constant leaves the result of [CalcRSquared] unchanged: the helper does
    not see a bias or a wrong scale of the estimates. *)
Theorem CalcRSquared_affine_invariant (pvalue : nat -> R -> R)
    (a b c d : R) (observed estimated : Series) :
  a <> 0 -> c <> 0 ->
  CalcRSquared pvalue (map (fun v => a * v + b) observed)
                      (map (fun v => c * v + d) estimated)
  = CalcRSquared pvalue observed estimated.
Proof.
  intros Ha Hc.
  rewrite (CalcRSquared_affine_l a b Ha).
  rewrite CalcRSquared_swap, (CalcRSquared_affine_l c d Hc).
  apply CalcRSquared_swap.
Qed.

Lemma CalcRSquared_affine_invariant_witness :
  2 <> 0 /\ 3 <> 0 /\
  CalcRSquared (fun _ _ => 0) (map (fun v => 2 * v + 1) [0; 1])
                              (map (fun v => 3 * v + 5) [0; 2])
  = CalcRSquared (fun _ _ => 0) [0; 1] [0; 2].
Proof.
  split; [lra |]. split; [lra |].
  apply (CalcRSquared_affine_invariant (fun _ _ => 0) 2 1 3 5 [0; 1] [0; 2]);
    lra.
Defined.

(** Estimates that are an exact linear function of the observations, with
    any nonzero slope and any intercept, score 1. *)
Theorem CalcRSquared_linear_is_1 (pvalue : nat -> R -> R) (a b : R)
    (observed : Series) :
  a <> 0 -> (2 <= length observed)%nat -> constant_input observed = false ->
  CalcRSquared pvalue observed (map (fun v => a * v + b) observed) = Value 1.
Proof.
  intros Ha L Hx.
  rewrite CalcRSquared_swap, (CalcRSquared_affine_l a b Ha).
  now apply CalcRSquared_self.
Qed.

Lemma CalcRSquared_linear_is_1_witness :
  -2 <> 0 /\ (2 <= length [0; 1])%nat /\ constant_input [0; 1] = false /\
  CalcRSquared (fun _ _ => 0) [0; 1] (map (fun v => -2 * v + 7) [0; 1])
  = Value 1.
Proof.
  assert (Hc : constant_input [0; 1] = false).
  { simpl. unfold Reqb. destruct (Req_dec_T 1 0); [lra | reflexivity]. }
  split; [lra |]. split; [simpl; lia |]. split; [exact Hc |].
  apply (CalcRSquared_linear_is_1 (fun _ _ => 0) (-2) 7 [0; 1]);
    [lra | simpl; lia | exact Hc].
Defined.

End MetricsMore.

(** ** The balancing factors and the scenario *)

Module Balancing.
Import Num NumFacts Frame FrameFacts Notebook NotebookFacts Likelihood.
Import Constraints Sample SampleFacts Run.

(** The unrounded product A_i O_i sal^gamma d^beta, summed over the rows of
    one origin, is the origin's total, for any salaries and any exponents. *)
Lemma balanced_sum (prodSim : Params) (df : DataFrame) (sal : row -> R)
    (s : string) :
  (forall r, In r df -> get "OrigCodeNew" r = Some (VStr (text "OrigCodeNew" r))) ->
  sum (map (balanced_of prodSim df sal) (rows_where "OrigCodeNew" (VStr s) df))
  = total "Total" (rows_where "OrigCodeNew" (VStr s) df).
Proof.
  intros Horig. set (G := rows_where "OrigCodeNew" (VStr s) df).
  rewrite (map_ext_in _ (fun r => (1 / sum (map (Ai1_of prodSim sal) G)
                                   * total "Total" G) * Ai1_of prodSim sal r)).
  2:{ intros r Hr. apply in_rows_where_inv in Hr. destruct Hr as [Hr Hh].
      apply holds_text in Hh; [| exact (Horig r Hr)].
      unfold balanced_of, A_of, O_i_of, same_origin, Ai1_of. rewrite Hh.
      fold G. ring. }
  rewrite sum_map_scale.
  destruct G as [| r0 G0] eqn:EG.
  - simpl. unfold total. simpl. ring.
  - rewrite <- EG.
    assert (HS : 0 < sum (map (Ai1_of prodSim sal) G)).
    { apply sum_pos.
      - rewrite EG. discriminate.
      - apply Forall_map, Forall_forall. intros r _. unfold Ai1_of.
        apply Rmult_lt_0_compat; apply Rpower_pos. }
    field. lra.
Qed.

(** The estimates of cells 38 and 42 keep the origin constraint by
    construction: on every well-formed table, whatever the parameters
    [gamma] and [beta] are, [prodsimest3] and [prodsimest4] summed over the
    rows of an origin give the origin's total flow up to half a unit per
    row. *)
Theorem balancing_keeps_origin_totals
  (prodSim attrSim : Params) (levels : list string) (df df' : DataFrame)
  (i : string) :
  flow_table df ->
  prodSim_design levels df prodSim ->
  attrSim_design df attrSim ->
  notebook prodSim attrSim df = Some df' ->
  let O_i := total "Total" (rows_where "OrigCodeNew" (VStr i) df) in
  let out := rows_where "OrigCodeNew" (VStr i) df' in
  Rabs (total "prodsimest3" out - O_i) <= INR (length out) / 2 /\
  Rabs (total "prodsimest4" out - O_i) <= INR (length out) / 2.
Proof.
  intros Hflow Hprod Hattr Hrun O_i out.
  pose proof (flow_table_facts df Hflow) as facts.
  rewrite (notebook_rows prodSim attrSim df Hflow levels Hprod Hattr) in Hrun.
  injection Hrun as <-. subst O_i out.
  assert (Horig : forall r, In r df ->
            get "OrigCodeNew" r = Some (VStr (text "OrigCodeNew" r)))
    by (intros r Hr; exact (rf_orig r (facts r Hr))).
  split.
  - rewrite <- (balanced_sum prodSim df (number "Dj2_destsal") i Horig).
    apply (rounded_margin prodSim attrSim df "OrigCodeNew" "prodsimest3");
      [exact Horig |].
    intros r Hr.
    now rewrite (derived_cell prodSim attrSim df Hflow "prodsimest3" r Hr
                   eq_refl).
  - rewrite <- (balanced_sum prodSim df (scenario_salary) i Horig).
    apply (rounded_margin prodSim attrSim df "OrigCodeNew" "prodsimest4");
      [exact Horig |].
    intros r Hr.
    now rewrite (derived_cell prodSim attrSim df Hflow "prodsimest4" r Hr
                   eq_refl).
Qed.

Lemma balancing_keeps_origin_totals_witness :
  flow_table cdatasub /\
  prodSim_design levels cdatasub prodSim /\
  attrSim_design cdatasub attrSim /\
  exists df',
    notebook prodSim attrSim cdatasub = Some df' /\
    let O_i := total "Total" (rows_where "OrigCodeNew" (VStr "E09000001") cdatasub) in
    let out := rows_where "OrigCodeNew" (VStr "E09000001") df' in
    Rabs (total "prodsimest3" out - O_i) <= INR (length out) / 2 /\
    Rabs (total "prodsimest4" out - O_i) <= INR (length out) / 2.
Proof.
  split; [exact sample_flow_table |].
  split; [exact sample_prodSim_design |].
  split; [exact sample_attrSim_design |].
  eexists. split; [exact sample_run |].
  exact (balancing_keeps_origin_totals prodSim attrSim levels cdatasub _
           "E09000001" sample_flow_table sample_prodSim_design
           sample_attrSim_design sample_run).
Defined.

(** Cell 34 against cell 24.  On a table whose salary logarithms are the
    logarithms of its salaries, a row outside the zone E09000002 gets the
    same [prodsimest2] as [prodsimest1]; for a row into the zone the
    unrounded estimate is multiplied by (25000 / salary)^gamma before it is
    rounded. *)
Theorem scenario_estimate
  (prodSim attrSim : Params) (levels : list string) (df df' : DataFrame)
  (k : nat) (r r' : row) :
  flow_table df ->
  prodSim_design levels df prodSim ->
  attrSim_design df attrSim ->
  notebook prodSim attrSim df = Some df' ->
  nth_error df k = Some r ->
  nth_error df' k = Some r' ->
  number "log_Dj2_destsal" r = ln (number "Dj2_destsal" r) ->
  (text "DestCodeNew" r <> "E09000002" ->
   get "prodsimest2" r' = get "prodsimest1" r') /\
  (text "DestCodeNew" r = "E09000002" ->
   get "prodsimest2" r'
   = Some (VNum (rint (lambda_of prodSim r
                       * Rpower (25000 / number "Dj2_destsal" r)
                                (gamma_of prodSim))))).
Proof.
  intros Hflow Hprod Hattr Hrun Hr Hr' Hlog.
  pose proof (flow_table_facts df Hflow) as facts.
  rewrite (notebook_rows prodSim attrSim df Hflow levels Hprod Hattr) in Hrun.
  injection Hrun as <-.
  rewrite (map_nth_error _ _ _ Hr) in Hr'. injection Hr' as <-.
  assert (Hin : In r df) by (eapply nth_error_In; eassumption).
  pose proof (rf_sal_pos r (facts r Hin)) as Hpos.
  rewrite (derived_cell prodSim attrSim df Hflow "prodsimest2" r Hin eq_refl).
  rewrite (derived_cell prodSim attrSim df Hflow "prodsimest1" r Hin eq_refl).
  simpl. unfold scenario_salary, lambda_of. split; intros Hd.
  - apply String.eqb_neq in Hd. rewrite Hd. now rewrite Hlog.
  - apply String.eqb_eq in Hd. rewrite Hd. do 3 f_equal.
    unfold Rpower. rewrite <- exp_plus. f_equal.
    assert (Hi : 0 < / number "Dj2_destsal" r) by now apply Rinv_0_lt_compat.
    unfold Rdiv. rewrite ln_mult, ln_Rinv, Hlog by lra. ring.
Qed.

Lemma sample_log_salary :
  number "log_Dj2_destsal" first_row = ln (number "Dj2_destsal" first_row).
Proof. unfold number. simpl. now rewrite ln_1. Qed.

Lemma scenario_estimate_witness :
  let r' := first_row ++ derived prodSim attrSim cdatasub first_row in
  flow_table cdatasub /\
  prodSim_design levels cdatasub prodSim /\
  attrSim_design cdatasub attrSim /\
  number "log_Dj2_destsal" first_row = ln (number "Dj2_destsal" first_row) /\
  (text "DestCodeNew" first_row <> "E09000002" ->
   get "prodsimest2" r' = get "prodsimest1" r') /\
  (text "DestCodeNew" first_row = "E09000002" ->
   get "prodsimest2" r'
   = Some (VNum (rint (lambda_of prodSim first_row
                       * Rpower (25000 / number "Dj2_destsal" first_row)
                                (gamma_of prodSim))))).
Proof.
  intros r'.
  split; [exact sample_flow_table |].
  split; [exact sample_prodSim_design |].
  split; [exact sample_attrSim_design |].
  split; [exact sample_log_salary |].
  exact (scenario_estimate prodSim attrSim levels cdatasub _ 0 first_row r'
           sample_flow_table sample_prodSim_design sample_attrSim_design
           sample_run eq_refl eq_refl sample_log_salary).
Defined.

(** The scenario changes nothing for an origin none of whose rows goes
    into the zone E09000002: its factor [A_i2] is its [A_i], and its
    [prodsimest4] is its [prodsimest3]. *)
Theorem scenario_leaves_other_origins
  (prodSim attrSim : Params) (levels : list string) (df df' : DataFrame)
  (k : nat) (r r' : row) :
  flow_table df ->
  prodSim_design levels df prodSim ->
  attrSim_design df attrSim ->
  notebook prodSim attrSim df = Some df' ->
  nth_error df k = Some r ->
  nth_error df' k = Some r' ->
  Forall (fun r0 => text "DestCodeNew" r0 <> "E09000002") (same_origin df r) ->
  get "A_i2" r' = get "A_i" r' /\
  get "prodsimest4" r' = get "prodsimest3" r'.
Proof.
  intros Hflow Hprod Hattr Hrun Hr Hr' Hout.
  pose proof (flow_table_facts df Hflow) as facts.
  rewrite (notebook_rows prodSim attrSim df Hflow levels Hprod Hattr) in Hrun.
  injection Hrun as <-.
  rewrite (map_nth_error _ _ _ Hr) in Hr'. injection Hr' as <-.
  assert (Hin : In r df) by (eapply nth_error_In; eassumption).
  rewrite Forall_forall in Hout.
  assert (Hsal : forall r0, In r0 (same_origin df r) ->
            scenario_salary r0 = number "Dj2_destsal" r0).
  { intros r0 H0. unfold scenario_salary.
    now rewrite (proj2 (String.eqb_neq _ _) (Hout r0 H0)). }
  assert (HA : A_of prodSim df scenario_salary r
               = A_of prodSim df (number "Dj2_destsal") r).
  { unfold A_of. do 2 f_equal. apply map_ext_in. intros r0 H0.
    unfold Ai1_of. now rewrite (Hsal r0 H0). }
  assert (Hself : scenario_salary r = number "Dj2_destsal" r).
  { apply Hsal. unfold same_origin.
    apply in_rows_where; [exact Hin | exact (rf_orig r (facts r Hin))]. }
  rewrite (derived_cell prodSim attrSim df Hflow "A_i2" r Hin eq_refl).
  rewrite (derived_cell prodSim attrSim df Hflow "A_i" r Hin eq_refl).
  rewrite (derived_cell prodSim attrSim df Hflow "prodsimest4" r Hin eq_refl).
  rewrite (derived_cell prodSim attrSim df Hflow "prodsimest3" r Hin eq_refl).
  simpl. unfold balanced_of. rewrite HA, Hself. split; reflexivity.
Qed.

(** The sample without its first flow: the first origin then sends nobody
    into the zone. *)
Lemma tail_flow_table : flow_table (tl cdatasub).
Proof.
  pose proof sample_flow_table as H. unfold flow_table in *.
  now inversion H.
Qed.

Lemma tail_prodSim_design : prodSim_design levels (tl cdatasub) prodSim.
Proof.
  destruct sample_prodSim_design as (H1 & H2 & H3 & H4 & H5).
  repeat split; try assumption. now inversion H5.
Qed.

Lemma tail_attrSim_design : attrSim_design (tl cdatasub) attrSim.
Proof.
  destruct sample_attrSim_design as (H1 & H2 & H3).
  repeat split; try assumption. now inversion H3.
Qed.

Lemma scenario_leaves_other_origins_witness :
  let df := tl cdatasub in
  let r' := second_row ++ derived prodSim attrSim df second_row in
  flow_table df /\
  prodSim_design levels df prodSim /\
  attrSim_design df attrSim /\
  Forall (fun r0 => text "DestCodeNew" r0 <> "E09000002")
         (same_origin df second_row) /\
  get "A_i2" r' = get "A_i" r' /\
  get "prodsimest4" r' = get "prodsimest3" r'.
Proof.
  intros df r'.
  assert (Hout : Forall (fun r0 => text "DestCodeNew" r0 <> "E09000002")
                        (same_origin df second_row)).
  { unfold same_origin, rows_where. simpl.
    repeat (constructor; [simpl; discriminate |]). constructor. }
  split; [exact tail_flow_table |].
  split; [exact tail_prodSim_design |].
  split; [exact tail_attrSim_design |].
  split; [exact Hout |].
  exact (scenario_leaves_other_origins prodSim attrSim levels df _ 0
           second_row r' tail_flow_table tail_prodSim_design
           tail_attrSim_design
           (notebook_rows prodSim attrSim df tail_flow_table levels
              tail_prodSim_design tail_attrSim_design)
           eq_refl eq_refl Hout).
Defined.

Lemma sample_logarithms (r : row) :
  In r cdatasub ->
  number "log_Dj2_destsal" r = ln (number "Dj2_destsal" r) /\
  number "log_Dist" r = ln (number "Dist" r).
Proof.
  unfold cdatasub. intros H. simpl in H.
  repeat (destruct H as [<- | H];
          [unfold number; simpl; rewrite ?ln_1; split; reflexivity |]).
  contradiction.
Qed.

(** With the distance raised to the power -beta, as the notebook writes
    its equations (1) and (3), the closed form is the fitted estimate:
    for a maximum-likelihood fit on a table whose logarithm columns are the
    logarithms of its salaries and distances,
    A_i O_i D_j^gamma d_ij^(-beta) = exp(alpha_i + gamma log D_j - beta log d_ij)
    on every row, A_i being 1 / sum_j D_j^gamma d_ij^(-beta). *)
Theorem fit_satisfies_equations
  (prodSim : Params) (levels : list string) (df : DataFrame) (r : row) :
  flow_table df ->
  prodSim_design levels df prodSim ->
  poisson_mle "OrigCodeNew" "log_Dj2_destsal" "log_Dist" df prodSim ->
  (forall r', In r' df ->
     number "log_Dj2_destsal" r' = ln (number "Dj2_destsal" r') /\
     number "log_Dist" r' = ln (number "Dist" r')) ->
  In r df ->
  T_ij_equation (gamma_of prodSim) (beta_of prodSim)
    (A_i_equation (gamma_of prodSim) (beta_of prodSim) (same_origin df r))
    (O_i_of df r) r
  = lambda_of prodSim r.
Proof. apply equations_reproduce_fit. Qed.

Lemma fit_satisfies_equations_witness :
  flow_table cdatasub /\
  prodSim_design levels cdatasub prodSim /\
  poisson_mle "OrigCodeNew" "log_Dj2_destsal" "log_Dist" cdatasub prodSim /\
  In first_row cdatasub /\
  T_ij_equation (gamma_of prodSim) (beta_of prodSim)
    (A_i_equation (gamma_of prodSim) (beta_of prodSim)
       (same_origin cdatasub first_row))
    (O_i_of cdatasub first_row) first_row
  = lambda_of prodSim first_row.
Proof.
  assert (Hin : In first_row cdatasub) by (left; reflexivity).
  split; [exact sample_flow_table |].
  split; [exact sample_prodSim_design |].
  split; [exact sample_prodSim_mle |].
  split; [exact Hin |].
  exact (fit_satisfies_equations prodSim levels cdatasub first_row
           sample_flow_table sample_prodSim_design sample_prodSim_mle
           sample_logarithms Hin).
Defined.

Lemma balancing_as_computed_witness :
  let r' := first_row ++ derived prodSim attrSim cdatasub first_row in
  let gamma := gamma_of prodSim in
  let beta := - coef "log_Dist" prodSim in
  let A := 1 / sum (map (fun r0 => Rpower (number "Dj2_destsal" r0) gamma
                                   * Rpower (number "Dist" r0) beta)
                        (same_origin cdatasub first_row)) in
  flow_table cdatasub /\
  prodSim_design levels cdatasub prodSim /\
  attrSim_design cdatasub attrSim /\
  get "A_i" r' = Some (VNum A) /\
  get "prodsimest3" r'
  = Some (VNum (rint (A * O_i_of cdatasub first_row
                      * Rpower (number "Dj2_destsal" first_row) gamma
                      * Rpower (number "Dist" first_row) beta))).
Proof.
  intros r' gamma beta A.
  split; [exact sample_flow_table |].
  split; [exact sample_prodSim_design |].
  split; [exact sample_attrSim_design |].
  exact (balancing_as_computed prodSim attrSim levels cdatasub _ 0 first_row r'
           sample_flow_table sample_prodSim_design sample_attrSim_design
           sample_run eq_refl eq_refl).
Defined.

End Balancing.

(** ** Coefficient names and positions *)

Module Coefficients.
Import Num Frame FrameFacts Notebook NotebookFacts Likelihood.

Lemma remove_from_absent (c : ascii) (pat s : string) :
  ~ In c (list_ascii_of_string s) -> remove_from (String c pat) 0 s = s.
Proof.
  induction s as [| a s IH]; simpl; intros H; [reflexivity |].
  destruct (ascii_dec c a) as [-> | _]; [exfalso; apply H; now left |].
  f_equal. apply IH. tauto.
Qed.

Lemma remove_from_app_absent (c : ascii) (pat l t : string) :
  ~ In c (list_ascii_of_string l) ->
  remove_from (String c pat) 0 (l ++ t)
  = (l ++ remove_from (String c pat) 0 t)%string.
Proof.
  induction l as [| a l IH]; simpl; intros H; [reflexivity |].
  destruct (ascii_dec c a) as [-> | _]; [exfalso; apply H; now left |].
  f_equal. apply IH. tauto.
Qed.

Lemma append_empty_r (s : string) : (s ++ "")%string = s.
Proof. induction s as [| a s IH]; simpl; [reflexivity | now rewrite IH]. Qed.

Lemma strip_coef_absent (n : string) :
  ~ In "O"%char (list_ascii_of_string n) ->
  ~ In "["%char (list_ascii_of_string n) ->
  ~ In "]"%char (list_ascii_of_string n) ->
  strip_coef n = n.
Proof.
  intros HO Hl Hr. unfold strip_coef, to_repl, str_replace_empty.
  cbn [fold_left pattern_text Ascii.eqb Bool.eqb orb].
  rewrite (remove_from_absent "O") by assumption.
  rewrite (remove_from_absent "[") by assumption.
  now apply remove_from_absent.
Qed.

Lemma prefix_empty (s : string) : String.prefix "" s = true.
Proof. now destruct s. Qed.

Ltac run_replace :=
  cbn [append remove_from String.prefix String.length Nat.sub ascii_dec
       ascii_rec ascii_rect bool_dec bool_rec bool_rect sumbool_rec
       sumbool_rect eq_rec_r eq_rec eq_rect eq_sym f_equal];
  rewrite ?prefix_empty.

Lemma strip_coef_dummy (l : string) :
  ~ In "O"%char (list_ascii_of_string l) ->
  ~ In "["%char (list_ascii_of_string l) ->
  ~ In "]"%char (list_ascii_of_string l) ->
  strip_coef (dummy "OrigCodeNew" l) = l.
Proof.
  intros HO Hl Hr. unfold strip_coef, to_repl, str_replace_empty, dummy.
  cbn [fold_left pattern_text Ascii.eqb Bool.eqb orb].
  run_replace.
  rewrite (remove_from_app_absent "O") by assumption. run_replace.
  rewrite (remove_from_app_absent "[") by assumption. run_replace.
  rewrite (remove_from_app_absent "]") by assumption. run_replace.
  apply append_empty_r.
Qed.

(** The three replacements of cell 16 recover a zone code from its
    coefficient name whenever the code has no capital O and no square
    bracket, and they leave such a name itself (the two slopes) as it is. *)
Theorem strip_coef_recovers_code (l : string) :
  ~ In "O"%char (list_ascii_of_string l) ->
  ~ In "["%char (list_ascii_of_string l) ->
  ~ In "]"%char (list_ascii_of_string l) ->
  strip_coef (dummy "OrigCodeNew" l) = l /\ strip_coef l = l.
Proof.
  intros HO Hl Hr. split.
  - now apply strip_coef_dummy.
  - now apply strip_coef_absent.
Qed.

Lemma strip_coef_recovers_code_witness :
  strip_coef (dummy "OrigCodeNew" "E09000001") = "E09000001" /\
  strip_coef "E09000001" = "E09000001".
Proof.
  apply (strip_coef_recovers_code "E09000001");
    simpl; intuition discriminate.
Defined.

Lemma remove_from_chars (x : ascii) (pat : string) (k : nat) (s : string) :
  In x (list_ascii_of_string (remove_from pat k s)) ->
  In x (list_ascii_of_string s).
Proof.
  revert k. induction s as [| a s IH]; intros k; [simpl; tauto |].
  cbn [remove_from]. destruct k as [| k].
  - destruct (String.prefix pat (String a s)).
    + intros H. right. exact (IH _ H).
    + simpl. intros [H | H]; [now left | right; exact (IH _ H)].
  - intros H. right. exact (IH _ H).
Qed.

Lemma remove_from_single (c : ascii) (k : nat) (s : string) :
  ~ In c (list_ascii_of_string (remove_from (String c "") k s)).
Proof.
  revert k. induction s as [| a s IH]; intros k; simpl; [tauto |].
  destruct k as [| k]; [| apply IH].
  destruct (ascii_dec c a) as [-> | Hne].
  - rewrite prefix_empty. apply IH.
  - simpl. intros [H | H]; [congruence | exact (IH _ H)].
Qed.

(** Whatever the coefficient name, what the three replacements leave
    contains no square bracket: a zone code with a bracket in it can never
    be matched by the merge of cell 16. *)
Theorem strip_coef_removes_brackets (name : string) :
  ~ In "["%char (list_ascii_of_string (strip_coef name)) /\
  ~ In "]"%char (list_ascii_of_string (strip_coef name)).
Proof.
  unfold strip_coef, to_repl, str_replace_empty.
  cbn [fold_left pattern_text Ascii.eqb Bool.eqb orb].
  split.
  - intros H. apply remove_from_chars in H. revert H. apply remove_from_single.
  - apply remove_from_single.
Qed.

(** *** Cell 18 *)

Lemma nth_error_map_none {A B : Type} (f : A -> B) (l : list A) (n : nat) :
  nth_error (map f l) n = None <-> (length l <= n)%nat.
Proof. rewrite nth_error_None. now rewrite length_map. Qed.

(** Cell 18 raises exactly when the model has fewer than nine
    parameters. *)
Theorem cell18_fails_below_nine (p : Params) :
  cell18 p = None <-> (length p < 9)%nat.
Proof.
  unfold cell18.
  destruct (nth_error (map snd p) 7) as [g |] eqn:E7;
    destruct (nth_error (map snd p) 8) as [b |] eqn:E8; cbn [bind].
  - split; [discriminate |]. intros H.
    assert (nth_error (map snd p) 8 <> None) by congruence.
    rewrite nth_error_map_none in H0. lia.
  - apply nth_error_map_none in E8. split; [lia | reflexivity].
  - apply nth_error_map_none in E7. split; [lia | reflexivity].
  - apply nth_error_map_none in E7. split; [lia | reflexivity].
Qed.

Lemma nth_error_last_split {A : Type} (l : list A) (n : nat) (a : A) :
  length l = S n -> nth_error l n = Some a ->
  exists pre, l = pre ++ [a] /\ length pre = n.
Proof.
  intros Hlen Hn. apply nth_error_split in Hn.
  destruct Hn as (pre & post & -> & Hpre).
  rewrite length_app in Hlen. simpl in Hlen.
  destruct post; [| simpl in Hlen; lia].
  now exists pre.
Qed.

(** The cell reads the parameters by position.  For a model with eight
    origins instead of seven it raises nothing: it takes the coefficient of
    the eighth origin for [gamma] and the negated salary slope for
    [beta]. *)
Theorem cell18_with_eight_origins (levels : list string) (p : Params)
    (l : string) :
  map fst p = design_names "OrigCodeNew" "log_Dj2_destsal" "log_Dist" levels ->
  NoDup levels ->
  length levels = 8%nat ->
  nth_error levels 7 = Some l ->
  cell18 p = Some (firstn 7 p, coef (dummy "OrigCodeNew" l) p,
                   - coef "log_Dj2_destsal" p).
Proof.
  intros Hn Hnd Hlen Hl. unfold design_names in Hn.
  destruct (nth_error_last_split levels 7 l Hlen Hl) as (pre & -> & Hpre).
  assert (H7 : nth_error (map snd p) 7 = Some (coef (dummy "OrigCodeNew" l) p)).
  { replace 7%nat with (length (map (dummy "OrigCodeNew") pre))
      by now rewrite length_map.
    rewrite <- (lookup_position p (map (dummy "OrigCodeNew") pre)
                  (dummy "OrigCodeNew" l) ["log_Dj2_destsal"; "log_Dist"]).
    - apply lookup_in. rewrite Hn, map_app, !in_app_iff. left. right. now left.
    - rewrite Hn, map_app, <- app_assoc. reflexivity.
    - intros Hin. apply in_map_iff in Hin. destruct Hin as (l' & E & Hin).
      apply dummy_inj in E. subst l'.
      apply NoDup_remove_2 in Hnd. apply Hnd. now rewrite app_nil_r. }
  assert (H8 : nth_error (map snd p) 8 = Some (coef "log_Dj2_destsal" p)).
  { replace 8%nat with (length (map (dummy "OrigCodeNew") (pre ++ [l])))
      by (rewrite length_map, length_app, Hpre; reflexivity).
    rewrite <- (lookup_position p (map (dummy "OrigCodeNew") (pre ++ [l]))
                  "log_Dj2_destsal" ["log_Dist"] Hn).
    - apply lookup_in. rewrite Hn, in_app_iff. right. now left.
    - intros Hin. apply in_map_iff in Hin. destruct Hin as (l' & E & _).
      exact (dummy_not_logsal l' E). }
  unfold cell18. rewrite H7, H8. reflexivity.
Qed.

Lemma cell18_with_eight_origins_witness :
  let levels := ["a"; "b"; "c"; "d"; "e"; "f"; "g"; "h"] in
  let p := [("OrigCodeNew[a]", 1); ("OrigCodeNew[b]", 2);
            ("OrigCodeNew[c]", 3); ("OrigCodeNew[d]", 4);
            ("OrigCodeNew[e]", 5); ("OrigCodeNew[f]", 6);
            ("OrigCodeNew[g]", 7); ("OrigCodeNew[h]", 8);
            ("log_Dj2_destsal", 9); ("log_Dist", 10)] in
  map fst p = design_names "OrigCodeNew" "log_Dj2_destsal" "log_Dist" levels /\
  NoDup levels /\ length levels = 8%nat /\ nth_error levels 7 = Some "h" /\
  cell18 p = Some (firstn 7 p, coef "OrigCodeNew[h]" p,
                   - coef "log_Dj2_destsal" p).
Proof.
  intros levels p.
  assert (Hnd : NoDup levels).
  { unfold levels.
    repeat (constructor; [simpl; intuition discriminate |]). constructor. }
  split; [reflexivity |]. split; [exact Hnd |].
  split; [reflexivity |]. split; [reflexivity |].
  exact (cell18_with_eight_origins levels p "h" eq_refl Hnd eq_refl eq_refl).
Defined.

End Coefficients.

(** ** Single cells on arbitrary tables *)

Module CellFacts.
Import Num NumFacts Frame FrameFacts Notebook NotebookFacts.
Import Sample SampleFacts.

Lemma mapM_none {A B : Type} (f : A -> option B) (l : list A) :
  mapM f l = None <-> exists a, In a l /\ f a = None.
Proof.
  induction l as [| a l IH]; simpl.
  - split; [discriminate | intros (a & [] & _)].
  - destruct (f a) as [b |] eqn:E; cbn [bind].
    + destruct (mapM f l) as [bs |]; cbn [bind].
      * split; [discriminate |]. intros (a' & [<- | Hin] & H); [congruence |].
        assert (H' : Some bs = None) by (apply IH; now exists a').
        discriminate.
      * split; [| reflexivity]. intros _.
        destruct (proj1 IH eq_refl) as (a' & Hin & H).
        exists a'. split; [now right | exact H].
    + split; [| reflexivity]. intros _. exists a. split; [now left | exact E].
Qed.

Lemma new_sal_none (r : row) :
  new_sal r = None <->
  get "DestCodeNew" r = None \/
  (get "DestCodeNew" r <> Some (VStr "E09000002") /\
   get "Dj2_destsal" r = None).
Proof.
  unfold new_sal. destruct (get "DestCodeNew" r) as [d |]; cbn [bind].
  - destruct (value_eqb d (VStr "E09000002")) eqn:E.
    + apply value_eqb_eq in E. subst d. split; [discriminate |].
      intros [H | [H _]]; [discriminate | now contradiction H].
    + apply value_eqb_neq in E.
      destruct (get "Dj2_destsal" r) as [v |]; cbn [bind].
      * split; [discriminate |]. intros [H | [_ H]]; discriminate.
      * split; [| reflexivity]. intros _. right. split; [congruence | reflexivity].
  - split; [| reflexivity]. intros _. now left.
Qed.

(** Cell 32 raises exactly when some row has no destination code, or
    lies outside the zone E09000002 and has no salary; a row into the zone
    needs no salary. *)
Theorem cell32_failure (cdatasub : DataFrame) :
  cell32 cdatasub = None <->
  exists r, In r cdatasub /\
            (get "DestCodeNew" r = None \/
             (get "DestCodeNew" r <> Some (VStr "E09000002") /\
              get "Dj2_destsal" r = None)).
Proof.
  unfold cell32.
  destruct (mapM new_sal cdatasub) as [s |] eqn:E; cbn [bind].
  - split; [discriminate |]. intros (r & Hin & H).
    apply new_sal_none in H.
    assert (Hn : mapM new_sal cdatasub = None)
      by (apply mapM_none; now exists r).
    congruence.
  - split; [| reflexivity]. intros _.
    apply mapM_none in E. destruct E as (r & Hin & H).
    exists r. split; [exact Hin | now apply new_sal_none].
Qed.

(** *** The two margins share the grand total *)

Section Partition.
Variable key : row -> value.
Variable h : row -> R.

Lemma sum_filter_split {A : Type} (P : A -> bool) (F : A -> R) (l : list A) :
  sum (map F l)
  = sum (map F (filter P l)) + sum (map F (filter (fun a => negb (P a)) l)).
Proof.
  induction l as [| a l IH]; simpl; [ring |].
  destruct (P a); simpl; rewrite IH; ring.
Qed.

Lemma group_total_cons_same (r : row) (rest : DataFrame) :
  group_total key h (r :: rest) (key r) = h r + group_total key h rest (key r).
Proof. unfold group_total. simpl. now rewrite value_eqb_refl. Qed.

Lemma group_total_cons_other (r : row) (rest : DataFrame) (k : value) :
  value_eqb k (key r) = false ->
  group_total key h (r :: rest) k = group_total key h rest k.
Proof.
  intros H. unfold group_total. simpl. now rewrite value_eqb_sym, H.
Qed.

Lemma group_total_of_key (a : value) (rest : DataFrame) :
  sum (map (group_total key h rest)
           (filter (fun b => value_eqb b a) (distinct (map key rest))))
  = group_total key h rest a.
Proof.
  destruct (filter (fun r => value_eqb (key r) a) rest) as [| r0 l0] eqn:E.
  - unfold group_total at 2. rewrite E. simpl.
    destruct (filter (fun b => value_eqb b a) (distinct (map key rest)))
      as [| b l] eqn:Eb; [reflexivity |].
    exfalso.
    assert (Hb : In b (filter (fun b => value_eqb b a)
                              (distinct (map key rest))))
      by (rewrite Eb; now left).
    apply filter_In in Hb. destruct Hb as [Hin Hb].
    apply value_eqb_eq in Hb. subst b.
    apply In_distinct, in_map_iff in Hin. destruct Hin as (r & Hk & Hr).
    assert (Hf : In r (filter (fun r => value_eqb (key r) a) rest)).
    { apply filter_In. split; [exact Hr |]. rewrite Hk. apply value_eqb_refl. }
    rewrite E in Hf. exact Hf.
  - assert (Hr0 : In r0 (filter (fun r => value_eqb (key r) a) rest))
      by (rewrite E; now left).
    apply filter_In in Hr0. destruct Hr0 as [Hr0 Hk].
    apply value_eqb_eq in Hk.
    rewrite filter_distinct by (rewrite <- Hk; now apply in_map).
    simpl. ring.
Qed.

Lemma group_totals_add_up (base : DataFrame) :
  sum (map (group_total key h base) (distinct (map key base)))
  = sum (map h base).
Proof.
  induction base as [| r rest IH]; [reflexivity |].
  cbn [map distinct sum]. rewrite group_total_cons_same.
  rewrite (map_ext_in (group_total key h (r :: rest))
                      (group_total key h rest)).
  2:{ intros k Hk. apply filter_In in Hk. destruct Hk as [_ Hk].
      apply group_total_cons_other.
      now destruct (value_eqb k (key r)). }
  rewrite <- IH.
  rewrite (sum_filter_split (fun b => value_eqb b (key r))
             (group_total key h rest) (distinct (map key rest))).
  rewrite group_total_of_key. ring.
Qed.

End Partition.

Lemma nansum_groups (key : row -> value) (h : row -> R) (base : DataFrame) :
  nansum (map snd (map (fun k => (k, VNum (group_total key h base k)))
                       (distinct (map key base))))
  = Some (sum (map h base)).
Proof.
  rewrite map_map. cbn [snd].
  rewrite <- (map_map (group_total key h base) VNum), nansum_numbers.
  now rewrite group_totals_add_up.
Qed.

(** Cell 14 on a well-formed table: the origin totals O_i, one per
    origin, and the destination totals D_j, one per destination, both add
    up to the sum of the column [Total]. *)
Theorem margins_share_the_total (cdatasub : DataFrame) :
  flow_table cdatasub ->
  exists O_i merged D_j,
    groupby_sum "OrigCodeNew" "Total" cdatasub = Some O_i /\
    merge_left cdatasub "OrigCodeNew" O_i "O_i" = Some merged /\
    groupby_sum "DestCodeNew" "Total" merged = Some D_j /\
    nansum (map snd O_i) = Some (total "Total" cdatasub) /\
    nansum (map snd D_j) = Some (total "Total" cdatasub).
Proof.
  intros Hflow. pose proof (flow_table_facts cdatasub Hflow) as facts.
  set (korig := fun r : row => VStr (text "OrigCodeNew" r)).
  set (kdest := fun r : row => VStr (text "DestCodeNew" r)).
  pose proof (groupby_sum_rows cdatasub (fun r => r) "OrigCodeNew" korig
                (fun r Hr => rf_orig r (facts r Hr))
                "Total" (number "Total")
                (fun r Hr => eq_refl) (fun r Hr => rf_total r (facts r Hr)))
    as HO.
  pose proof (merge_left_grouped cdatasub (fun r => r) "OrigCodeNew" korig
                (fun r Hr => rf_orig r (facts r Hr)) "O_i"
                (fun k => VNum (group_total korig (number "Total") cdatasub k)))
    as HM.
  rewrite map_id in HO, HM.
  set (F := fun r : row =>
              attach "O_i"
                (VNum (group_total korig (number "Total") cdatasub (korig r))) r)
    in HM.
  assert (HF : forall r, In r cdatasub ->
             F r = r ++ [("O_i", VNum (group_total korig (number "Total")
                                                   cdatasub (korig r)))]).
  { intros r Hr. pose proof (facts r Hr) as Fr. unfold F.
    apply attach_fresh. now apply (rf_fresh r Fr). }
  pose proof (groupby_sum_rows cdatasub F "DestCodeNew" kdest) as HD.
  specialize (HD (fun r Hr => eq_trans (f_equal (get "DestCodeNew") (HF r Hr))
                                (get_app_l _ _ _ _ (rf_dest r (facts r Hr))))).
  specialize (HD "Total" (number "Total") (fun r Hr => eq_refl)).
  specialize (HD (fun r Hr => eq_trans (f_equal (get "Total") (HF r Hr))
                                (get_app_l _ _ _ _ (rf_total r (facts r Hr))))).
  eexists. eexists. eexists.
  split; [exact HO |]. split; [exact HM |]. split; [exact HD |].
  unfold total. split; apply nansum_groups.
Qed.

Lemma margins_share_the_total_witness :
  flow_table Sample.cdatasub /\
  exists O_i merged D_j,
    groupby_sum "OrigCodeNew" "Total" Sample.cdatasub = Some O_i /\
    merge_left Sample.cdatasub "OrigCodeNew" O_i "O_i" = Some merged /\
    groupby_sum "DestCodeNew" "Total" merged = Some D_j /\
    nansum (map snd O_i) = Some (total "Total" Sample.cdatasub) /\
    nansum (map snd D_j) = Some (total "Total" Sample.cdatasub).
Proof.
  split; [exact sample_flow_table |].
  exact (margins_share_the_total Sample.cdatasub sample_flow_table).
Defined.

(** *** Rounding a column again *)

Lemma get_set (c : string) (v : value) (r : row) : get c (set c v r) = Some v.
Proof.
  induction r as [| [k w] r IH]; simpl.
  - now rewrite String.eqb_refl.
  - destruct (String.eqb k c) eqn:E; simpl; rewrite E; [reflexivity | exact IH].
Qed.

Lemma set_set (c : string) (v w : value) (r : row) :
  set c v (set c w r) = set c v r.
Proof.
  induction r as [| [k u] r IH]; simpl.
  - now rewrite String.eqb_refl.
  - destruct (String.eqb k c) eqn:E; simpl; rewrite E; [reflexivity |].
    now rewrite IH.
Qed.

Lemma rint_rint (x : R) : rint (rint x) = rint x.
Proof.
  unfold rint at 2 3. apply rint_near. rewrite Rminus_diag, Rabs_R0. lra.
Qed.

Lemma fround_again (v w : value) :
  num1 fround v = Some w -> num1 fround w = Some w.
Proof.
  destruct v as [t | x |]; simpl; intros H; try discriminate;
    injection H as <-; simpl; [| reflexivity].
  unfold fround. now rewrite rint_rint.
Qed.

Lemma round_column_values (c : string) (df : DataFrame) (s r : Column) :
  mapM (get c) df = Some s -> mapM (num1 fround) s = Some r ->
  mapM (get c) (set_column c r df) = Some r /\
  mapM (num1 fround) r = Some r /\
  set_column c r (set_column c r df) = set_column c r df.
Proof.
  revert s r. induction df as [| row rest IH]; intros s r Hs Hr.
  - simpl in Hs. injection Hs as <-. simpl in Hr. injection Hr as <-.
    repeat split; reflexivity.
  - simpl in Hs. destruct (get c row) as [v |]; [| discriminate].
    cbn [bind] in Hs.
    destruct (mapM (get c) rest) as [s' |]; [| discriminate].
    cbn [bind] in Hs. injection Hs as <-.
    simpl in Hr. destruct (num1 fround v) as [w |] eqn:Ew; [| discriminate].
    cbn [bind] in Hr.
    destruct (mapM (num1 fround) s') as [r' |] eqn:Er'; [| discriminate].
    cbn [bind] in Hr. injection Hr as <-.
    destruct (IH s' r' eq_refl Er') as (H1 & H2 & H3).
    cbn [set_column mapM]. rewrite get_set, H1, H2, H3, set_set.
    rewrite (fround_again v w Ew). repeat split; reflexivity.
Qed.

Lemma round_column_again (c : string) (df df' : DataFrame) :
  round_column c df = Some df' -> round_column c df' = Some df'.
Proof.
  unfold round_column, column, map1. intros H.
  destruct (mapM (get c) df) as [s |] eqn:Es; [| discriminate].
  cbn [bind] in H.
  destruct (mapM (num1 fround) s) as [r |] eqn:Er; [| discriminate].
  cbn [bind] in H. injection H as <-.
  destruct (round_column_values c df s r Es Er) as (H1 & H2 & H3).
  rewrite H1. cbn [bind]. rewrite H2. cbn [bind]. now rewrite H3.
Qed.

(** Running cell 24 a second time changes nothing: on every table on
    which the rounding of [prodsimest1] succeeds, rounding its result again
    gives the same table. *)
Theorem cell24_idempotent (cdatasub rounded : DataFrame) :
  cell24 cdatasub = Some rounded -> cell24 rounded = Some rounded.
Proof. apply round_column_again. Qed.

Lemma cell24_idempotent_witness :
  let df := [first_row ++ [("prodsimest1", VNum (5 / 2))]] in
  let df' := [first_row ++ [("prodsimest1", VNum (rint (5 / 2)))]] in
  cell24 df = Some df' /\ cell24 df' = Some df'.
Proof.
  intros df df'.
  assert (H : cell24 df = Some df') by reflexivity.
  split; [exact H |].
  exact (cell24_idempotent df df' H).
Defined.

(** *** Cell 14 on its own output *)

Lemma get_rename_other (c a a' : string) (r : row) :
  c <> a -> c <> a' -> get c (rename a a' r) = get c r.
Proof.
  intros Ha Ha'. unfold rename.
  induction r as [| [k v] r IH]; simpl; [reflexivity |].
  destruct (String.eqb_spec k a) as [-> | Hk]; simpl.
  - destruct (String.eqb_spec a' c) as [E | _]; [congruence |].
    destruct (String.eqb_spec a c) as [E | _]; [congruence | exact IH].
  - destruct (String.eqb k c); [reflexivity | exact IH].
Qed.

Lemma get_rename_self (c c' : string) (r : row) :
  c <> c' -> get c (rename c c' r) = None.
Proof.
  intros Hc. unfold rename.
  induction r as [| [k v] r IH]; simpl; [reflexivity |].
  destruct (String.eqb_spec k c) as [-> | Hk]; simpl.
  - destruct (String.eqb_spec c' c) as [E | _]; [congruence | exact IH].
  - destruct (String.eqb_spec k c) as [E | _]; [congruence | exact IH].
Qed.

Lemma attach_present (c : string) (v w : value) (r : row) :
  get c r = Some w ->
  attach c v r = rename c (c ++ "_x")%string r ++ [((c ++ "_y")%string, v)].
Proof. intros H. unfold attach, has. now rewrite H. Qed.

(** Cell 14 is not meant to run twice.  On its own output it raises
    nothing, but the merges rename the existing margins to [O_i_x] and
    [D_j_x] and add [O_i_y] and [D_j_y]: the table that results has no
    column [O_i] and no column [D_j] any more. *)
Theorem cell14_twice_loses_margins (cdatasub once : DataFrame) :
  flow_table cdatasub ->
  cell14 cdatasub = Some once ->
  exists twice,
    cell14 once = Some twice /\
    length twice = length cdatasub /\
    Forall (fun r => get "O_i" r = None /\ get "D_j" r = None /\
                     get "O_i_y" r <> None /\ get "D_j_y" r <> None) twice.
Proof.
  intros Hflow Hrun. pose proof (flow_table_facts cdatasub Hflow) as facts.
  pose proof (cell14_rows cdatasub Hflow) as H1. rewrite map_id in H1.
  rewrite H1 in Hrun. injection Hrun as <-.
  set (korig := fun r : row => VStr (text "OrigCodeNew" r)).
  set (kdest := fun r : row => VStr (text "DestCodeNew" r)).
  set (G := fun r : row => r ++ [("O_i", VNum (O_i_of cdatasub r));
                                 ("D_j", VNum (D_j_of cdatasub r))]).
  assert (HG : forall c v r, get c r = Some v -> get c (G r) = Some v)
    by (intros c v r H; now apply get_app_l).
  unfold cell14.
  rewrite (groupby_sum_rows cdatasub G "OrigCodeNew" korig
             (fun r Hr => HG _ _ r (rf_orig r (facts r Hr)))
             "Total" (number "Total") (fun r Hr => eq_refl)
             (fun r Hr => HG _ _ r (rf_total r (facts r Hr)))).
  cbn [bind].
  rewrite (merge_left_grouped cdatasub G "OrigCodeNew" korig
             (fun r Hr => HG _ _ r (rf_orig r (facts r Hr))) "O_i"
             (fun k => VNum (group_total korig (number "Total") cdatasub k))).
  cbn [bind].
  set (G2 := fun r : row =>
               rename "O_i" "O_i_x" (G r)
               ++ [("O_i_y", VNum (group_total korig (number "Total")
                                               cdatasub (korig r)))]).
  rewrite (map_ext_in _ G2).
  2:{ intros r Hr. pose proof (facts r Hr) as Fr.
      apply (attach_present "O_i" _ (VNum (O_i_of cdatasub r))).
      unfold G. rewrite get_app_r by fresh_column. reflexivity. }
  assert (HG2 : forall c v r, c <> "O_i" -> c <> "O_i_x" ->
                  get c r = Some v -> get c (G2 r) = Some v).
  { intros c v r Hc Hc' H. unfold G2. apply get_app_l.
    rewrite get_rename_other by assumption. now apply HG. }
  assert (Hd : forall r, In r cdatasub ->
                 get "DestCodeNew" (G2 r) = Some (kdest r)).
  { intros r Hr. apply HG2; try discriminate. exact (rf_dest r (facts r Hr)). }
  rewrite (groupby_sum_rows cdatasub G2 "DestCodeNew" kdest Hd
             "Total" (number "Total") (fun r Hr => eq_refl)).
  2:{ intros r Hr. apply HG2; try discriminate.
      exact (rf_total r (facts r Hr)). }
  cbn [bind].
  rewrite (merge_left_grouped cdatasub G2 "DestCodeNew" kdest Hd "D_j"
             (fun k => VNum (group_total kdest (number "Total") cdatasub k))).
  eexists. split; [reflexivity |]. split; [apply length_map |].
  apply Forall_map, Forall_forall. intros r Hr. pose proof (facts r Hr) as Fr.
  assert (HDj : get "D_j" (G2 r) = Some (VNum (D_j_of cdatasub r))).
  { unfold G2. apply get_app_l.
    rewrite get_rename_other by discriminate.
    unfold G. rewrite get_app_r by fresh_column. reflexivity. }
  rewrite (attach_present "D_j" _ _ _ HDj).
  assert (HOi : get "O_i" (G2 r) = None).
  { unfold G2. rewrite get_app_r by (apply get_rename_self; discriminate).
    reflexivity. }
  assert (HOy : get "O_i_y" (G2 r) <> None).
  { unfold G2.
    destruct (get "O_i_y" (rename "O_i" "O_i_x" (G r))) as [v |] eqn:E.
    - rewrite (get_app_l _ _ _ _ E). discriminate.
    - rewrite (get_app_r _ _ _ E). simpl. discriminate. }
  cbn [append]. repeat split.
  - rewrite get_app_r.
    + reflexivity.
    + rewrite get_rename_other by discriminate. exact HOi.
  - rewrite get_app_r by (apply get_rename_self; discriminate). reflexivity.
  - destruct (get "O_i_y" (G2 r)) as [v |] eqn:E; [| contradiction].
    rewrite (get_app_l _ _ _ v); [discriminate |].
    rewrite get_rename_other by discriminate. exact E.
  - destruct (get "D_j_y" (rename "D_j" "D_j_x" (G2 r))) as [v |] eqn:E.
    + rewrite (get_app_l _ _ _ _ E). discriminate.
    + rewrite (get_app_r _ _ _ E). simpl. discriminate.
Qed.

Lemma cell14_twice_loses_margins_witness :
  flow_table Sample.cdatasub /\
  exists once twice,
    cell14 Sample.cdatasub = Some once /\
    cell14 once = Some twice /\
    length twice = length Sample.cdatasub /\
    Forall (fun r => get "O_i" r = None /\ get "D_j" r = None /\
                     get "O_i_y" r <> None /\ get "D_j_y" r <> None) twice.
Proof.
  split; [exact sample_flow_table |].
  pose proof (cell14_rows Sample.cdatasub sample_flow_table) as H.
  rewrite map_id in H.
  destruct (cell14_twice_loses_margins Sample.cdatasub _ sample_flow_table H)
    as (twice & H2 & H3).
  exists (map (fun r => r ++ [("O_i", VNum (O_i_of Sample.cdatasub r));
                              ("D_j", VNum (D_j_of Sample.cdatasub r))])
              Sample.cdatasub), twice.
  split; [exact H |]. split; [exact H2 | exact H3].
Defined.

End CellFacts.

(** ** The estimates as flows *)

Module Estimates.
Import Num NumFacts Frame FrameFacts Notebook NotebookFacts Likelihood.
Import Constraints Sample SampleFacts Run MetricsMore Balancing.

Lemma sum_nonneg (l : list R) : Forall (fun x => 0 <= x) l -> 0 <= sum l.
Proof. induction 1 as [| x l Hx _ IH]; simpl; lra. Qed.

Lemma rint_count (x : R) :
  0 <= x -> exists z : Z, (0 <= z)%Z /\ rint x = IZR z.
Proof.
  intros H. exists (round_half_even x).
  split; [now apply round_half_even_nonneg | reflexivity].
Qed.

Lemma balanced_nonneg (prodSim : Params) (df : DataFrame) (sal : row -> R)
    (r : row) :
  flow_table df -> In r df ->
  Forall (fun r0 => 0 <= number "Total" r0) df ->
  0 <= balanced_of prodSim df sal r.
Proof.
  intros Hflow Hr Htot. unfold balanced_of, A_of, O_i_of, total.
  assert (HS : 0 < sum (map (Ai1_of prodSim sal) (same_origin df r))).
  { apply sum_pos.
    - pose proof (in_rows_where "OrigCodeNew" r df Hr
                    (rf_orig r (flow_table_facts df Hflow r Hr))) as Hin.
      unfold same_origin. intros E. apply map_eq_nil in E.
      rewrite E in Hin. exact Hin.
    - apply Forall_map, Forall_forall. intros r0 _. apply Ai1_of_pos. }
  assert (HA : 0 <= 1 / sum (map (Ai1_of prodSim sal) (same_origin df r)))
    by (left; apply Rdiv_lt_0_compat; lra).
  assert (HO : 0 <= sum (map (number "Total") (same_origin df r))).
  { apply sum_nonneg, Forall_map, Forall_forall. intros r0 H0.
    apply rows_where_incl in H0. rewrite Forall_forall in Htot. now apply Htot. }
  pose proof (Rpower_pos (sal r) (gamma_of prodSim)).
  pose proof (Rpower_pos (number "Dist" r) (beta_of prodSim)).
  repeat apply Rmult_le_pos; lra.
Qed.

(** When no observed flow is negative, every estimate the notebook
    writes, from either model, by either route, and for the scenario, is a
    whole number that is not negative. *)
Theorem estimates_are_counts
  (prodSim attrSim : Params) (levels : list string) (df df' : DataFrame)
  (r' : row) (c : string) :
  flow_table df ->
  prodSim_design levels df prodSim ->
  attrSim_design df attrSim ->
  Forall (fun r => 0 <= number "Total" r) df ->
  notebook prodSim attrSim df = Some df' ->
  In r' df' ->
  In c ["prodsimest1"; "prodsimest2"; "prodsimest3"; "prodsimest4";
        "attrsimFitted"] ->
  exists z : Z, (0 <= z)%Z /\ get c r' = Some (VNum (IZR z)).
Proof.
  intros Hflow Hprod Hattr Htot Hrun Hr' Hc.
  rewrite (notebook_rows prodSim attrSim df Hflow levels Hprod Hattr) in Hrun.
  injection Hrun as <-.
  apply in_map_iff in Hr'. destruct Hr' as (r & <- & Hr).
  assert (Hcell : forall x, 0 <= x ->
            get c (r ++ derived prodSim attrSim df r) = Some (VNum (rint x)) ->
            exists z : Z, (0 <= z)%Z /\
              get c (r ++ derived prodSim attrSim df r) = Some (VNum (IZR z))).
  { intros x Hx E. destruct (rint_count x Hx) as (z & Hz & Ez).
    exists z. split; [exact Hz |]. now rewrite E, Ez. }
  simpl in Hc.
  destruct Hc as [<- | [<- | [<- | [<- | [<- | []]]]]].
  - apply (Hcell (lambda_of prodSim r)).
    + left. apply exp_pos.
    + now rewrite (derived_cell prodSim attrSim df Hflow "prodsimest1" r Hr
                     eq_refl).
  - eapply Hcell.
    2:{ now rewrite (derived_cell prodSim attrSim df Hflow "prodsimest2" r Hr
                       eq_refl). }
    left. apply exp_pos.
  - apply (Hcell (balanced_of prodSim df (number "Dj2_destsal") r)).
    + now apply balanced_nonneg.
    + now rewrite (derived_cell prodSim attrSim df Hflow "prodsimest3" r Hr
                     eq_refl).
  - apply (Hcell (balanced_of prodSim df scenario_salary r)).
    + now apply balanced_nonneg.
    + now rewrite (derived_cell prodSim attrSim df Hflow "prodsimest4" r Hr
                     eq_refl).
  - apply (Hcell (mu_of attrSim r)).
    + left. apply exp_pos.
    + now rewrite (derived_cell prodSim attrSim df Hflow "attrsimFitted" r Hr
                     eq_refl).
Qed.

Lemma sample_totals : Forall (fun r => 0 <= number "Total" r) cdatasub.
Proof.
  unfold cdatasub. repeat (constructor; [unfold number; simpl; lra |]).
  constructor.
Qed.

Lemma estimates_are_counts_witness :
  let r' := first_row ++ derived prodSim attrSim cdatasub first_row in
  flow_table cdatasub /\
  prodSim_design levels cdatasub prodSim /\
  attrSim_design cdatasub attrSim /\
  Forall (fun r => 0 <= number "Total" r) cdatasub /\
  exists z : Z, (0 <= z)%Z /\ get "prodsimest3" r' = Some (VNum (IZR z)).
Proof.
  intros r'.
  split; [exact sample_flow_table |].
  split; [exact sample_prodSim_design |].
  split; [exact sample_attrSim_design |].
  split; [exact sample_totals |].
  apply (estimates_are_counts prodSim attrSim levels cdatasub _ r'
           "prodsimest3" sample_flow_table sample_prodSim_design
           sample_attrSim_design sample_totals sample_run).
  - left. reflexivity.
  - simpl. tauto.
Defined.

(** *** The direction of the scenario *)

Lemma round_half_even_monotone (x y : R) :
  x <= y -> (round_half_even x <= round_half_even y)%Z.
Proof.
  intros Hxy.
  destruct (Z_le_gt_dec (round_half_even x) (round_half_even y)) as [H | H];
    [exact H | exfalso].
  pose proof (round_half_even_error x) as Ex.
  pose proof (round_half_even_error y) as Ey.
  pose proof (Rle_abs (IZR (round_half_even x) - x)) as Ex'.
  pose proof (Rle_abs (- (IZR (round_half_even y) - y))) as Ey'.
  rewrite Rabs_Ropp in Ey'.
  assert (Hz : (round_half_even y + 1 <= round_half_even x)%Z) by lia.
  apply IZR_le in Hz. rewrite plus_IZR in Hz. simpl in Hz.
  assert (E : x = y) by lra. subst y. lia.
Qed.

Lemma rint_monotone (x y : R) : x <= y -> rint x <= rint y.
Proof. intros H. apply IZR_le. now apply round_half_even_monotone. Qed.

(** With a salary coefficient that is not negative, the scenario never
    lowers the estimate of cell 34 for a flow into the zone E09000002 whose
    salary is at most 25000: [prodsimest1 <= prodsimest2] on such a row. *)
Theorem scenario_raises_zone_estimate
  (prodSim attrSim : Params) (levels : list string) (df df' : DataFrame)
  (k : nat) (r r' : row) :
  flow_table df ->
  prodSim_design levels df prodSim ->
  attrSim_design df attrSim ->
  notebook prodSim attrSim df = Some df' ->
  nth_error df k = Some r ->
  nth_error df' k = Some r' ->
  number "log_Dj2_destsal" r = ln (number "Dj2_destsal" r) ->
  text "DestCodeNew" r = "E09000002" ->
  0 <= gamma_of prodSim ->
  number "Dj2_destsal" r <= 25000 ->
  number "prodsimest1" r' <= number "prodsimest2" r'.
Proof.
  intros Hflow Hprod Hattr Hrun Hr Hr' Hlog Hd Hg Hsal.
  pose proof (flow_table_facts df Hflow) as facts.
  rewrite (notebook_rows prodSim attrSim df Hflow levels Hprod Hattr) in Hrun.
  injection Hrun as <-.
  rewrite (map_nth_error _ _ _ Hr) in Hr'. injection Hr' as <-.
  assert (Hin : In r df) by (eapply nth_error_In; eassumption).
  pose proof (rf_sal_pos r (facts r Hin)) as Hpos.
  unfold number at 1 2.
  rewrite (derived_cell prodSim attrSim df Hflow "prodsimest2" r Hin eq_refl).
  rewrite (derived_cell prodSim attrSim df Hflow "prodsimest1" r Hin eq_refl).
  simpl. apply rint_monotone. unfold lambda_of, scenario_salary.
  apply String.eqb_eq in Hd. rewrite Hd, Hlog.
  assert (Hln : ln (number "Dj2_destsal" r) <= ln 25000).
  { destruct Hsal as [Hlt | ->]; [left; apply ln_increasing; lra | lra]. }
  set (e1 := alpha_of prodSim r
             + gamma_of prodSim * ln (number "Dj2_destsal" r)
             - beta_of prodSim * number "log_Dist" r).
  set (e2 := alpha_of prodSim r + gamma_of prodSim * ln 25000
             - beta_of prodSim * number "log_Dist" r).
  assert (He : e1 <= e2) by (unfold e1, e2; nra).
  destruct He as [He | ->]; [left; now apply exp_increasing | right; reflexivity].
Qed.

Lemma scenario_raises_zone_estimate_witness :
  let r' := first_row ++ derived prodSim attrSim cdatasub first_row in
  flow_table cdatasub /\
  prodSim_design levels cdatasub prodSim /\
  attrSim_design cdatasub attrSim /\
  number "log_Dj2_destsal" first_row = ln (number "Dj2_destsal" first_row) /\
  text "DestCodeNew" first_row = "E09000002" /\
  0 <= gamma_of prodSim /\
  number "Dj2_destsal" first_row <= 25000 /\
  number "prodsimest1" r' <= number "prodsimest2" r'.
Proof.
  intros r'.
  assert (Hg : 0 <= gamma_of prodSim) by (rewrite sample_gamma; lra).
  assert (Hs : number "Dj2_destsal" first_row <= 25000)
    by (unfold number; simpl; lra).
  split; [exact sample_flow_table |].
  split; [exact sample_prodSim_design |].
  split; [exact sample_attrSim_design |].
  split; [exact sample_log_salary |].
  split; [reflexivity |].
  split; [exact Hg |].
  split; [exact Hs |].
  exact (scenario_raises_zone_estimate prodSim attrSim levels cdatasub _ 0
           first_row r' sample_flow_table sample_prodSim_design
           sample_attrSim_design sample_run eq_refl eq_refl
           sample_log_salary eq_refl Hg Hs).
Defined.

(** *** Where the two routes to the estimates agree *)




End Estimates.
